(** * PGN ingestion and opening classification (chess-fetcher.js, game-analyzer.js)

    A shallow embedding of the text-processing core of the repository:
    [splitEcoUrl], [formatExtraMoves], [lookupOpening], [loadOpeningsDb],
    [getOpeningDataForGame], [parseMovesAndClocks], [getGameFormat],
    [parseTimeControl], [extractECOCodeFromPGN], [extractECOFromPGN],
    [getGameOutcome], [getGameTermination], [formatDuration] and the class
    [RatingsTracker] of chess-fetcher.js, and [parsePGN], [analyzeMoves],
    the query of [searchGames] and the loop of [findStreaks] of
    game-analyzer.js.

    Modelling conventions.
    - A JavaScript string is a list of 8-bit characters ([list ascii]); PGN
      text and chess.com opening URLs are ASCII.  White space is the
      ECMAScript set restricted to that range (TAB, LF, VT, FF, CR, SP, NBSP).
    - A regular-expression literal of the source is a term of [Re.re] that
      mirrors the literal; [Re.run] is a backtracking matcher with the
      priority order of ECMAScript (leftmost alternative first, greedy
      quantifiers).
    - The source's [while ((match = re.exec(s)) !== null)] loops take fuel and
      return [None] when it runs out; their termination is proved.
    - A JavaScript [Map] and an object used as a dictionary are [gmap]s.

    Layout: the string primitives ([Js]), the matcher ([Re]), the two source
    files ([ChessFetcher], [GameAnalyzer]), the number primitives ([JsNum]),
    the game records, ratings and opening data of chess-fetcher.js ([Games])
    and the search and the streaks of game-analyzer.js ([Analyzer],
    [Streaks]), the vocabulary of the statements ([Spec], [Notions]), then
    the properties, each group of lemmas followed by the theorems it serves:
    C1 to C10 first, X1 to X25 after them. *)

From Stdlib Require Import List Ascii String NArith ZArith QArith Lia Bool DecimalString.
From Stdlib Require Import DecimalPos DecimalZ.
From stdpp Require Import base option gmap strings list.
Import ListNotations.

#[local] Open Scope string_scope.
#[local] Open Scope list_scope.
#[local] Open Scope nat_scope.

(** String literals are read as character lists. *)
Coercion list_ascii_of_string : string >-> list.

Abbreviation str := (list ascii).

(* ================================================================= *)
(** ** JavaScript string primitives *)

Module Js.

Definition code (c : ascii) : N := N_of_ascii c.

Definition inRange (lo hi c : ascii) : bool :=
  (code lo <=? code c)%N && (code c <=? code hi)%N.

Fixpoint oneOf (set : str) (c : ascii) : bool :=
  match set with
  | [] => false
  | x :: set' => Ascii.eqb c x || oneOf set' c
  end.

(** [\d], [\w], [\s] of ECMAScript regular expressions. *)
Definition isDigit (c : ascii) : bool := inRange "0" "9" c.
Definition isUpper (c : ascii) : bool := inRange "A" "Z" c.
Definition isLower (c : ascii) : bool := inRange "a" "z" c.
Definition isAlpha (c : ascii) : bool := isLower c || isUpper c.
Definition isAlnum (c : ascii) : bool := isAlpha c || isDigit c.
Definition isWord (c : ascii) : bool := isAlnum c || Ascii.eqb c "_".
Definition isSpace (c : ascii) : bool :=
  ((9 <=? code c)%N && (code c <=? 13)%N) || (code c =? 32)%N || (code c =? 160)%N.

Definition lowerChar (c : ascii) : ascii :=
  if isUpper c
     || ((192 <=? code c)%N && (code c <=? 222)%N && negb (code c =? 215)%N)
  then ascii_of_N (code c + 32) else c.

(** [s.toLowerCase()] *)
Definition toLowerCase (s : str) : str := List.map lowerChar s.

Fixpoint trimStart (s : str) : str :=
  match s with
  | c :: s' => if isSpace c then trimStart s' else s
  | [] => []
  end.

(** [s.trim()] *)
Definition trim (s : str) : str := rev (trimStart (rev (trimStart s))).

(** [s.startsWith(p)], returning what follows the prefix. *)
Fixpoint stripPrefix (p s : str) : option str :=
  match p, s with
  | [], _ => Some s
  | x :: p', c :: s' => if Ascii.eqb c x then stripPrefix p' s' else None
  | _ :: _, [] => None
  end.

Definition startsWith (p s : str) : bool :=
  match stripPrefix p s with Some _ => true | None => false end.

(** [s.indexOf(p)], with the text before and after the first occurrence. *)
Fixpoint findSub (p : str) (before s : str) : option (str * str) :=
  match stripPrefix p s with
  | Some after => Some (rev before, after)
  | None => match s with
            | [] => None
            | c :: s' => findSub p (c :: before) s'
            end
  end.

(** [s.includes(p)] *)
Definition includes (p s : str) : bool :=
  match findSub p [] s with Some _ => true | None => false end.

(** [s.split(sep)] for a non-empty separator string: [skip] counts the
    characters of a separator just recognised that are still to be passed. *)
Fixpoint splitGo (sep : str) (skip : nat) (cur : str) (s : str) : list str :=
  match s with
  | [] => [rev cur]
  | c :: s' =>
      match skip with
      | S k => splitGo sep k cur s'
      | O => if startsWith sep s
             then rev cur :: splitGo sep (length sep - 1) [] s'
             else splitGo sep 0 (c :: cur) s'
      end
  end.

Definition split (sep s : str) : list str := splitGo sep 0 [] s.

(** [parts.join(sep)] *)
Fixpoint join (sep : str) (parts : list str) : str :=
  match parts with
  | [] => []
  | [p] => p
  | p :: rest => p ++ sep ++ join sep rest
  end.

(** [s.replace(pat, by)] with a string pattern: the first occurrence only.
    The replacement text is inserted verbatim, which is what the builtin
    does for a replacement that holds no [$]. *)
Definition replaceStr (pat repl s : str) : str :=
  match findSub pat [] s with
  | Some (before, after) => before ++ repl ++ after
  | None => s
  end.

(** Decimal rendering of a number inside a template literal. *)
Definition ofNat (n : nat) : str := NilZero.string_of_uint (Nat.to_uint n).

(** [parseInt(s) || 0] on a match group: a run of digits, or [undefined]. *)
Definition digitVal (c : ascii) : N := (code c - 48)%N.
Definition parseDigits (s : str) : N :=
  fold_left (fun acc c => (acc * 10 + digitVal c)%N) s 0%N.
Definition parseIntOr0 (g : option str) : N :=
  match g with Some s => parseDigits s | None => 0%N end.

End Js.

(* ================================================================= *)
(** ** Regular expressions *)

Module Re.

(** The constructs used by the source's literals.  Quantifiers [*], [+]
    and [{m,n}] occur there on single-character classes only ([Rep]);
    [?] also occurs on groups ([Opt]). *)
Inductive re : Type :=
| Eps
| Chr (c : ascii)                                  (* a literal character *)
| Cls (p : ascii -> bool)                          (* [...], \d, \s, \S, \w *)
| Lit (s : str)                                    (* a literal run *)
| Seq (r1 r2 : re)
| Alt (r1 r2 : re)                                 (* r1|r2 *)
| Opt (r : re)                                     (* r? *)
| Rep (lo : nat) (hi : option nat) (p : ascii -> bool)   (* p{lo,hi} *)
| Grp (n : nat) (r : re)                           (* n-th capturing group *)
| Bol                                              (* ^ *)
| Eol.                                             (* $ *)

Definition Star (p : ascii -> bool) : re := Rep 0 None p.
Definition Plus (p : ascii -> bool) : re := Rep 1 None p.
Definition Times (n : nat) (p : ascii -> bool) : re := Rep n (Some n) p.

(** Concatenation of the items of a pattern, left to right. *)
Definition Cat (rs : list re) : re := fold_right Seq Eps rs.

Definition caps := list (nat * str).

Fixpoint cap (n : nat) (cs : caps) : option str :=
  match cs with
  | [] => None
  | (k, s) :: cs' => if Nat.eqb k n then Some s else cap n cs'
  end.

Definition more (hi : option nat) : bool :=
  match hi with Some O => false | _ => true end.

Definition decr (hi : option nat) : option nat :=
  match hi with Some h => Some (pred h) | None => None end.

Section Matcher.
Context {A : Type}.

(** Greedy repetition of a class: take one more character when allowed,
    and give it back when the rest of the pattern fails. *)
Fixpoint rep (p : ascii -> bool) (lo : nat) (hi : option nat)
         (k : nat -> str -> option A) (i : nat) (inp : str) : option A :=
  let stop := if Nat.eqb lo 0 then k i inp else None in
  match inp with
  | c :: inp' =>
      if p c && more hi then
        match rep p (pred lo) (decr hi) k (S i) inp' with
        | Some x => Some x
        | None => stop
        end
      else stop
  | [] => stop
  end.

(** [run r k i inp cs]: match [r] at index [i], where [inp] is the input
    from [i] on, then continue with [k]; [None] is failure, which makes
    the caller try its next alternative. *)
Fixpoint run (r : re) (k : nat -> str -> caps -> option A)
         (i : nat) (inp : str) (cs : caps) : option A :=
  match r with
  | Eps => k i inp cs
  | Chr c =>
      match inp with
      | x :: inp' => if Ascii.eqb x c then k (S i) inp' cs else None
      | [] => None
      end
  | Cls p =>
      match inp with
      | x :: inp' => if p x then k (S i) inp' cs else None
      | [] => None
      end
  | Lit s =>
      match Js.stripPrefix s inp with
      | Some inp' => k (i + length s) inp' cs
      | None => None
      end
  | Seq r1 r2 => run r1 (run r2 k) i inp cs
  | Alt r1 r2 =>
      match run r1 k i inp cs with
      | Some x => Some x
      | None => run r2 k i inp cs
      end
  | Opt r1 =>
      match run r1 k i inp cs with
      | Some x => Some x
      | None => k i inp cs
      end
  | Rep lo hi p => rep p lo hi (fun i' inp' => k i' inp' cs) i inp
  | Grp n r1 =>
      run r1 (fun i' inp' cs' => k i' inp' ((n, firstn (i' - i) inp) :: cs')) i inp cs
  | Bol => if Nat.eqb i 0 then k i inp cs else None
  | Eol => match inp with [] => k i inp cs | _ :: _ => None end
  end.
End Matcher.

(** A match object: [index], the end index ([lastIndex] of a global
    expression), [match[0]], the groups, and the input after the match. *)
Record rmatch : Type := mkMatch {
  m_index : nat;
  m_end : nat;
  m_text : str;
  m_caps : caps;
  m_rest : str
}.

Definition group (n : nat) (x : rmatch) : option str := cap n (m_caps x).

Definition execAt (r : re) (i : nat) (inp : str) : option rmatch :=
  run r (fun i' inp' cs => Some (mkMatch i i' (firstn (i' - i) inp) cs inp')) i inp [].

(** The leftmost match at or after index [i]. *)
Fixpoint search (r : re) (i : nat) (inp : str) : option rmatch :=
  match execAt r i inp with
  | Some x => Some x
  | None => match inp with
            | [] => None
            | _ :: inp' => search r (S i) inp'
            end
  end.

(** [str.match(re)] without the [g] flag, and [re.test(str)]. *)
Definition exec (r : re) (s : str) : option rmatch := search r 0 s.
Definition test (r : re) (s : str) : bool :=
  match exec r s with Some _ => true | None => false end.

(** [while ((match = re.exec(s)) !== null) { ... }] with a [g] expression:
    the matches the body sees, in order.  [exec] resumes at [lastIndex],
    the end of the previous match, so an empty match would be found again
    and again: the loop then never ends, and no fuel is enough. *)
Fixpoint execLoop (fuel : nat) (r : re) (i : nat) (inp : str) : option (list rmatch) :=
  match fuel with
  | O => None
  | S fuel' =>
      match search r i inp with
      | None => Some []
      | Some x => option_map (cons x) (execLoop fuel' r (m_end x) (m_rest x))
      end
  end.

(** The matches that [str.match(re)] and [str.replace(re, ...)] enumerate
    for a [g] expression.  The builtin steps over an empty match, so every
    round passes at least one character and [S (length s)] rounds reach
    the end of the string. *)
Fixpoint matchesFrom (rounds : nat) (r : re) (i : nat) (inp : str) : list rmatch :=
  match rounds with
  | O => []
  | S rounds' =>
      match search r i inp with
      | None => []
      | Some x =>
          x :: (if Nat.eqb (m_end x) (m_index x)
                then match m_rest x with
                     | [] => []
                     | _ :: rest' => matchesFrom rounds' r (S (m_end x)) rest'
                     end
                else matchesFrom rounds' r (m_end x) (m_rest x))
      end
  end.

Definition matchAll (r : re) (s : str) : list rmatch :=
  matchesFrom (S (length s)) r 0 s.

(** Rebuild the string with the [k]-th match replaced by [f k match];
    [inp] is the input from index [pos] on. *)
Fixpoint splice (f : nat -> rmatch -> str) (k pos : nat) (inp : str)
         (ms : list rmatch) : str :=
  match ms with
  | [] => inp
  | x :: ms' =>
      firstn (m_index x - pos) inp ++ f k x
        ++ splice f (S k) (m_end x) (skipn (m_end x - pos) inp) ms'
  end.

(** [s.replace(re, callback)] with the [g] flag; the callback also
    receives the number of matches replaced before. *)
Definition replaceAllWith (r : re) (f : nat -> rmatch -> str) (s : str) : str :=
  splice f 0 0 s (matchAll r s).

(** [s.replace(re, by)] with the [g] flag and a replacement without [$]. *)
Definition replaceAll (r : re) (repl : str) (s : str) : str :=
  replaceAllWith r (fun _ _ => repl) s.

(** [s.replace(re, by)] without the [g] flag: the first match only. *)
Definition replaceFirst (r : re) (repl : str) (s : str) : str :=
  match exec r s with
  | Some x => firstn (m_index x) s ++ repl ++ m_rest x
  | None => s
  end.

End Re.

(* ================================================================= *)
(** ** chess-fetcher.js: opening URLs *)

Module ChessFetcher.
Import Re.

Definition isDot (c : ascii) : bool := Ascii.eqb c ".".

(** [O-O(?:-O)?|[a-zA-Z0-9]+] *)
Definition withMove : re :=
  Alt (Seq (Lit "O-O") (Opt (Lit "-O"))) (Plus Js.isAlnum).

(** [/with-(\d+)-(O-O(?:-O)?|[a-zA-Z0-9]+)(?:-and-(\d+)-(O-O(?:-O)?|[a-zA-Z0-9]+))?/g] *)
Definition withRe : re :=
  Cat [Lit "with-"; Grp 1 (Plus Js.isDigit); Chr "-"; Grp 2 withMove;
       Opt (Cat [Lit "-and-"; Grp 3 (Plus Js.isDigit); Chr "-"; Grp 4 withMove])].

(** [/(-\d+\.{0,3}[a-zA-Z]|\.{3}\d+\.|\.{3}[a-zA-Z])/] *)
Definition movePattern : re :=
  Grp 1 (Alt (Cat [Chr "-"; Plus Js.isDigit; Rep 0 (Some 3) isDot; Cls Js.isAlpha])
        (Alt (Cat [Times 3 isDot; Plus Js.isDigit; Chr "."])
             (Cat [Times 3 isDot; Cls Js.isAlpha]))).

Record split : Type := mkSplit { baseSlug : str; extraMoves : str }.

(** The template literal [`__WITH_${n}__`]. *)
Definition placeholder (n : nat) : str := "__WITH_" ++ Js.ofNat n ++ "__".

(** [withPatterns.forEach((pattern, i) => { baseSlug = baseSlug.replace(..., pattern) })] *)
Fixpoint restore (i : nat) (withPatterns : list str) (base : str) : str :=
  match withPatterns with
  | [] => base
  | pattern :: rest => restore (S i) rest (Js.replaceStr (placeholder i) pattern base)
  end.

Definition splitEcoUrl (ecoUrl : str) : split :=
  if negb (Js.includes "chess.com/openings/" ecoUrl) then mkSplit "" "" else
  let fullSlug := nth 1 (Js.split "/openings/" ecoUrl) [] in
  match fullSlug with
  | [] => mkSplit "" ""
  | _ :: _ =>
      let found := matchAll withRe fullSlug in
      let withPatterns := List.map m_text found in
      let slug := splice (fun n _ => placeholder n) 0 0 fullSlug found in
      let (base, extra) :=
        match exec movePattern slug with
        | Some moveMatch => (firstn (m_index moveMatch) slug, skipn (m_index moveMatch) slug)
        | None => (slug, [])
        end in
      mkSplit (Js.toLowerCase (restore 0 withPatterns base)) extra
  end.

(** [/^[-\.]+/] *)
Definition leadRe : re := Seq Bol (Plus (Js.oneOf "-.")).

(** [/^(\d+)(\.{0,3})$/] and its group-free twin [/^\d+\.{0,3}$/] *)
Definition moveNumRe : re :=
  Cat [Bol; Grp 1 (Plus Js.isDigit); Grp 2 (Rep 0 (Some 3) isDot); Eol].
Definition isMoveNumRe : re :=
  Cat [Bol; Plus Js.isDigit; Rep 0 (Some 3) isDot; Eol].

Definition strEq (a b : str) : bool := bool_decide (a = b).

(** The [while (i < tokens.length)] loop: [tokens] is what remains from
    index [i] on, the result is what the loop pushes onto [moves]. *)
Fixpoint formatTokens (tokens : list str) : list str :=
  match tokens with
  | [] => []
  | token :: rest =>
      match exec moveNumRe token with
      | Some moveNumMatch =>
          let num := default [] (group 1 moveNumMatch) in
          let dots := default [] (group 2 moveNumMatch) in
          if strEq dots "..." then
            (num ++ "...") ::
            match rest with
            | t1 :: rest1 =>
                if negb (test isMoveNumRe t1) then t1 :: formatTokens rest1
                else formatTokens rest
            | [] => []
            end
          else
            (num ++ ".") ::
            match rest with
            | t1 :: rest1 =>
                if negb (test isMoveNumRe t1) then
                  t1 ::
                  match rest1 with
                  | t2 :: rest2 =>
                      if negb (test isMoveNumRe t2) then t2 :: formatTokens rest2
                      else formatTokens rest1
                  | [] => []
                  end
                else formatTokens rest
            | [] => []
            end
      | None => token :: formatTokens rest
      end
  end.

Definition nonEmpty (s : str) : bool := match s with [] => false | _ :: _ => true end.

Definition formatExtraMoves (extraMovesSlug : str) : str :=
  match Js.trim extraMovesSlug with
  | [] => ""
  | _ :: _ =>
      let slug := replaceFirst leadRe "" (Js.trim extraMovesSlug) in
      match slug with
      | [] => ""
      | _ :: _ =>
          let tokens := List.filter nonEmpty (Js.split "-" slug) in
          match tokens with
          | [] => ""
          | _ :: _ => Js.join " " (formatTokens tokens)
          end
      end
  end.


(* ----------------------------------------------------------------- *)
(** *** The opening catalog *)

Record entry : Type := mkEntry {
  fullName : str; slug : str; family : str; baseName : str;
  var1 : str; var2 : str; var3 : str; var4 : str; var5 : str; var6 : str
}.

(** [lookupOpening(db, slug)]; [db] is a [Map]. *)
Definition lookupOpening (db : gmap str entry) (slug : str) : option entry :=
  match db !! slug with
  | Some e => Some e
  | None =>
      let withoutWith := nth 0 (Js.split "-with-" slug) [] in
      if nonEmpty withoutWith && negb (strEq withoutWith slug)
      then db !! withoutWith
      else None
  end.

(** A row of [SELECT * FROM openings]: every column is NULL or a text. *)
Record row : Type := mkRow {
  trim_slug : option str; full_name : option str;
  row_family : option str; base_name : option str;
  variation_1 : option str; variation_2 : option str; variation_3 : option str;
  variation_4 : option str; variation_5 : option str; variation_6 : option str
}.

(** [String(x || '')] *)
Definition orEmpty (x : option str) : str := default [] x.

(** The body of [for (const row of rows)]. *)
Definition addRow (cache : gmap str entry) (r : row) : gmap str entry :=
  let trimSlug := Js.toLowerCase (Js.trim (orEmpty (trim_slug r))) in
  match trimSlug with
  | [] => cache
  | _ :: _ =>
      <[trimSlug := mkEntry (orEmpty (full_name r)) trimSlug
                      (orEmpty (row_family r)) (orEmpty (base_name r))
                      (orEmpty (variation_1 r)) (orEmpty (variation_2 r))
                      (orEmpty (variation_3 r)) (orEmpty (variation_4 r))
                      (orEmpty (variation_5 r)) (orEmpty (variation_6 r))]> cache
  end.

Definition populate (rows : list row) : gmap str entry := fold_left addRow rows ∅.

(** What the backing store answers during one load. *)
Inductive store : Type :=
| Missing                      (* fs.existsSync(OPENINGS_DB_PATH) is false *)
| OpenFails                    (* the sqlite3.Database callback gets an error *)
| ReadFails                    (* db.all calls back with an error *)
| Rows (rows : list row).      (* db.all calls back with the rows *)

(** The accesses to the backing store, in the order they are made. *)
Inductive access : Type := ExistsSync | OpenDb | SelectAll | CloseDb.

(** The module-level [openingsCache] and [lastCacheTime], both [null] at start. *)
Record cacheState : Type := mkCache {
  openingsCache : option (gmap str entry);
  lastCacheTime : option Z
}.

Definition initialCache : cacheState := mkCache None None.

Definition CACHE_DURATION_MS : Z := 5 * 60 * 1000.

(** [openingsCache && lastCacheTime && (now - lastCacheTime) < CACHE_DURATION_MS] *)
Definition cacheHit (now : Z) (st : cacheState) : option (gmap str entry) :=
  match openingsCache st, lastCacheTime st with
  | Some c, Some t =>
      if negb (t =? 0)%Z && (now - t <? CACHE_DURATION_MS)%Z then Some c else None
  | _, _ => None
  end.

(** One awaited call of [loadOpeningsDb()] at time [now = Date.now()]:
    the mapping the promise resolves to, the module state afterwards, and
    the accesses made to the store. *)
Definition loadOpeningsDb (now : Z) (db : store) (st : cacheState)
  : gmap str entry * cacheState * list access :=
  match cacheHit now st with
  | Some c => (c, st, [])
  | None =>
      let cache : gmap str entry := ∅ in
      match db with
      | Missing => (cache, mkCache (Some cache) (Some now), [ExistsSync])
      | OpenFails => (cache, mkCache (Some cache) (Some now), [ExistsSync; OpenDb])
      | ReadFails =>
          (cache, mkCache (Some cache) (Some now), [ExistsSync; OpenDb; SelectAll; CloseDb])
      | Rows rows =>
          let cache := fold_left addRow rows cache in
          (cache, mkCache (Some cache) (Some now), [ExistsSync; OpenDb; SelectAll; CloseDb])
      end
  end.

(* ----------------------------------------------------------------- *)
(** *** Moves and clocks *)

Definition nl : ascii := "010"%char.

Definition notSpace (c : ascii) : bool := negb (Js.isSpace c).

(** [/\d+\.\s+\S+(\s+\S+)?/g] *)
Definition plyRe : re :=
  Cat [Plus Js.isDigit; Chr "."; Plus Js.isSpace; Plus notSpace;
       Opt (Grp 1 (Seq (Plus Js.isSpace) (Plus notSpace)))].

(** [/\S+/g] *)
Definition wordRe : re := Plus notSpace.

(** [[NBRQK]?[a-h]?[1-8]?x?[a-h][1-8](?:=[NBRQK])?|O-O(?:-O)?] *)
Definition sanRe : re :=
  Alt (Cat [Opt (Cls (Js.oneOf "NBRQK")); Opt (Cls (Js.inRange "a" "h"));
            Opt (Cls (Js.inRange "1" "8")); Opt (Chr "x");
            Cls (Js.inRange "a" "h"); Cls (Js.inRange "1" "8");
            Opt (Seq (Chr "=") (Cls (Js.oneOf "NBRQK")))])
      (Seq (Lit "O-O") (Opt (Lit "-O"))).

(** [/(san)\s*\{?\[%clk\s+(\d+):(\d+):(\d+)(?:\.(\d+))?\]?\}?/g] *)
Definition clockRe : re :=
  Cat [Grp 1 sanRe; Star Js.isSpace; Opt (Chr "{"); Lit "[%clk"; Plus Js.isSpace;
       Grp 2 (Plus Js.isDigit); Chr ":"; Grp 3 (Plus Js.isDigit); Chr ":";
       Grp 4 (Plus Js.isDigit); Opt (Seq (Chr ".") (Grp 5 (Plus Js.isDigit)));
       Opt (Chr "]"); Opt (Chr "}")].

Record clockEntry : Type := mkClock { move : str; clock : Q }.

Definition num (n : option str) : Q := inject_Z (Z.of_N (Js.parseIntOr0 n)).

(** The body of the [while] loop over the matches of [movePattern]. *)
Definition clockOf (x : rmatch) : clockEntry :=
  let hours := num (group 2 x) in
  let minutes := num (group 3 x) in
  let seconds := num (group 4 x) in
  let deciseconds := num (group 5 x) in
  mkClock (orEmpty (group 1 x))
          (hours * 3600 + minutes * 60 + seconds + deciseconds / 10)%Q.

(** [pgn.split(/\n\n/)[1] || '']: the expression is two literal characters
    and has no group, so it splits as the string does. *)
Definition moveSection (pgn : str) : str := nth 1 (Js.split [nl; nl] pgn) [].

(** [move.match(/\S+/g).length - 1], summed over the full moves. *)
Definition plyCount (section : str) : nat :=
  fold_left (fun count x => count + (length (matchAll wordRe (m_text x)) - 1))
            (matchAll plyRe section) 0.

Record movesAndClocks : Type := mkMoves {
  moves : option (list clockEntry);     (* what JSON.stringify is given, or null *)
  plies : nat;
  totalMoves : nat
}.

Definition parseMovesAndClocks (fuel : nat) (pgn : str) : option movesAndClocks :=
  match pgn with
  | [] => Some (mkMoves None 0 0)
  | _ :: _ =>
      let section := moveSection pgn in
      let n := plyCount section in
      match execLoop fuel clockRe 0 section with
      | Some found => Some (mkMoves (Some (List.map clockOf found)) n (Nat.div2 (S n)))
      | None => None
      end
  end.

End ChessFetcher.

(* ================================================================= *)
(** ** game-analyzer.js *)

Module GameAnalyzer.
Import Re.

Definition quote : ascii := "034"%char.
Definition notQuote (c : ascii) : bool := negb (Ascii.eqb c quote).

(** [/\[(\w+)\s+Q([^Q]+)Q\]/g], where Q stands for the double quote. *)
Definition headerRegex : re :=
  Cat [Chr "["; Grp 1 (Plus Js.isWord); Plus Js.isSpace; Chr quote;
       Grp 2 (Plus notQuote); Chr quote; Chr "]"].

(** [headers[name] = value] on an object literal: the key [__proto__] goes
    to the setter inherited from [Object.prototype], which ignores a string
    and creates no property; every other key becomes an own property. *)
Definition setProp (headers : gmap str str) (name value : str) : gmap str str :=
  if ChessFetcher.strEq name "__proto__" then headers else <[name := value]> headers.

Definition addHeader (headers : gmap str str) (x : rmatch) : gmap str str :=
  setProp headers (default [] (group 1 x)) (default [] (group 2 x)).

(** The [for (const line of lines)] loop; [hasHeaders] is
    [Object.keys(headers).length > 0]. *)
Fixpoint collectMoves (hasHeaders inMoves : bool) (movesText : str)
         (lines : list str) : str :=
  match lines with
  | [] => movesText
  | line :: rest =>
      match Js.trim line with
      | [] => collectMoves hasHeaders (if hasHeaders then true else inMoves) movesText rest
      | _ :: _ =>
          if inMoves then collectMoves hasHeaders inMoves (movesText ++ " " ++ line) rest
          else collectMoves hasHeaders inMoves movesText rest
      end
  end.

Definition isNot (x : ascii) (c : ascii) : bool := negb (Ascii.eqb c x).

Definition commentRe : re := Cat [Chr "{"; Star (isNot "}"); Chr "}"].       (* /\{[^}]*\}/g *)
Definition variationRe : re := Cat [Chr "("; Star (isNot ")"); Chr ")"].     (* /\([^)]*\)/g *)
Definition nagRe : re := Seq (Chr "$") (Plus Js.isDigit).                    (* /\$\d+/g *)
Definition annotRe : re := Plus (Js.oneOf "!?").                             (* /[!?]+/g *)
Definition resultRe : re :=                                                  (* /1-0|0-1|1\/2-1\/2|\*/g *)
  Alt (Lit "1-0") (Alt (Lit "0-1") (Alt (Lit "1/2-1/2") (Chr "*"))).
Definition spacesRe : re := Plus Js.isSpace.                                 (* /\s+/g *)

Definition cleanMoves (movesText : str) : str :=
  Js.trim
    (replaceAll spacesRe " "
       (replaceAll resultRe ""
          (replaceAll annotRe ""
             (replaceAll nagRe ""
                (replaceAll variationRe ""
                   (replaceAll commentRe "" movesText)))))).

Definition sanChar (c : ascii) : bool :=
  Js.inRange "a" "h" c || Js.inRange "1" "8" c || Js.oneOf "NBRQKOx=+#-" c.

(** [/\d+\.\s*([a-h1-8NBRQKOx=+#-]+)\s*([a-h1-8NBRQKOx=+#-]+)?/g] *)
Definition movePattern : re :=
  Cat [Plus Js.isDigit; Chr "."; Star Js.isSpace; Grp 1 (Plus sanChar);
       Star Js.isSpace; Opt (Grp 2 (Plus sanChar))].

(** [if (match[n]) moves.push(match[n])] *)
Definition pushGroup (n : nat) (x : rmatch) : list str :=
  match group n x with
  | Some (c :: s) => [c :: s]
  | _ => []
  end.

Definition movesOf (x : rmatch) : list str := pushGroup 1 x ++ pushGroup 2 x.

Record parsed : Type := mkParsed { headers : gmap str str; moves : list str }.

(** [parsePGN(pgn)]; the fuel bounds each of the two [exec] loops. *)
Definition parsePGN (fuel : nat) (pgn : str) : option parsed :=
  match pgn with
  | [] => Some (mkParsed ∅ [])
  | _ :: _ =>
      match execLoop fuel headerRegex 0 pgn with
      | None => None
      | Some tagMatches =>
          let headers := fold_left addHeader tagMatches ∅ in
          let lines := Js.split [ChessFetcher.nl] pgn in
          let movesText :=
            cleanMoves (collectMoves (negb (Nat.eqb (size headers) 0)) false [] lines) in
          match execLoop fuel movePattern 0 movesText with
          | None => None
          | Some moveMatches => Some (mkParsed headers (concat (List.map movesOf moveMatches)))
          end
      end
  end.

(* ----------------------------------------------------------------- *)
(** *** Move statistics *)

Record stats : Type := mkStats {
  totalMoves : nat;
  captures : nat; checks : nat; checkmates : nat; castles : nat;
  pawnMoves : nat; pieceMoves : nat;
  queenMoves : nat; rookMoves : nat; bishopMoves : nat; knightMoves : nat; kingMoves : nat;
  promotions : nat;
  whiteMoves : list str; blackMoves : list str
}.

Inductive piece : Type := Pawn | Knight | Bishop | Rook | Queen | King.

(** [/^[a-h]/] *)
Definition fileRe : re := Seq Bol (Cls (Js.inRange "a" "h")).

(** The [if / else if] chain of the piece identification. *)
Definition pieceOf (move : str) : option piece :=
  if test fileRe move then Some Pawn
  else if Js.startsWith "N" move then Some Knight
  else if Js.startsWith "B" move then Some Bishop
  else if Js.startsWith "R" move then Some Rook
  else if Js.startsWith "Q" move then Some Queen
  else if Js.startsWith "K" move then Some King
  else None.

Definition bump (b : bool) (n : nat) : nat := if b then S n else n.

Definition isPiece (p : piece) (o : option piece) : bool :=
  match o, p with
  | Some Pawn, Pawn | Some Knight, Knight | Some Bishop, Bishop
  | Some Rook, Rook | Some Queen, Queen | Some King, King => true
  | _, _ => false
  end.

(** One round of [for (let i = 0; i < moves.length; i++)]. *)
Definition countMove (i : nat) (move : str) (s : stats) : stats :=
  let white := Nat.eqb (i mod 2) 0 in
  let p := pieceOf move in
  mkStats (totalMoves s)
    (bump (Js.includes "x" move) (captures s))
    (bump (Js.includes "+" move) (checks s))
    (bump (Js.includes "#" move) (checkmates s))
    (bump (Js.includes "O-O" move) (castles s))
    (bump (isPiece Pawn p) (pawnMoves s))
    (pieceMoves s)
    (bump (isPiece Queen p) (queenMoves s))
    (bump (isPiece Rook p) (rookMoves s))
    (bump (isPiece Bishop p) (bishopMoves s))
    (bump (isPiece Knight p) (knightMoves s))
    (bump (isPiece King p) (kingMoves s))
    (bump (Js.includes "=" move) (promotions s))
    (if white then whiteMoves s ++ [move] else whiteMoves s)
    (if white then blackMoves s else blackMoves s ++ [move]).

(** The loop from index [i] on; [rest] is [moves.slice(i)]. *)
Fixpoint countFrom (i : nat) (rest : list str) (s : stats) : stats :=
  match rest with
  | [] => s
  | move :: rest' => countFrom (S i) rest' (countMove i move s)
  end.

Definition sumPieces (s : stats) : stats :=
  mkStats (totalMoves s) (captures s) (checks s) (checkmates s) (castles s)
    (pawnMoves s)
    (knightMoves s + bishopMoves s + rookMoves s + queenMoves s + kingMoves s)
    (queenMoves s) (rookMoves s) (bishopMoves s) (knightMoves s) (kingMoves s)
    (promotions s) (whiteMoves s) (blackMoves s).

Definition analyzeMoves (moves : list str) : stats :=
  sumPieces (countFrom 0 moves (mkStats (length moves) 0 0 0 0 0 0 0 0 0 0 0 0 [] [])).

End GameAnalyzer.

(* ================================================================= *)
(** ** Numbers in strings *)

Module JsNum.

(** Numbers are integers here; the source's doubles hold them exactly up to
    2^53, and the sign of zero is not kept.  [None] is [NaN]. *)

(** The value of a character as a digit of the radix. *)
Definition digitOf (radix : Z) (c : ascii) : option Z :=
  let n := Z.of_N (Js.code c) in
  let v := if Js.isDigit c then Some (n - 48)%Z
           else if Js.isLower c then Some (n - 87)%Z
           else if Js.isUpper c then Some (n - 55)%Z
           else None in
  match v with
  | Some d => if (d <? radix)%Z then Some d else None
  | None => None
  end.

(** The longest run of digits at the start of [s]; [acc] is [None] while no
    digit has been read. *)
Fixpoint digitsVal (radix : Z) (acc : option Z) (s : str) : option Z :=
  match s with
  | [] => acc
  | c :: s' =>
      match digitOf radix c with
      | Some d => digitsVal radix (Some (default 0%Z acc * radix + d)%Z) s'
      | None => acc
      end
  end.

(** [parseInt(s)] without a radix: leading white space, a sign, the prefix
    [0x] or [0X] for radix 16, then the digits; anything after them is
    ignored, and no digit at all gives [NaN]. *)
Definition parseInt (s : str) : option Z :=
  let s1 := Js.trimStart s in
  let signed :=
    match s1 with
    | "-"%char :: t => (true, t)
    | "+"%char :: t => (false, t)
    | _ => (false, s1)
    end in
  let based :=
    match snd signed with
    | "0"%char :: "x"%char :: t => (16%Z, t)
    | "0"%char :: "X"%char :: t => (16%Z, t)
    | _ => (10%Z, snd signed)
    end in
  match digitsVal (fst based) None (snd based) with
  | Some n => Some (if fst signed then (- n)%Z else n)
  | None => None
  end.

(** [parseInt(s) || 0] *)
Definition parseIntOr0 (s : str) : Z := default 0%Z (parseInt s).

(** [String(n)] for an integer. *)
Definition ofZ (n : Z) : str := NilZero.string_of_int (Z.to_int n).


End JsNum.

(* ================================================================= *)
(** ** chess-fetcher.js: game records *)

Module Games.
Import Re.

Record player : Type := mkPlayer {
  username : str;
  result : option str
}.

(** The fields of a game of the API that the functions below read; a field
    is [None] when the object has no such property. *)
Record game : Type := mkGame {
  rules : option str;
  time_class : option str;
  time_control : option str;
  white : option player;
  black : option player
}.

(** [x || d] for a string or a missing property. *)
Definition orElse (d : str) (x : option str) : str :=
  match x with
  | Some (c :: s) => c :: s
  | _ => d
  end.

(** [x === s] for a string or a missing property. *)
Definition isStr (x : option str) (s : str) : bool := bool_decide (x = Some s).

(** [list.includes(x)] *)
Definition oneOfStrings (l : list str) (x : option str) : bool :=
  existsb (isStr x) l.

(** [a < b] on numbers: false when [a] is [NaN]. *)
Definition less (a : option Z) (b : Z) : bool :=
  match a with Some n => (n <? b)%Z | None => false end.

(** [parseInt(match[n])]: an unset group reads as [undefined]. *)
Definition parseGroup (g : option str) : option Z :=
  match g with Some s => JsNum.parseInt s | None => None end.

(** [/(\d+)\+(\d+)/] *)
Definition tcRe : re :=
  Cat [Grp 1 (Plus Js.isDigit); Chr "+"; Grp 2 (Plus Js.isDigit)].

(** [getGameFormat(game)] *)
Definition getGameFormat (g : game) : str :=
  let rules := Js.toLowerCase (orElse "chess" (rules g)) in
  let timeClass := Js.toLowerCase (orElse "" (time_class g)) in
  if ChessFetcher.strEq rules "chess960" then
    if ChessFetcher.strEq timeClass "daily" then "daily960" else "live960"
  else if negb (ChessFetcher.strEq rules "chess") then rules
  else if oneOfStrings ["bullet" : str; "blitz" : str; "rapid" : str; "daily" : str]
                      (Some timeClass)
  then timeClass
  else
    let tc := orElse "" (time_control g) in
    match exec tcRe tc with
    | None => orElse "unknown" (Some timeClass)
    | Some m =>
        let base := parseGroup (group 1 m) in
        let inc := parseGroup (group 2 m) in
        let estimated :=
          match base, inc with
          | Some b, Some i => Some (b + 40 * i)%Z
          | _, _ => None
          end in
        if less estimated 180 then "bullet"
        else if less estimated 600 then "blitz"
        else "rapid"
    end.

Record timeParts : Type := mkTimeControl {
  baseTime : option Z;
  increment : option Z;
  correspondenceTime : option Z
}.

(** [parseTimeControl(timeControl, timeClass)]; both arguments are strings
    or missing. *)
Definition parseTimeControl (timeControl : option str) (timeClass : option str)
  : timeParts :=
  match timeControl with
  | None | Some [] => mkTimeControl None None None
  | Some (c :: s) =>
      let tcStr := Js.trim (c :: s) in
      if isStr timeClass "daily" || Js.includes "/" tcStr then
        let parts := Js.split "/" tcStr in
        if Js.includes "/" tcStr && Nat.eqb (length parts) 2 then
          mkTimeControl (Some 0%Z) (Some 0%Z) (Some (JsNum.parseIntOr0 (nth 1 parts [])))
        else
          let days := JsNum.parseIntOr0 tcStr in
          mkTimeControl (Some 0%Z) (Some 0%Z) (Some (days * 86400)%Z)
      else
        let parts := Js.split "+" tcStr in
        if Js.includes "+" tcStr && Nat.eqb (length parts) 2 then
          mkTimeControl (Some (JsNum.parseIntOr0 (nth 0 parts [])))
                        (Some (JsNum.parseIntOr0 (nth 1 parts []))) None
        else
          match JsNum.parseInt tcStr with
          | Some baseOnly => mkTimeControl (Some baseOnly) (Some 0%Z) None
          | None => mkTimeControl None None None
          end
  end.

(** [isWhite ? game.white.result : game.black.result] and the other way
    round, once both players are there. *)
Definition isWhite (w : player) (name : str) : bool :=
  ChessFetcher.strEq (Js.toLowerCase (username w)) (Js.toLowerCase name).

(** [getGameOutcome(game, username)] *)
Definition getGameOutcome (g : game) (name : str) : str :=
  match white g, black g with
  | Some w, Some b =>
      let myResult := if isWhite w name then result w else result b in
      if isStr myResult "win" then "win"
      else if oneOfStrings ["checkmated" : str; "resigned" : str; "timeout" : str;
                            "abandoned" : str] myResult then "loss"
      else if oneOfStrings ["agreed" : str; "stalemate" : str; "repetition" : str;
                            "insufficient" : str; "timevsinsufficient" : str;
                            "50move" : str] myResult then "draw"
      else "unknown"
  | _, _ => "unknown"
  end.

(** [getGameTermination(game, username)] *)
Definition getGameTermination (g : game) (name : str) : str :=
  match white g, black g with
  | Some w, Some b =>
      let myResult := if isWhite w name then result w else result b in
      let oppResult := if isWhite w name then result b else result w in
      if isStr myResult "win" then orElse "win" oppResult
      else orElse "unknown" myResult
  | _, _ => "unknown"
  end.


(** [/\[ECO\s+Q([^Q]+)Q\]/] and [/\[ECOUrl\s+Q([^Q]+)Q\]/], Q the double quote. *)
Definition tagRe (name : str) : re :=
  Cat [Lit ("[" ++ name); Plus Js.isSpace; Chr GameAnalyzer.quote;
       Grp 1 (Plus GameAnalyzer.notQuote); Chr GameAnalyzer.quote; Chr "]"].

(** [match ? match[1] : ''] *)
Definition tagValue (name : str) (pgn : str) : str :=
  match exec (tagRe name) pgn with
  | Some m => ChessFetcher.orEmpty (group 1 m)
  | None => ""
  end.

(** [extractECOCodeFromPGN(pgn)] and [extractECOFromPGN(pgn)] *)
Definition extractECOCodeFromPGN (pgn : str) : str :=
  match pgn with [] => "" | _ :: _ => tagValue "ECO" pgn end.
Definition extractECOFromPGN (pgn : str) : str :=
  match pgn with [] => "" | _ :: _ => tagValue "ECOUrl" pgn end.

(* ----------------------------------------------------------------- *)
(** *** The ratings ledger ([class RatingsTracker]) *)

(** A rating handed to the tracker: [null], [undefined] or a number. *)
Inductive rating : Type := RNull | RUndefined | RNum (r : Z).

(** What reading [ledger[format]] and [|| null] give: [null], a number, or a
    member inherited from [Object.prototype]. *)
Inductive before : Type := BNull | BNum (r : Z) | BInherited.

Inductive delta : Type := DNull | DNum (d : Z) | DNaN.

(** The names an object literal inherits. *)
Definition inheritedName (k : str) : bool :=
  existsb (ChessFetcher.strEq k) ["constructor" : str; "__defineGetter__" : str; "__defineSetter__" : str;
                "hasOwnProperty" : str; "__lookupGetter__" : str;
                "__lookupSetter__" : str; "isPrototypeOf" : str;
                "propertyIsEnumerable" : str; "toString" : str; "valueOf" : str;
                "__proto__" : str; "toLocaleString" : str].

(** The own properties of [this.ledger]: a number, or [undefined] ([None]). *)
Record tracker : Type := mkTracker {
  ledger : gmap str (option Z);
  loaded : bool
}.

(** [new RatingsTracker()] *)
Definition newTracker : tracker := mkTracker ∅ false.

(** [this.ledger[format] || null] *)
Definition readLedger (l : gmap str (option Z)) (format : str) : before :=
  match l !! format with
  | Some (Some r) => if (r =? 0)%Z then BNull else BNum r
  | Some None => BNull
  | None => if inheritedName format then BInherited else BNull
  end.

(** [ledger[format] = value]: the key [__proto__] creates no property. *)
Definition writeLedger (l : gmap str (option Z)) (format : str) (v : option Z)
  : gmap str (option Z) :=
  if ChessFetcher.strEq format "__proto__" then l else <[format := v]> l.

(** [calculateRating(format, currentRating)]: the pair returned and the
    tracker afterwards. *)
Definition calculateRating (format : str) (currentRating : rating) (t : tracker)
  : (before * delta) * tracker :=
  let ratingBefore := readLedger (ledger t) format in
  let ratingDelta :=
    match ratingBefore, currentRating with
    | BNull, _ => DNull
    | _, RNull => DNull
    | BNum b, RNum c => DNum (c - b)%Z
    | _, _ => DNaN
    end in
  let l :=
    match currentRating with
    | RNull => ledger t
    | RUndefined => writeLedger (ledger t) format None
    | RNum c => writeLedger (ledger t) format (Some c)
    end in
  ((ratingBefore, ratingDelta), mkTracker l (loaded t)).

(** A row of [SELECT format, my_rating ... WHERE my_rating IS NOT NULL]. *)
Record ratingRow : Type := mkRatingRow { row_format : option str; my_rating : Z }.

(** The body of the loop over the rows: [if (row.format && row.my_rating)]. *)
Definition noteRow (l : gmap str (option Z)) (r : ratingRow) : gmap str (option Z) :=
  match row_format r with
  | Some (c :: s) =>
      if (my_rating r =? 0)%Z then l else writeLedger l (c :: s) (Some (my_rating r))
  | _ => l
  end.

(** [loadFromDatabase(db)] when the query delivers [rows]. *)
Definition loadFromDatabase (rows : list ratingRow) (t : tracker) : tracker :=
  if loaded t then t else mkTracker (fold_left noteRow rows ∅) true.

(* ----------------------------------------------------------------- *)
(** *** Opening data of a game *)

Record openingData : Type := mkOpeningData {
  openingName : str; openingSlug : str; openingFamily : str; openingBase : str;
  o_var1 : str; o_var2 : str; o_var3 : str; o_var4 : str; o_var5 : str; o_var6 : str;
  o_extraMoves : str
}.

Definition emptyOpening : openingData :=
  mkOpeningData "" "" "" "" "" "" "" "" "" "" "".

(** One awaited call of [getOpeningDataForGame(ecoUrl)]: the data, the cache
    state afterwards and the accesses made to the store. *)
Definition getOpeningDataForGame (now : Z) (db : ChessFetcher.store)
           (st : ChessFetcher.cacheState) (ecoUrl : str)
  : openingData * ChessFetcher.cacheState * list ChessFetcher.access :=
  match ecoUrl with
  | [] => (emptyOpening, st, [])
  | _ :: _ =>
      let parts := ChessFetcher.splitEcoUrl ecoUrl in
      match ChessFetcher.baseSlug parts with
      | [] => (emptyOpening, st, [])
      | _ :: _ =>
          let '(catalog, st', tr) := ChessFetcher.loadOpeningsDb now db st in
          let extra := ChessFetcher.formatExtraMoves (ChessFetcher.extraMoves parts) in
          match ChessFetcher.lookupOpening catalog (ChessFetcher.baseSlug parts) with
          | None =>
              (mkOpeningData "" (ChessFetcher.baseSlug parts) "" "" "" "" "" "" "" "" extra,
               st', tr)
          | Some opening =>
              (mkOpeningData (ChessFetcher.fullName opening) (ChessFetcher.slug opening)
                             (ChessFetcher.family opening) (ChessFetcher.baseName opening)
                             (ChessFetcher.var1 opening) (ChessFetcher.var2 opening)
                             (ChessFetcher.var3 opening) (ChessFetcher.var4 opening)
                             (ChessFetcher.var5 opening) (ChessFetcher.var6 opening)
                             extra,
               st', tr)
          end
      end
  end.

End Games.

(* ================================================================= *)
(** ** game-analyzer.js: searching *)

Module Analyzer.

(** The [criteria] object of [searchGames]: a property is [None] when it is
    not set; [minRating] is the result of [parseInt]. *)
Record criteria : Type := mkCriteria {
  opening : option str;
  opponent : option str;
  outcome : option str;
  format : option str;
  minRating : option (option Z)
}.

Inductive param : Type := PText (s : str) | PNumber (n : Z).

(** [if (criteria.x)] for a string. *)
Definition given (x : option str) : option str :=
  match x with
  | Some (c :: s) => Some (c :: s)
  | _ => None
  end.

(** [if (criteria.minRating)] for a number: [NaN] and 0 do not count. *)
Definition givenNumber (x : option (option Z)) : option Z :=
  match x with
  | Some (Some n) => if (n =? 0)%Z then None else Some n
  | _ => None
  end.

Definition selectFrom : str :=
  "SELECT game_id, end_date, format, color, outcome, my_rating, opp_rating, opponent, opening_name FROM games WHERE 1=1".

(** One [if (criteria.x) { query += ...; params.push(...) }]. *)
Definition clause (cond : str) (p : option param) (acc : str * list param)
  : str * list param :=
  match p with
  | Some v => (fst acc ++ cond, snd acc ++ [v])
  | None => acc
  end.

(** The query text and the parameters [searchGames(criteria)] hands to
    [db.all]. *)
Definition searchQuery (c : criteria) : str * list param :=
  let q0 := (selectFrom, []) in
  let q1 := clause " AND opening_name LIKE ?"
                   (option_map (fun s => PText ("%" ++ s ++ "%")) (given (opening c))) q0 in
  let q2 := clause " AND opponent LIKE ?"
                   (option_map (fun s => PText ("%" ++ s ++ "%")) (given (opponent c))) q1 in
  let q3 := clause " AND outcome = ?" (option_map PText (given (outcome c))) q2 in
  let q4 := clause " AND format = ?" (option_map PText (given (format c))) q3 in
  let q5 := clause " AND my_rating >= ?" (option_map PNumber (givenNumber (minRating c))) q4 in
  (fst q5 ++ " ORDER BY end_timestamp DESC LIMIT 50", snd q5).

End Analyzer.

(** ** game-analyzer.js: streaks *)

Module Streaks.

(** A row of the streaks query of [findStreaks]. *)
Record gameRow : Type := mkGameRow {
  game_id : str;
  end_date : str;
  format : option str;
  color : option str;
  outcome : option str;
  my_rating : option Z;
  opponent : option str;
  opp_rating : option Z
}.

(** [currentType]: [null], ['win'] or ['loss']. *)
Inductive streakType : Type := NoStreak | WinStreak | LossStreak.

Definition isWin (t : streakType) : bool := match t with WinStreak => true | _ => false end.
Definition isLoss (t : streakType) : bool := match t with LossStreak => true | _ => false end.

(** The variables of the callback of [findStreaks]. *)
Record streaks : Type := mkStreaks {
  currentStreak : list gameRow;
  longestWinStreak : list gameRow;
  longestLossStreak : list gameRow;
  currentType : streakType
}.

(** [a.length > b.length] *)
Definition longer (a b : list gameRow) : bool := length b <? length a.

(** The body of [rows.forEach(game => ...)]. *)
Definition streakStep (s : streaks) (game : gameRow) : streaks :=
  if Games.isStr (outcome game) "win" then
    if isWin (currentType s) then
      mkStreaks (currentStreak s ++ [game]) (longestWinStreak s) (longestLossStreak s)
                (currentType s)
    else
      mkStreaks [game] (longestWinStreak s)
                (if isLoss (currentType s) && longer (currentStreak s) (longestLossStreak s)
                 then currentStreak s else longestLossStreak s)
                WinStreak
  else if Games.isStr (outcome game) "loss" then
    if isLoss (currentType s) then
      mkStreaks (currentStreak s ++ [game]) (longestWinStreak s) (longestLossStreak s)
                (currentType s)
    else
      mkStreaks [game]
                (if isWin (currentType s) && longer (currentStreak s) (longestWinStreak s)
                 then currentStreak s else longestWinStreak s)
                (longestLossStreak s)
                LossStreak
  else
    if isWin (currentType s) && longer (currentStreak s) (longestWinStreak s) then
      mkStreaks [] (currentStreak s) (longestLossStreak s) NoStreak
    else if isLoss (currentType s) && longer (currentStreak s) (longestLossStreak s) then
      mkStreaks [] (longestWinStreak s) (currentStreak s) NoStreak
    else
      mkStreaks [] (longestWinStreak s) (longestLossStreak s) NoStreak.

(** The check of the final streak after the loop. *)
Definition closeStreak (s : streaks) : streaks :=
  if isWin (currentType s) && longer (currentStreak s) (longestWinStreak s) then
    mkStreaks (currentStreak s) (currentStreak s) (longestLossStreak s) (currentType s)
  else if isLoss (currentType s) && longer (currentStreak s) (longestLossStreak s) then
    mkStreaks (currentStreak s) (longestWinStreak s) (currentStreak s) (currentType s)
  else s.

(** The callback of [db.all] in [findStreaks] on the rows of the query (in
    the order of their end times); the result is the object the promise is
    resolved with, [{ longestWinStreak, longestLossStreak }]. *)
Definition findStreaks (rows : list gameRow) : list gameRow * list gameRow :=
  let s := closeStreak (fold_left streakStep rows (mkStreaks [] [] [] NoStreak)) in
  (longestWinStreak s, longestLossStreak s).

End Streaks.

(* ================================================================= *)
(** * Specification vocabulary

    The notions the properties below are stated with. *)

Module Spec.
Import Re GameAnalyzer.

(** ** Matches of an expression *)

Definition within (hi : option nat) (n : nat) : Prop :=
  match hi with Some h => n <= h | None => True end.

(** [matches r i w rest cs cs']: expression [r] can consume exactly [w] at
    index [i] when the input continues with [rest]; the groups recorded so
    far are [cs] before and [cs'] after. *)
Inductive matches : re -> nat -> str -> str -> caps -> caps -> Prop :=
| M_Eps i rest cs : matches Eps i [] rest cs cs
| M_Chr c i rest cs : matches (Chr c) i [c] rest cs cs
| M_Cls (p : ascii -> bool) c i rest cs : p c = true -> matches (Cls p) i [c] rest cs cs
| M_Lit s i rest cs : matches (Lit s) i s rest cs cs
| M_Seq r1 r2 i w1 w2 rest cs cs1 cs2 :
    matches r1 i w1 (w2 ++ rest) cs cs1 -> matches r2 (i + length w1) w2 rest cs1 cs2 ->
    matches (Seq r1 r2) i (w1 ++ w2) rest cs cs2
| M_AltL r1 r2 i w rest cs cs' :
    matches r1 i w rest cs cs' -> matches (Alt r1 r2) i w rest cs cs'
| M_AltR r1 r2 i w rest cs cs' :
    matches r2 i w rest cs cs' -> matches (Alt r1 r2) i w rest cs cs'
| M_OptNone r i rest cs : matches (Opt r) i [] rest cs cs
| M_OptSome r i w rest cs cs' :
    matches r i w rest cs cs' -> matches (Opt r) i w rest cs cs'
| M_Rep lo hi (p : ascii -> bool) i w rest cs :
    forallb p w = true -> lo <= length w -> within hi (length w) ->
    matches (Rep lo hi p) i w rest cs cs
| M_Grp n r i w rest cs cs' :
    matches r i w rest cs cs' -> matches (Grp n r) i w rest cs ((n, w) :: cs')
| M_Bol rest cs : matches Bol 0 [] rest cs cs
| M_Eol i cs : matches Eol i [] [] cs cs.

Fixpoint nullable (r : re) : bool :=
  match r with
  | Eps | Opt _ | Bol | Eol => true
  | Chr _ | Cls _ => false
  | Lit s => match s with [] => true | _ :: _ => false end
  | Seq r1 r2 => nullable r1 && nullable r2
  | Alt r1 r2 => nullable r1 || nullable r2
  | Rep lo _ _ => Nat.eqb lo 0
  | Grp _ r1 => nullable r1
  end.

(** The characters an expression can consume. *)
Fixpoint allowed (r : re) (c : ascii) : bool :=
  match r with
  | Eps | Bol | Eol => false
  | Chr x => Ascii.eqb c x
  | Cls p | Rep _ _ p => p c
  | Lit s => Js.oneOf s c
  | Seq r1 r2 | Alt r1 r2 => allowed r1 c || allowed r2 c
  | Opt r1 | Grp _ r1 => allowed r1 c
  end.

(** ** Occurrences of a substring *)

(** [p] occurs in [s], with [a] before it and [b] after it. *)
Definition occurs (p s a b : str) : Prop := s = a ++ p ++ b.

Definition contains (p s : str) : Prop := exists a b, occurs p s a b.

(** The occurrence after [a] is the first one. *)
Definition firstOccurrence (p s a b : str) : Prop :=
  occurs p s a b /\ forall a' b', occurs p s a' b' -> length a <= length a'.

(** ** Moves by side and by kind *)

(** The moves at even positions, and those at odd positions. *)
Fixpoint evens (l : list str) : list str :=
  match l with
  | [] => []
  | x :: t => x :: match t with [] => [] | _ :: t' => evens t' end
  end.

Definition odds (l : list str) : list str :=
  match l with [] => [] | _ :: t => evens t end.

Definition side (white : bool) (i : nat) (l : list str) : list str :=
  if Bool.eqb (Nat.even i) white then evens l else odds l.

Definition count (f : str -> bool) (ms : list str) : nat := length (List.filter f ms).

Definition movedAs (p : piece) (m : str) : bool := isPiece p (pieceOf m).

(** ** The opening catalog *)

Definition sampleEntry : ChessFetcher.entry :=
  ChessFetcher.mkEntry "Italian Game" "italian-game" "Italian Game" "Italian Game"
                       "" "" "" "" "" "".


(** How often a call asks whether the database file exists, and how often
    it reads the rows. *)
Definition probes (tr : list ChessFetcher.access) : nat :=
  length (List.filter (fun a => match a with ChessFetcher.ExistsSync => true | _ => false end) tr).
Definition reads (tr : list ChessFetcher.access) : nat :=
  length (List.filter (fun a => match a with ChessFetcher.SelectAll => true | _ => false end) tr).


(** ** Opening URLs *)

(** A character that is no digit, no dot and no slash. *)
Definition plainChar (c : ascii) : bool :=
  negb (Js.isDigit c) && negb (ChessFetcher.isDot c) && negb (Ascii.eqb c "/").

(** ** PGN text *)

(** There is no move section set off by a blank line: no line that is not
    blank comes after a blank line. *)
Definition noMoveSection (pgn : str) : Prop :=
  exists hs bs, Js.split [ChessFetcher.nl] pgn = hs ++ bs
                /\ Forall (fun l => Js.trim l <> []) hs
                /\ Forall (fun l => Js.trim l = []) bs.

(** The text holds a bracketed tag pair: an opening bracket, a name of word
    characters, white space, and a value without double quote between double
    quotes, closed by a bracket. *)
Definition hasTagPair (pgn : str) : Prop :=
  exists pre name ws value post,
    pgn = pre ++ "[" ++ name ++ ws ++ [quote] ++ value ++ [quote] ++ "]" ++ post
    /\ name <> [] /\ forallb Js.isWord name = true
    /\ ws <> [] /\ forallb Js.isSpace ws = true
    /\ value <> [] /\ forallb notQuote value = true.

(** A header line of the export format. *)
Definition tagLine (t : str * str) : str :=
  "[" ++ fst t ++ " " ++ [quote] ++ snd t ++ [quote] ++ "]".

(** A tag name is a PGN symbol: word characters, the first one a letter or a
    digit. *)
Definition symbol (n : str) : bool :=
  match n with
  | c :: _ => Js.isAlnum c && forallb Js.isWord n
  | [] => false
  end.

(** A tag value: not empty, no double quote. *)
Definition stringValue (v : str) : bool :=
  ChessFetcher.nonEmpty v && forallb notQuote v.

(** Text in which no tag pair begins: an opening bracket is never followed
    by a word character (move text with [[%clk ...]] comments is such). *)
Fixpoint tagFree (g : str) : bool :=
  match g with
  | [] => true
  | c :: t =>
      match t with
      | d :: _ => negb (Ascii.eqb c "[" && Js.isWord d) && tagFree t
      | [] => true
      end
  end.

(** Header lines, each after its gap (a line end, say), then the rest of
    the text. *)
Fixpoint pgnText (items : list (str * (str * str))) (rest : str) : str :=
  match items with
  | [] => rest
  | (gap, t) :: items' => gap ++ tagLine t ++ pgnText items' rest
  end.

Definition wellFormedItem (it : str * (str * str)) : Prop :=
  tagFree (fst it) = true /\ symbol (fst (snd it)) = true /\ stringValue (snd (snd it)) = true.

Definition wellFormed (items : list (str * (str * str))) (rest : str) : Prop :=
  Forall wellFormedItem items /\ tagFree rest = true.

(** The text the move loop of [parsePGN] runs on, given the tag matches. *)
Definition movesTextOf (pgn : str) (tagMatches : list rmatch) : str :=
  cleanMoves
    (collectMoves (negb (Nat.eqb (size (fold_left addHeader tagMatches ∅)) 0)) false []
                  (Js.split [ChessFetcher.nl] pgn)).

(** The characters an expression can begin with. *)
Fixpoint first (r : re) (c : ascii) : bool :=
  match r with
  | Eps | Bol | Eol => false
  | Chr x => Ascii.eqb c x
  | Cls p | Rep _ _ p => p c
  | Lit s => match s with x :: _ => Ascii.eqb c x | [] => false end
  | Seq r1 r2 => first r1 c || (nullable r1 && first r2 c)
  | Alt r1 r2 => first r1 c || first r2 c
  | Opt r1 | Grp _ r1 => first r1 c
  end.

(** The text does not begin with a word character. *)
Definition startsPlain (rest : str) : Prop :=
  match rest with [] => True | d :: _ => Js.isWord d = false end.

(** The tags of the header lines, in the order of the text, and their names. *)
Definition tagsOf (items : list (str * (str * str))) : list (str * str) := List.map snd items.

(** The mapping that holds, for every name, the value of its last tag. *)
Definition lastWins (tags : list (str * str)) : gmap str str :=
  fold_left (fun h t => <[fst t := snd t]> h) tags ∅.

(** ** Moves with clocks *)

(** The expression has no capturing group. *)
Fixpoint groupless (r : re) : bool :=
  match r with
  | Grp _ _ => false
  | Seq r1 r2 | Alt r1 r2 => groupless r1 && groupless r2
  | Opt r1 => groupless r1
  | _ => true
  end.

(** The notation has the restricted shape
    [[NBRQK]?[a-h]?[1-8]?x?[a-h][1-8](=[NBRQK])?] or is a castling. *)
Definition sanShaped (mv : str) : Prop :=
  exists i rest cs cs', matches ChessFetcher.sanRe i mv rest cs cs'.

End Spec.

(* ================================================================= *)
(** * Further vocabulary

    The notions used by the properties of the functions beyond the first
    ten statements. *)

Module Notions.
Import Re.

(** ** Expressions and runs of characters *)

(** The expression without its capturing groups. *)
Fixpoint erase (r : re) : re :=
  match r with
  | Grp _ r1 => erase r1
  | Seq r1 r2 => Seq (erase r1) (erase r2)
  | Alt r1 r2 => Alt (erase r1) (erase r2)
  | Opt r1 => Opt (erase r1)
  | _ => r
  end.

(** The characters of the class a text begins with, and what follows. *)
Fixpoint skipRun (p : ascii -> bool) (s : str) : str * str :=
  match s with
  | c :: s' => if p c then (c :: fst (skipRun p s'), snd (skipRun p s')) else ([], s)
  | [] => ([], [])
  end.

(** A run of digits, at least one. *)
Definition number (ds : str) : Prop := ds <> [] /\ forallb Js.isDigit ds = true.

(** What may follow a number in a text: nothing, or a character that is
    neither a letter nor a digit. *)
Definition endsNumber (rest : str) : Prop :=
  match rest with [] => True | c :: _ => Js.isAlnum c = false end.

(** The digits of a decimal numeral, most significant first. *)
Definition digitsOf (d : Decimal.uint) : str := NilEmpty.string_of_uint d.

(** ** Extra moves *)

(** The pieces of an extra-moves fragment: the text without the white space
    around it and the hyphens and dots it begins with, cut at the hyphens,
    the empty pieces left out. *)
Definition tokensOf (s : str) : list str :=
  List.filter ChessFetcher.nonEmpty
              (Js.split "-" (snd (skipRun (Js.oneOf "-.") (Js.trim s)))).

(** A move number: digits followed by at most three dots and nothing else.
    The result is the digits and the number of dots. *)
Definition moveNumber (t : str) : option (str * nat) :=
  let ds := fst (skipRun Js.isDigit t) in
  let dots := snd (skipRun Js.isDigit t) in
  if ChessFetcher.nonEmpty ds && forallb ChessFetcher.isDot dots && (length dots <=? 3)
  then Some (ds, length dots) else None.

(** A move number is written with three dots when it has three, with one
    dot otherwise; any other token stays as it is. *)
Definition rewriteToken (t : str) : str :=
  match moveNumber t with
  | Some (ds, 3) => ds ++ "..."
  | Some (ds, _) => ds ++ "."
  | None => t
  end.

(** ** Slugs and the catalog *)

(** The piece of a URL after its first [/openings/]. *)
Definition slugOf (ecoUrl : str) : str := nth 1 (Js.split "/openings/" ecoUrl) [].

(** The text begins with a move sequence: a hyphen, a number, at most three
    dots and a letter ([-3...N], [-4.g]); or three dots, a number and a dot
    ([...8.]); or three dots and a letter. *)
Definition moveStart (s : str) : Prop :=
  (exists ds dots c tl, s = "-" ++ ds ++ dots ++ c :: tl /\ number ds
                        /\ forallb ChessFetcher.isDot dots = true /\ length dots <= 3
                        /\ Js.isAlpha c = true)
  \/ (exists ds tl, s = "..." ++ ds ++ "." ++ tl /\ number ds)
  \/ (exists c tl, s = "..." ++ c :: tl /\ Js.isAlpha c = true).

(** The key a row of the openings table is stored under, and the entry it
    is stored as. *)
Definition keyOf (r : ChessFetcher.row) : str :=
  Js.toLowerCase (Js.trim (ChessFetcher.orEmpty (ChessFetcher.trim_slug r))).

Definition entryOf (r : ChessFetcher.row) : ChessFetcher.entry :=
  ChessFetcher.mkEntry
    (ChessFetcher.orEmpty (ChessFetcher.full_name r)) (keyOf r)
    (ChessFetcher.orEmpty (ChessFetcher.row_family r))
    (ChessFetcher.orEmpty (ChessFetcher.base_name r))
    (ChessFetcher.orEmpty (ChessFetcher.variation_1 r))
    (ChessFetcher.orEmpty (ChessFetcher.variation_2 r))
    (ChessFetcher.orEmpty (ChessFetcher.variation_3 r))
    (ChessFetcher.orEmpty (ChessFetcher.variation_4 r))
    (ChessFetcher.orEmpty (ChessFetcher.variation_5 r))
    (ChessFetcher.orEmpty (ChessFetcher.variation_6 r)).

(** The last row of the table that is stored under the key. *)
Definition lastRow (k : str) (rows : list ChessFetcher.row) : option ChessFetcher.row :=
  last (List.filter (fun r => ChessFetcher.strEq (keyOf r) k) rows).

(** Every entry of the catalog carries its key; and so does the cached
    catalog, if there is one. *)
Definition keyed (c : gmap str ChessFetcher.entry) : Prop :=
  forall k e, c !! k = Some e -> ChessFetcher.slug e = k.

Definition cacheKeyed (st : ChessFetcher.cacheState) : Prop :=
  forall c, ChessFetcher.openingsCache st = Some c -> keyed c.

(** ** Games and ratings *)

(** The rules are those of standard chess. *)
Definition standardRules (g : Games.game) : Prop :=
  Js.toLowerCase (Games.orElse "chess" (Games.rules g)) = "chess".

(** The time class is one of the four the site documents. *)
Definition classKnown (g : Games.game) : Prop :=
  In (Js.toLowerCase (Games.orElse "" (Games.time_class g)))
     ["bullet" : str; "blitz" : str; "rapid" : str; "daily" : str].

(** The tracker after the games [gs], oldest first; each game hands its
    format and the rating of the player to [calculateRating]. *)
Definition afterGames (gs : list (str * Games.rating)) (t : Games.tracker) : Games.tracker :=
  fold_left (fun t g => snd (Games.calculateRating (fst g) (snd g) t)) gs t.

(** The game is of the format and has a rating, be it [undefined]. *)
Definition recorded (f : str) (g : str * Games.rating) : bool :=
  ChessFetcher.strEq (fst g) f && match snd g with Games.RNull => false | _ => true end.

(** The rating of the last game of the format that had one. *)
Definition lastRating (f : str) (gs : list (str * Games.rating)) : option Games.rating :=
  option_map snd (last (List.filter (recorded f) gs)).

(** The row gives a rating to the format: a format that is set and is the
    given one, and a rating other than 0. *)
Definition rated (f : str) (r : Games.ratingRow) : bool :=
  bool_decide (Games.row_format r = Some f) && ChessFetcher.nonEmpty f
  && negb (Games.my_rating r =? 0)%Z.

Definition lastRated (f : str) (rows : list Games.ratingRow) : option Games.ratingRow :=
  last (List.filter (rated f) rows).

(** ** Tag pairs and clock annotations *)

(** The text begins with a tag pair of the name: the bracket and the name,
    white space, and a value that is not empty and holds no double quote
    between double quotes, closed by a bracket. *)
Definition tagAt (name value s : str) : Prop :=
  exists ws post,
    s = ("[" ++ name) ++ ws ++ [GameAnalyzer.quote] ++ value ++ [GameAnalyzer.quote]
          ++ "]" ++ post
    /\ ws <> [] /\ forallb Js.isSpace ws = true
    /\ value <> [] /\ forallb GameAnalyzer.notQuote value = true.

(** The first tag pair of the name in the text has the value. *)
Definition firstTag (name value pgn : str) : Prop :=
  exists pre s,
    pgn = pre ++ s /\ tagAt name value s
    /\ forall pre' s' v', pgn = pre' ++ s' -> tagAt name v' s' -> length pre <= length pre'.

(** The text holds no tag pair of the name. *)
Definition noTag (name pgn : str) : Prop :=
  forall pre s v, pgn = pre ++ s -> ~ tagAt name v s.



(** ** Statistics and queries *)

(** The move begins with none of the letters the statistics know. *)
Definition unclassified (m : str) : bool :=
  match GameAnalyzer.pieceOf m with None => true | Some _ => false end.

(** The number of [?] in a query text. *)
Definition placeholders (q : str) : nat := length (List.filter (Ascii.eqb "?") q).

(** Which criteria of a search are set. *)
Definition asked (c : Analyzer.criteria) : list bool :=
  [ChessFetcher.nonEmpty (ChessFetcher.orEmpty (Analyzer.opening c));
   ChessFetcher.nonEmpty (ChessFetcher.orEmpty (Analyzer.opponent c));
   ChessFetcher.nonEmpty (ChessFetcher.orEmpty (Analyzer.outcome c));
   ChessFetcher.nonEmpty (ChessFetcher.orEmpty (Analyzer.format c));
   match Analyzer.minRating c with Some (Some n) => negb (n =? 0)%Z | _ => false end].

(** ** The text of a game *)
(** One numbered move of the move text: the number, White's move and, if
    it was played, Black's. *)
Record fullMove : Type := mkFullMove {
  moveNo : str;
  whiteMove : str;
  blackMove : option str
}.

(** A move as the analyzer reads it: characters of the notation, at least
    one. *)
Definition sanToken (t : str) : Prop := t <> [] /\ forallb GameAnalyzer.sanChar t = true.

Definition wellNumbered (m : fullMove) : Prop :=
  number (moveNo m) /\ sanToken (whiteMove m)
  /\ match blackMove m with Some b => sanToken b | None => True end.

(** Every move is well written, and only the last one may lack Black's
    move. *)
Fixpoint moveList (ms : list fullMove) : Prop :=
  match ms with
  | [] => True
  | m :: rest =>
      wellNumbered m
      /\ match rest with [] => True | _ :: _ => blackMove m <> None end
      /\ moveList rest
  end.

(** The words of the move text: for every move its number with a dot,
    White's move and Black's. *)
Definition wordsOf (m : fullMove) : list str :=
  (moveNo m ++ ".") :: whiteMove m :: match blackMove m with Some b => [b] | None => [] end.

Definition moveText (ms : list fullMove) : str :=
  Js.join " " (concat (List.map wordsOf ms)).

(** The moves in the order they were played. *)
Definition movesIn (ms : list fullMove) : list str :=
  concat (List.map (fun m => whiteMove m :: match blackMove m with
                                            | Some b => [b]
                                            | None => []
                                            end) ms).

(** A tag pair that fits on a header line: a name that is a symbol and a
    value that is not empty and holds neither a double quote nor a line
    feed. *)
Definition headerTag (t : str * str) : Prop :=
  Spec.symbol (fst t) = true /\ Spec.stringValue (snd t) = true
  /\ ~ In ChessFetcher.nl (snd t).

(** The text of a game: the header lines, an empty line, the move text. *)
Definition gameText (tags : list (str * str)) (ms : list fullMove) : str :=
  Js.join [ChessFetcher.nl] (List.map Spec.tagLine tags ++ [[]; moveText ms]).

(** A character of the move text that is not the space between words, and
    a word of such characters. *)
Definition wordChar (c : ascii) : bool :=
  Js.isDigit c || ChessFetcher.isDot c || GameAnalyzer.sanChar c.

Definition word (t : str) : Prop :=
  (exists n, number n /\ t = n ++ ".") \/ sanToken t.

(** What follows a move: nothing, or the space before the next word. *)
Definition gap (tl : str) : Prop := tl = [] \/ exists u, tl = " "%char :: u.

(** ** Streaks *)

(** Games in a row with the same outcome, somewhere in the list. *)
Definition streakIn (kind : str) (rows block : list Streaks.gameRow) : Prop :=
  (exists before after, rows = before ++ block ++ after)
  /\ Forall (fun g => Streaks.outcome g = Some kind) block.

(** The state of the loop after the rows [done]: what a streak of the kind
    can be as long as, the streak the list ends with included. *)
Definition running (kind : str) (done : list Streaks.gameRow)
           (longest : list Streaks.gameRow) (current : nat) : Prop :=
  streakIn kind done longest
  /\ (forall block, streakIn kind done block -> length block <= Nat.max (length longest) current)
  /\ (forall before block, done = before ++ block ->
        Forall (fun g => Streaks.outcome g = Some kind) block -> length block <= current).

(** The list ends with the block. *)
Definition streakEnd (kind : str) (done block : list Streaks.gameRow) : Prop :=
  (exists before, done = before ++ block)
  /\ Forall (fun g => Streaks.outcome g = Some kind) block.

(** What the variables of [findStreaks] hold after the rows [done]. *)
Definition tracked (done : list Streaks.gameRow) (s : Streaks.streaks) : Prop :=
  running "win" done (Streaks.longestWinStreak s)
          (if Streaks.isWin (Streaks.currentType s)
           then length (Streaks.currentStreak s) else 0)
  /\ running "loss" done (Streaks.longestLossStreak s)
             (if Streaks.isLoss (Streaks.currentType s)
              then length (Streaks.currentStreak s) else 0)
  /\ match Streaks.currentType s with
     | Streaks.NoStreak => True
     | Streaks.WinStreak => streakEnd "win" done (Streaks.currentStreak s)
     | Streaks.LossStreak => streakEnd "loss" done (Streaks.currentStreak s)
     end.

End Notions.

(* ================================================================= *)
(** * Properties *)

(** ** Proof steps *)

(** Take a match of a concatenation apart, item by item. *)
Ltac open_match :=
  repeat match goal with
         | H : Spec.matches (Re.Seq _ _) _ _ _ _ _ |- _ => inversion H; subst; clear H
         | H : Spec.matches (Re.Lit _) _ _ _ _ _ |- _ => inversion H; subst; clear H
         | H : Spec.matches (Re.Chr _) _ _ _ _ _ |- _ => inversion H; subst; clear H
         | H : Spec.matches (Re.Cls _) _ _ _ _ _ |- _ => inversion H; subst; clear H
         | H : Spec.matches (Re.Grp _ _) _ _ _ _ _ |- _ => inversion H; subst; clear H
         | H : Spec.matches (Re.Rep _ _ _) _ _ _ _ _ |- _ => inversion H; subst; clear H
         | H : Spec.matches Re.Eps _ _ _ _ _ |- _ => inversion H; subst; clear H
         end.

(** Take a match of an alternative or of an optional item apart. *)
Ltac split_match :=
  match goal with
  | H : Spec.matches (Re.Alt _ _) _ _ _ _ _ |- _ => inversion H; subst; clear H
  | H : Spec.matches (Re.Opt _) _ _ _ _ _ |- _ => inversion H; subst; clear H
  end.

(** ** What a match of an expression looks like *)

Module ReFacts.
Import Re Spec.


Lemma stripPrefix_app p s t : Js.stripPrefix p s = Some t -> s = p ++ t.
Proof.
  revert s; induction p as [|x p IH]; intros [|c s] H; simpl in *; try congruence.
  destruct (Ascii.eqb c x) eqn:E; [|discriminate].
  apply Ascii.eqb_eq in E; subst. f_equal. now apply IH.
Qed.

Lemma stripPrefix_here p t : Js.stripPrefix p (p ++ t) = Some t.
Proof. induction p as [|x p IH]; simpl; [reflexivity|]. now rewrite Ascii.eqb_refl. Qed.

Lemma firstn_exact {X} (w rest : list X) i : firstn (i + length w - i) (w ++ rest) = w.
Proof.
  replace (i + length w - i) with (length w + 0) by lia.
  now rewrite firstn_app_2, firstn_O, app_nil_r.
Qed.

Lemma firstn_exact_at {X} (w rest : list X) i j :
  j = i + length w -> firstn (j - i) (w ++ rest) = w.
Proof. intros ->. apply firstn_exact. Qed.

Lemma rep_sound {A} (p : ascii -> bool) (k : nat -> str -> option A) inp :
  forall lo hi i x,
    rep p lo hi k i inp = Some x ->
    exists w inp', inp = w ++ inp' /\ forallb p w = true /\ lo <= length w
                   /\ within hi (length w) /\ k (i + length w) inp' = Some x.
Proof.
  induction inp as [|c inp IH]; intros lo hi i x H; simpl in H.
  - destruct lo; simpl in H; [|discriminate].
    exists [], []. rewrite Nat.add_0_r. repeat split; auto.
    destruct hi; simpl; lia.
  - assert (Hstop : (if Nat.eqb lo 0 then k i (c :: inp) else None) = Some x ->
              exists w inp', c :: inp = w ++ inp' /\ forallb p w = true /\ lo <= length w
                   /\ within hi (length w) /\ k (i + length w) inp' = Some x).
    { intros Hs. destruct lo; simpl in Hs; [|discriminate].
      exists [], (c :: inp). rewrite Nat.add_0_r. repeat split; auto.
      destruct hi; simpl; lia. }
    destruct (p c && more hi) eqn:E; [|now apply Hstop].
    apply andb_true_iff in E as [Hp Hm].
    destruct (rep p (pred lo) (decr hi) k (S i) inp) eqn:R; [|now apply Hstop].
    inversion H; subst a.
    apply IH in R as (w & inp' & -> & Hw & Hlo & Hhi & Hk).
    exists (c :: w), inp'. simpl. rewrite Hp, Hw.
    replace (i + S (length w)) with (S i + length w) by lia.
    repeat split; auto; [lia|].
    destruct hi as [[|h]|]; simpl in *; try discriminate; auto; lia.
Qed.

Theorem run_sound {A} (r : re) :
  forall (k : nat -> str -> caps -> option A) i inp cs x,
    run r k i inp cs = Some x ->
    exists w inp' cs', inp = w ++ inp' /\ matches r i w inp' cs cs'
                       /\ k (i + length w) inp' cs' = Some x.
Proof.
  induction r as [|c|p|s|r1 IH1 r2 IH2|r1 IH1 r2 IH2|r1 IH1|lo hi p|n r1 IH1| |];
    intros k i inp cs x H; simpl in H.
  - exists [], inp, cs. rewrite Nat.add_0_r. split; [reflexivity|]. split; [constructor|auto].
  - destruct inp as [|a inp]; [discriminate|].
    destruct (Ascii.eqb a c) eqn:E; [|discriminate].
    apply Ascii.eqb_eq in E; subst a.
    exists [c], inp, cs. simpl. rewrite Nat.add_1_r. split; [reflexivity|]. split; [constructor|auto].
  - destruct inp as [|a inp]; [discriminate|].
    destruct (p a) eqn:E; [|discriminate].
    exists [a], inp, cs. simpl. rewrite Nat.add_1_r. split; [reflexivity|]. split; [now constructor|auto].
  - destruct (Js.stripPrefix s inp) as [inp'|] eqn:E; [|discriminate].
    apply stripPrefix_app in E. exists s, inp', cs. split; [auto|]. split; [constructor|auto].
  - apply IH1 in H as (w1 & inp1 & cs1 & -> & M1 & H).
    apply IH2 in H as (w2 & inp2 & cs2 & -> & M2 & H).
    exists (w1 ++ w2), inp2, cs2. rewrite <- app_assoc, length_app, Nat.add_assoc.
    split; [reflexivity|]. split; [econstructor; eauto|auto].
  - destruct (run r1 k i inp cs) eqn:E.
    + inversion H; subst a. apply IH1 in E as (w & inp' & cs' & -> & M & Hk).
      exists w, inp', cs'. split; [reflexivity|]. split; [now apply M_AltL|auto].
    + apply IH2 in H as (w & inp' & cs' & -> & M & Hk).
      exists w, inp', cs'. split; [reflexivity|]. split; [now apply M_AltR|auto].
  - destruct (run r1 k i inp cs) eqn:E.
    + inversion H; subst a. apply IH1 in E as (w & inp' & cs' & -> & M & Hk).
      exists w, inp', cs'. split; [reflexivity|]. split; [now apply M_OptSome|auto].
    + exists [], inp, cs. rewrite Nat.add_0_r. split; [reflexivity|]. split; [constructor|auto].
  - apply rep_sound in H as (w & inp' & -> & Hw & Hlo & Hhi & Hk).
    exists w, inp', cs. split; [reflexivity|]. split; [now constructor|auto].
  - apply IH1 in H as (w & inp' & cs' & -> & M & Hk).
    rewrite firstn_exact in Hk.
    eexists w, inp', _. split; [reflexivity|]. split; [constructor; exact M|exact Hk].
  - destruct (Nat.eqb i 0) eqn:E; [|discriminate]. apply Nat.eqb_eq in E; subst i.
    exists [], inp, cs. split; [reflexivity|]. split; [constructor|auto].
  - destruct inp; [|discriminate].
    exists [], [], cs. rewrite Nat.add_0_r. split; [reflexivity|]. split; [constructor|auto].
Qed.

Lemma execAt_sound r i inp x :
  execAt r i inp = Some x ->
  exists w, inp = w ++ m_rest x /\ matches r i w (m_rest x) [] (m_caps x)
            /\ m_index x = i /\ m_end x = i + length w /\ m_text x = w.
Proof.
  unfold execAt. intros H.
  apply run_sound in H as (w & inp' & cs' & -> & M & H).
  inversion H; subst x; simpl. exists w. rewrite firstn_exact. auto.
Qed.

Lemma search_sound r inp :
  forall i x,
    search r i inp = Some x ->
    exists pre w, inp = pre ++ w ++ m_rest x
                /\ matches r (i + length pre) w (m_rest x) [] (m_caps x)
                  /\ m_index x = i + length pre /\ m_end x = m_index x + length w
                  /\ m_text x = w.
Proof.
  induction inp as [|c inp IH]; intros i x H; simpl in H.
  - destruct (execAt r i []) eqn:E; [|discriminate]. inversion H; subst r0.
    apply execAt_sound in E as (w & Hw & M & Hi & He & Ht).
    exists [], w. simpl. rewrite Nat.add_0_r. repeat split; auto; lia.
  - destruct (execAt r i (c :: inp)) eqn:E.
    + inversion H; subst r0.
      apply execAt_sound in E as (w & Hw & M & Hi & He & Ht).
      exists [], w. simpl. rewrite Nat.add_0_r. repeat split; auto; lia.
    + apply IH in H as (pre & w & -> & M & Hi & He & Ht).
      exists (c :: pre), w. simpl.
      replace (i + S (length pre)) with (S i + length pre) by lia. auto.
Qed.

Lemma matches_nonempty r i w rest cs cs' :
  matches r i w rest cs cs' -> nullable r = false -> w <> [].
Proof.
  induction 1; simpl; intros N; try discriminate.
  - destruct s; [discriminate|]. discriminate.
  - apply andb_false_iff in N as [N|N].
    + specialize (IHmatches1 N). destruct w1; [congruence|discriminate].
    + specialize (IHmatches2 N). destruct w2; [congruence|]. now destruct w1.
  - apply orb_false_iff in N as [N _]. auto.
  - apply orb_false_iff in N as [_ N]. auto.
  - destruct lo; [discriminate|]. destruct w; simpl in *; [lia|discriminate].
  - auto.
Qed.

Lemma matches_allowed r i w rest cs cs' :
  matches r i w rest cs cs' -> forallb (allowed r) w = true.
Proof.
  induction 1; simpl; auto.
  - now rewrite Ascii.eqb_refl.
  - now rewrite H.
  - induction s as [|x s IH]; simpl; [reflexivity|].
    rewrite Ascii.eqb_refl. simpl. apply forallb_forall. intros y Hy.
    rewrite forallb_forall in IH. rewrite (IH y Hy). apply orb_true_r.
  - rewrite forallb_app. apply andb_true_iff. split; apply forallb_forall; intros y Hy.
    + rewrite forallb_forall in IHmatches1. now rewrite IHmatches1.
    + rewrite forallb_forall in IHmatches2. rewrite IHmatches2; auto. apply orb_true_r.
  - apply forallb_forall; intros y Hy.
    rewrite forallb_forall in IHmatches. now rewrite IHmatches.
  - apply forallb_forall; intros y Hy.
    rewrite forallb_forall in IHmatches. rewrite IHmatches; auto. apply orb_true_r.
Qed.

(** A loop over the matches of an expression that cannot match the empty
    string ends, whatever the input. *)
Lemma execLoop_total r :
  nullable r = false ->
  forall fuel inp i, length inp < fuel -> exists ms, execLoop fuel r i inp = Some ms.
Proof.
  intros N. induction fuel as [|fuel IH]; intros inp i L; [lia|]. simpl.
  destruct (search r i inp) as [x|] eqn:E; [|eauto].
  apply search_sound in E as (pre & w & -> & M & _ & _ & _).
  apply matches_nonempty in M; auto.
  destruct (IH (m_rest x) (m_end x)) as [ms ->]; [|simpl; eauto].
  rewrite !length_app in L. destruct w; [congruence|simpl in L; lia].
Qed.

Lemma execLoop_more r fuel :
  forall fuel' inp i ms,
    execLoop fuel r i inp = Some ms -> fuel <= fuel' -> execLoop fuel' r i inp = Some ms.
Proof.
  induction fuel as [|fuel IH]; intros fuel' inp i ms H L; [discriminate|].
  destruct fuel' as [|fuel']; [lia|]. simpl in *.
  destruct (search r i inp) as [x|]; [|auto].
  destruct (execLoop fuel r (m_end x) (m_rest x)) as [ms'|] eqn:E; [|discriminate].
  erewrite IH; eauto. lia.
Qed.


(** The rounds given to [matchAll] are enough: more of them find nothing more. *)
Lemma matchesFrom_enough r n :
  forall m i inp,
    length inp < n -> length inp < m -> matchesFrom n r i inp = matchesFrom m r i inp.
Proof.
  induction n as [|n IH]; intros m i inp Ln Lm; [lia|].
  destruct m as [|m]; [lia|]. cbn [matchesFrom].
  destruct (search r i inp) as [x|] eqn:E; [|reflexivity]. f_equal.
  apply search_sound in E as (pre & w & -> & _ & _ & He & _).
  rewrite !length_app in Ln, Lm.
  destruct (Nat.eqb (m_end x) (m_index x)) eqn:Q.
  - destruct (m_rest x) as [|c rest']; [reflexivity|]. simpl in Ln, Lm. apply IH; lia.
  - apply Nat.eqb_neq in Q. apply IH; lia.
Qed.

End ReFacts.

(** ** String primitives *)

Module JsFacts.
Import Spec ReFacts.


Lemma stripPrefix_none p s : Js.stripPrefix p s = None -> forall t, s <> p ++ t.
Proof. intros H t ->. now rewrite stripPrefix_here in H. Qed.

Lemma findSub_some p s :
  forall acc a b,
    Js.findSub p acc s = Some (a, b) ->
    exists a', a = rev acc ++ a' /\ firstOccurrence p s a' b.
Proof.
  induction s as [|c s IH]; intros acc a b H; simpl in H.
  - destruct (Js.stripPrefix p []) as [t|] eqn:E; [|discriminate].
    inversion H; subst. exists []. rewrite app_nil_r. split; [reflexivity|].
    split; [apply (stripPrefix_app _ _ _ E)|simpl; lia].
  - destruct (Js.stripPrefix p (c :: s)) as [t|] eqn:E.
    + inversion H; subst. exists []. rewrite app_nil_r. split; [reflexivity|].
      split; [apply (stripPrefix_app _ _ _ E)|simpl; lia].
    + apply IH in H as (a' & -> & Hocc & Hmin).
      exists (c :: a'). simpl. rewrite <- app_assoc. split; [reflexivity|].
      split; [unfold occurs in *; simpl; now f_equal|].
      intros [|c' a''] b'' Hocc'; unfold occurs in Hocc'; simpl in Hocc'.
      * now apply stripPrefix_none with (t := b'') in E.
      * inversion Hocc'; subst. simpl. apply le_n_S. eapply Hmin. reflexivity.
Qed.

Lemma findSub_none p s :
  forall acc, Js.findSub p acc s = None -> ~ contains p s.
Proof.
  induction s as [|c s IH]; intros acc H (a & b & Hocc); unfold occurs in Hocc; simpl in H.
  - destruct (Js.stripPrefix p []) eqn:E; [discriminate|].
    destruct a; [|discriminate]. now apply stripPrefix_none with (t := b) in E.
  - destruct (Js.stripPrefix p (c :: s)) eqn:E; [discriminate|].
    destruct a as [|c' a]; simpl in Hocc.
    + now apply stripPrefix_none with (t := b) in E.
    + inversion Hocc; subst. eapply IH; [exact H|]. now exists a, b.
Qed.

Lemma includes_spec p s : Js.includes p s = true <-> contains p s.
Proof.
  unfold Js.includes. destruct (Js.findSub p [] s) as [[a b]|] eqn:E.
  - apply findSub_some in E as (a' & _ & Hocc & _). split; [|reflexivity].
    intros _. now exists a', b.
  - apply findSub_none in E. split; [discriminate|]. intros; contradiction.
Qed.

Lemma includes_char c s : Js.includes [c] s = true <-> In c s.
Proof.
  rewrite includes_spec. split.
  - intros (a & b & ->). apply in_or_app. right. now left.
  - intros H. apply in_split in H as (a & b & ->). now exists a, b.
Qed.

(** The first piece of [s.split(sep)] is what precedes the first separator. *)
Lemma split_first sep s :
  forall cur,
    nth 0 (Js.splitGo sep 0 cur s) [] =
    match Js.findSub sep cur s with
    | Some (a, _) => a
    | None => rev cur ++ s
    end.
Proof.
  induction s as [|c s IH]; intros cur; simpl.
  - destruct (Js.stripPrefix sep []); simpl; now rewrite ?app_nil_r.
  - unfold Js.startsWith. destruct (Js.stripPrefix sep (c :: s)); simpl; [reflexivity|].
    rewrite IH. destruct (Js.findSub sep (c :: cur) s) as [[a b]|]; [reflexivity|].
    simpl. now rewrite <- app_assoc.
Qed.

Lemma firstOccurrence_unique p s a b a' b' :
  firstOccurrence p s a b -> firstOccurrence p s a' b' -> a = a'.
Proof.
  intros [H1 M1] [H2 M2].
  assert (L : length a = length a') by (apply Nat.le_antisymm; eauto).
  unfold occurs in *. rewrite H1 in H2.
  apply (f_equal (firstn (length a))) in H2.
  rewrite firstn_app, Nat.sub_diag, firstn_all in H2. simpl in H2. rewrite app_nil_r in H2.
  rewrite L, firstn_app, Nat.sub_diag, firstn_all in H2. simpl in H2. now rewrite app_nil_r in H2.
Qed.

End JsFacts.

(** ** Move statistics (game-analyzer.js, [analyzeMoves]) *)

Module StatsFacts.
Import GameAnalyzer Spec.


Lemma evens_nth l : forall k, nth_error (evens l) k = nth_error l (2 * k).
Proof.
  induction l as [l IH] using (induction_ltof1 _ (@length _)); unfold ltof in IH.
  intros k. destruct l as [|x [|y t]]; simpl.
  - now destruct k.
  - destruct k as [|k]; simpl; [reflexivity|].
    replace (k + S (k + 0)) with (S (2 * k)) by lia. simpl. now destruct k.
  - destruct k as [|k]; simpl; [reflexivity|].
    replace (k + S (k + 0)) with (S (2 * k)) by lia. simpl.
    apply IH. simpl. lia.
Qed.

Lemma odds_nth l k : nth_error (odds l) k = nth_error l (2 * k + 1).
Proof.
  destruct l as [|x t]; simpl.
  - now destruct k.
  - rewrite evens_nth. replace (k + (k + 0) + 1) with (S (2 * k)) by lia. reflexivity.
Qed.

Lemma parity_even i : Nat.eqb (i mod 2) 0 = Nat.even i.
Proof.
  rewrite <- Nat.bit0_mod, Nat.bit0_odd, <- Nat.negb_odd.
  now destruct (Nat.odd i).
Qed.


Lemma side_cons_here white i x t :
  Bool.eqb (Nat.even i) white = true -> side white i (x :: t) = x :: side white (S i) t.
Proof.
  unfold side. rewrite Nat.even_succ, <- Nat.negb_even.
  destruct (Nat.even i), white; simpl; intros H; try discriminate; now destruct t.
Qed.

Lemma side_cons_other white i x t :
  Bool.eqb (Nat.even i) white = false -> side white i (x :: t) = side white (S i) t.
Proof.
  unfold side. rewrite Nat.even_succ, <- Nat.negb_even.
  destruct (Nat.even i), white; simpl; intros H; try discriminate; reflexivity.
Qed.

Lemma countFrom_sides rest :
  forall i s,
    whiteMoves (countFrom i rest s) = whiteMoves s ++ side true i rest
    /\ blackMoves (countFrom i rest s) = blackMoves s ++ side false i rest
    /\ totalMoves (countFrom i rest s) = totalMoves s.
Proof.
  induction rest as [|m rest IH]; intros i s; cbn [countFrom].
  - unfold side. destruct (Bool.eqb _ _), (Bool.eqb _ _); simpl; now rewrite !app_nil_r.
  - destruct (IH (S i) (countMove i m s)) as (W & B & T). rewrite W, B, T.
    unfold countMove. cbn [whiteMoves blackMoves totalMoves].
    rewrite parity_even. destruct (Nat.even i) eqn:E.
    + rewrite (side_cons_here true), (side_cons_other false), <- app_assoc by now rewrite E.
      auto.
    + rewrite (side_cons_other true), (side_cons_here false), <- app_assoc by now rewrite E.
      auto.
Qed.


Lemma bump_count f m n : bump (f m) n = n + count f [m].
Proof. unfold bump, count. simpl. destruct (f m); simpl; lia. Qed.

Lemma count_cons f m ms : count f (m :: ms) = count f [m] + count f ms.
Proof. unfold count. simpl. destruct (f m); reflexivity. Qed.

Lemma countFrom_counts rest :
  forall i s,
    let s' := countFrom i rest s in
    captures s' = captures s + count (Js.includes "x") rest
    /\ checks s' = checks s + count (Js.includes "+") rest
    /\ checkmates s' = checkmates s + count (Js.includes "#") rest
    /\ castles s' = castles s + count (Js.includes "O-O") rest
    /\ promotions s' = promotions s + count (Js.includes "=") rest
    /\ pawnMoves s' = pawnMoves s + count (movedAs Pawn) rest
    /\ knightMoves s' = knightMoves s + count (movedAs Knight) rest
    /\ bishopMoves s' = bishopMoves s + count (movedAs Bishop) rest
    /\ rookMoves s' = rookMoves s + count (movedAs Rook) rest
    /\ queenMoves s' = queenMoves s + count (movedAs Queen) rest
    /\ kingMoves s' = kingMoves s + count (movedAs King) rest.
Proof.
  induction rest as [|m rest IH]; intros i s; cbn [countFrom].
  - unfold count; simpl. repeat split; lia.
  - destruct (IH (S i) (countMove i m s)) as (H1&H2&H3&H4&H5&H6&H7&H8&H9&H10&H11).
    rewrite H1, H2, H3, H4, H5, H6, H7, H8, H9, H10, H11.
    unfold countMove.
    cbn [captures checks checkmates castles promotions pawnMoves knightMoves
         bishopMoves rookMoves queenMoves kingMoves].
    rewrite !(count_cons _ m rest).
    change (isPiece Pawn (pieceOf m)) with (movedAs Pawn m).
    change (isPiece Knight (pieceOf m)) with (movedAs Knight m).
    change (isPiece Bishop (pieceOf m)) with (movedAs Bishop m).
    change (isPiece Rook (pieceOf m)) with (movedAs Rook m).
    change (isPiece Queen (pieceOf m)) with (movedAs Queen m).
    change (isPiece King (pieceOf m)) with (movedAs King m).
    rewrite !bump_count. repeat split; lia.
Qed.

End StatsFacts.


(** C7. For every move list [ms], the statistics pass decides the side of
    [ms[i]] from the parity of [i] alone: the white list is the moves at the
    even indices in order ([white[k] = ms[2k]]), the black list the moves at
    the odd indices in order ([black[k] = ms[2k+1]]), so [ms[i]] sits at
    place [i / 2] of the list of its side, and the total is [length ms]. *)
Theorem analyzeMoves_sides_by_parity (ms : list str) :
  let s := GameAnalyzer.analyzeMoves ms in
  GameAnalyzer.totalMoves s = length ms
  /\ GameAnalyzer.whiteMoves s = Spec.evens ms
  /\ GameAnalyzer.blackMoves s = Spec.odds ms
  /\ (forall k, nth_error (GameAnalyzer.whiteMoves s) k = nth_error ms (2 * k))
  /\ (forall k, nth_error (GameAnalyzer.blackMoves s) k = nth_error ms (2 * k + 1))
  /\ (forall i, nth_error ms i =
                nth_error (if Nat.even i then GameAnalyzer.whiteMoves s
                           else GameAnalyzer.blackMoves s) (i / 2)).
Proof.
  intros s.
  assert (W : GameAnalyzer.whiteMoves s = Spec.evens ms
              /\ GameAnalyzer.blackMoves s = Spec.odds ms
              /\ GameAnalyzer.totalMoves s = length ms).
  { subst s. unfold GameAnalyzer.analyzeMoves, GameAnalyzer.sumPieces.
    cbn [GameAnalyzer.whiteMoves GameAnalyzer.blackMoves GameAnalyzer.totalMoves].
    destruct (StatsFacts.countFrom_sides ms 0
                (GameAnalyzer.mkStats (length ms) 0 0 0 0 0 0 0 0 0 0 0 0 [] []))
      as (Hw & Hb & Ht).
    rewrite Hw, Hb, Ht. auto. }
  destruct W as (Hw & Hb & Ht). rewrite Hw, Hb.
  repeat split; auto.
  - intros k. apply StatsFacts.evens_nth.
  - intros k. apply StatsFacts.odds_nth.
  - intros i. destruct (Nat.even i) eqn:E.
    + rewrite StatsFacts.evens_nth. f_equal.
      apply Nat.even_spec in E as [h ->].
      replace (2 * h / 2) with h; [reflexivity|].
      apply Nat.div_unique with (r := 0); lia.
    + rewrite StatsFacts.odds_nth. f_equal.
      rewrite <- Nat.negb_odd in E. apply negb_false_iff, Nat.odd_spec in E as [h ->].
      replace ((2 * h + 1) / 2) with h; [reflexivity|].
      apply Nat.div_unique with (r := 1); lia.
Qed.

(** C6, as stated, fails on castling: ["O-O"] starts with none of the
    letters the chain tests, so the move is counted and given no piece type
    at all, where the claim has exactly one. *)
Lemma castling_has_no_piece_type :
  GameAnalyzer.pieceOf "O-O" = None
  /\ let s := GameAnalyzer.analyzeMoves ["O-O" : str] in
     GameAnalyzer.totalMoves s = 1
     /\ GameAnalyzer.castles s = 1
     /\ GameAnalyzer.pawnMoves s + GameAnalyzer.knightMoves s + GameAnalyzer.bishopMoves s
        + GameAnalyzer.rookMoves s + GameAnalyzer.queenMoves s + GameAnalyzer.kingMoves s = 0.
Proof. vm_compute. auto. Qed.

Lemma pieceOf_head (m : str) :
  GameAnalyzer.pieceOf m =
  match m with
  | [] => None
  | c :: _ =>
      if Js.inRange "a" "h" c then Some GameAnalyzer.Pawn
      else if Ascii.eqb c "N" then Some GameAnalyzer.Knight
      else if Ascii.eqb c "B" then Some GameAnalyzer.Bishop
      else if Ascii.eqb c "R" then Some GameAnalyzer.Rook
      else if Ascii.eqb c "Q" then Some GameAnalyzer.Queen
      else if Ascii.eqb c "K" then Some GameAnalyzer.King
      else None
  end.
Proof.
  destruct m as [|c m]; [reflexivity|].
  unfold GameAnalyzer.pieceOf, Re.test, Re.exec, GameAnalyzer.fileRe. cbn [Re.search].
  unfold Re.execAt. cbn [Re.run Nat.eqb].
  destruct (Js.inRange "a" "h" c) eqn:E.
  - reflexivity.
  - assert (S1 : forall t, Re.search (Re.Seq Re.Bol (Re.Cls (Js.inRange "a" "h"))) 1 t = None).
    { intros t. generalize 0. induction t as [|x t IH]; intros n; simpl; [reflexivity|].
      apply IH. }
    rewrite S1. unfold Js.startsWith. cbn [Js.stripPrefix list_ascii_of_string].
    repeat (match goal with |- context [Ascii.eqb c ?x] => destruct (Ascii.eqb c x); [reflexivity|] end).
    reflexivity.
Qed.

(** C6, amended.  For every move list each feature counter is the number of
    moves that pass its own substring test (capture: contains [x]; check:
    [+]; checkmate: [#]; castle: [O-O]; promotion: [=]), independently of
    the other tests.  The piece counters follow the first-match-wins chain
    on the first character (pawn for a file letter [a]-[h], else knight,
    bishop, rook, queen, king for [N], [B], [R], [Q], [K]): a move is given
    at most one piece type, and none when it starts with none of these
    characters.  ["Nxf6+"] counts as capture, check and knight and not as a
    pawn move; ["e8=Q#"] as promotion, checkmate and pawn. *)
Theorem analyzeMoves_classification (ms : list str) :
  let s := GameAnalyzer.analyzeMoves ms in
  (GameAnalyzer.captures s = Spec.count (Js.includes "x") ms
   /\ GameAnalyzer.checks s = Spec.count (Js.includes "+") ms
   /\ GameAnalyzer.checkmates s = Spec.count (Js.includes "#") ms
   /\ GameAnalyzer.castles s = Spec.count (Js.includes "O-O") ms
   /\ GameAnalyzer.promotions s = Spec.count (Js.includes "=") ms
   /\ GameAnalyzer.pawnMoves s = Spec.count (Spec.movedAs GameAnalyzer.Pawn) ms
   /\ GameAnalyzer.knightMoves s = Spec.count (Spec.movedAs GameAnalyzer.Knight) ms
   /\ GameAnalyzer.bishopMoves s = Spec.count (Spec.movedAs GameAnalyzer.Bishop) ms
   /\ GameAnalyzer.rookMoves s = Spec.count (Spec.movedAs GameAnalyzer.Rook) ms
   /\ GameAnalyzer.queenMoves s = Spec.count (Spec.movedAs GameAnalyzer.Queen) ms
   /\ GameAnalyzer.kingMoves s = Spec.count (Spec.movedAs GameAnalyzer.King) ms)
  /\ (forall m : str,
        (Js.includes "x" m = true <-> In "x"%char m)
        /\ (Js.includes "+" m = true <-> In "+"%char m)
        /\ (Js.includes "#" m = true <-> In "#"%char m)
        /\ (Js.includes "O-O" m = true <-> Spec.contains "O-O" m)
        /\ (Js.includes "=" m = true <-> In "="%char m))
  /\ (forall m : str,
        GameAnalyzer.pieceOf m =
        match m with
        | [] => None
        | c :: _ =>
            if Js.inRange "a" "h" c then Some GameAnalyzer.Pawn
            else if Ascii.eqb c "N" then Some GameAnalyzer.Knight
            else if Ascii.eqb c "B" then Some GameAnalyzer.Bishop
            else if Ascii.eqb c "R" then Some GameAnalyzer.Rook
            else if Ascii.eqb c "Q" then Some GameAnalyzer.Queen
            else if Ascii.eqb c "K" then Some GameAnalyzer.King
            else None
        end)
  /\ (forall (m : str) p q, Spec.movedAs p m = true -> Spec.movedAs q m = true -> p = q)
  /\ (Js.includes "x" "Nxf6+" = true /\ Js.includes "+" "Nxf6+" = true
      /\ GameAnalyzer.pieceOf "Nxf6+" = Some GameAnalyzer.Knight
      /\ Spec.movedAs GameAnalyzer.Pawn "Nxf6+" = false)
  /\ (Js.includes "=" "e8=Q#" = true /\ Js.includes "#" "e8=Q#" = true
      /\ GameAnalyzer.pieceOf "e8=Q#" = Some GameAnalyzer.Pawn).
Proof.
  intros s. split; [|split; [|split; [|split; [|split]]]].
  - subst s. unfold GameAnalyzer.analyzeMoves, GameAnalyzer.sumPieces.
    cbn [GameAnalyzer.captures GameAnalyzer.checks GameAnalyzer.checkmates
         GameAnalyzer.castles GameAnalyzer.promotions GameAnalyzer.pawnMoves
         GameAnalyzer.knightMoves GameAnalyzer.bishopMoves GameAnalyzer.rookMoves
         GameAnalyzer.queenMoves GameAnalyzer.kingMoves].
    destruct (StatsFacts.countFrom_counts ms 0
                (GameAnalyzer.mkStats (length ms) 0 0 0 0 0 0 0 0 0 0 0 0 [] []))
      as (H1&H2&H3&H4&H5&H6&H7&H8&H9&H10&H11).
    cbn zeta in *. rewrite H1, H2, H3, H4, H5, H6, H7, H8, H9, H10, H11.
    repeat split; reflexivity.
  - intros m. repeat split;
      try apply (JsFacts.includes_char _ m); try apply JsFacts.includes_spec;
      try (intros H; now apply (JsFacts.includes_char _ m));
      try (intros H; now apply JsFacts.includes_spec).
  - apply pieceOf_head.
  - intros m p q. unfold Spec.movedAs.
    destruct (GameAnalyzer.pieceOf m) as [[]|], p, q; simpl; congruence.
  - vm_compute. auto.
  - vm_compute. auto.
Qed.

Lemma analyzeMoves_classification_witness :
  Spec.movedAs GameAnalyzer.Knight "Nxf6+" = true
  /\ Spec.movedAs GameAnalyzer.Knight "Nxf6+" = true
  /\ GameAnalyzer.Knight = GameAnalyzer.Knight.
Proof.
  split; [reflexivity|]. split; [reflexivity|].
  destruct (analyzeMoves_classification ["Nxf6+" : str]) as (_ & _ & _ & H & _).
  apply (H "Nxf6+"); reflexivity.
Defined.

(** ** Catalog lookup (chess-fetcher.js, [lookupOpening]) *)

Module LookupFacts.
Import ChessFetcher Spec.

Lemma withoutWith_first (slug a b : str) :
  firstOccurrence "-with-" slug a b -> nth 0 (Js.split "-with-" slug) [] = a.
Proof.
  intros F. unfold Js.split. rewrite JsFacts.split_first.
  destruct (Js.findSub "-with-" [] slug) as [[a' b']|] eqn:E.
  - apply JsFacts.findSub_some in E as (a'' & -> & F'). simpl.
    eapply JsFacts.firstOccurrence_unique; eauto.
  - apply JsFacts.findSub_none in E. destruct F as [F _]. exfalso. apply E. now exists a, b.
Qed.

Lemma withoutWith_absent (slug : str) :
  ~ contains "-with-" slug -> nth 0 (Js.split "-with-" slug) [] = slug.
Proof.
  intros N. unfold Js.split. rewrite JsFacts.split_first.
  destruct (Js.findSub "-with-" [] slug) as [[a' b']|] eqn:E; [|reflexivity].
  apply JsFacts.findSub_some in E as (a'' & _ & F & _). exfalso. apply N. now exists a'', b'.
Qed.

Lemma strEq_refl (s : str) : strEq s s = true.
Proof. unfold strEq. now apply bool_decide_eq_true. Qed.

Lemma strEq_shorter (a p b : str) : p <> [] -> strEq a (a ++ p ++ b) = false.
Proof.
  intros P. unfold strEq. apply bool_decide_eq_false. intros E.
  apply (f_equal (@length _)) in E. rewrite !length_app in E.
  destruct p; [congruence|simpl in E; lia].
Qed.

(** What [lookupOpening] returns, case by case. *)
Lemma lookupOpening_cases (db : gmap str entry) (slug : str) :
  (forall e, db !! slug = Some e -> lookupOpening db slug = Some e)
  /\ (forall a b, db !! slug = None -> firstOccurrence "-with-" slug a b ->
                  lookupOpening db slug = if nonEmpty a then db !! a else None)
  /\ (db !! slug = None -> ~ contains "-with-" slug -> lookupOpening db slug = None).
Proof.
  unfold lookupOpening. repeat split.
  - now intros e ->.
  - intros a b -> F. rewrite (withoutWith_first slug a b F).
    destruct F as [-> _]. rewrite strEq_shorter by discriminate.
    now destruct a.
  - intros -> N. rewrite (withoutWith_absent slug N), strEq_refl.
    now rewrite andb_false_r.
Qed.

Lemma italian_first :
  firstOccurrence "-with-" "italian-game-with-4-bc4" "italian-game" "4-bc4".
Proof.
  assert (E : Js.findSub "-with-" [] "italian-game-with-4-bc4"
              = Some ("italian-game" : str, "4-bc4" : str)) by reflexivity.
  apply JsFacts.findSub_some in E as (a' & E & F). simpl in E. now subst a'.
Qed.

End LookupFacts.

(** C3, as stated, fails when the portion before ["-with-"] is empty: for the
    slug ["-with-x"] and a mapping whose only key is the empty string, the
    slug is no key, it contains ["-with-"], the portion before it is a key,
    and [lookupOpening] still returns null. *)
Lemma lookupOpening_empty_prefix :
  let db : gmap str ChessFetcher.entry := {[ ("" : str) := Spec.sampleEntry ]} in
  db !! ("-with-x" : str) = None
  /\ Spec.firstOccurrence "-with-" "-with-x" "" "x"
  /\ db !! ("" : str) = Some Spec.sampleEntry
  /\ ChessFetcher.lookupOpening db "-with-x" = None.
Proof.
  repeat split.
  - intros a' b' _. simpl. lia.
Qed.

(** C3, amended.  For every mapping and every slug, [lookupOpening] returns
    the entry of the slug when the slug is a key; otherwise, when the slug
    contains ["-with-"], it returns the entry of the portion before the first
    ["-with-"] when that portion is not empty and is a key; otherwise it
    returns null, with no further fallback.  On ["italian-game-with-4-bc4"]
    with the compound key absent it returns what the mapping holds for
    ["italian-game"], which is null when that key is absent too. *)
Theorem lookupOpening_fallback (db : gmap str ChessFetcher.entry) (slug : str) :
  (forall e, db !! slug = Some e -> ChessFetcher.lookupOpening db slug = Some e)
  /\ (forall a b, db !! slug = None -> Spec.firstOccurrence "-with-" slug a b ->
                  ChessFetcher.lookupOpening db slug
                  = if ChessFetcher.nonEmpty a then db !! a else None)
  /\ (db !! slug = None -> ~ Spec.contains "-with-" slug ->
      ChessFetcher.lookupOpening db slug = None)
  /\ (db !! ("italian-game-with-4-bc4" : str) = None ->
      ChessFetcher.lookupOpening db "italian-game-with-4-bc4"
      = db !! ("italian-game" : str)).
Proof.
  destruct (LookupFacts.lookupOpening_cases db slug) as (H1 & H2 & H3).
  repeat split; auto.
  intros N.
  destruct (LookupFacts.lookupOpening_cases db "italian-game-with-4-bc4") as (_ & H & _).
  now rewrite (H _ _ N LookupFacts.italian_first).
Qed.

Lemma lookupOpening_fallback_witness :
  let db : gmap str ChessFetcher.entry := {[ ("italian-game" : str) := Spec.sampleEntry ]} in
  db !! ("italian-game-with-4-bc4" : str) = None
  /\ ChessFetcher.lookupOpening db "italian-game-with-4-bc4" = Some Spec.sampleEntry.
Proof.
  intros db. split; [reflexivity|].
  destruct (lookupOpening_fallback db "italian-game-with-4-bc4") as (_ & _ & _ & H).
  rewrite H; reflexivity.
Defined.

(** ** The catalog cache (chess-fetcher.js, [loadOpeningsDb]) *)

Module CacheFacts.
Import ChessFetcher Spec.

Lemma cacheHit_cached now st c : cacheHit now st = Some c -> openingsCache st = Some c.
Proof.
  unfold cacheHit. destruct (openingsCache st), (lastCacheTime st); try discriminate.
  now destruct (_ && _).
Qed.



(** A load that misses the cache. *)
Lemma load_miss now db st :
  cacheHit now st = None ->
  exists m tr,
    loadOpeningsDb now db st = (m, mkCache (Some m) (Some now), tr)
    /\ probes tr = 1
    /\ match db with
       | Rows rows => m = populate rows /\ reads tr = 1
       | ReadFails => m = ∅ /\ reads tr = 1
       | _ => m = ∅ /\ reads tr = 0
       end.
Proof.
  intros H. unfold loadOpeningsDb. rewrite H.
  destruct db; eexists _, _; (split; [reflexivity|]); split; try reflexivity; split; reflexivity.
Qed.


(** The rows with an empty slug are skipped: a loaded catalog has no empty key. *)
Lemma addRows_no_empty_key rows :
  forall m : gmap str entry,
    m !! ([] : str) = None -> fold_left addRow rows m !! ([] : str) = None.
Proof.
  induction rows as [|r rows IH]; intros m Hm; simpl; [exact Hm|].
  apply IH. unfold addRow.
  destruct (Js.toLowerCase (Js.trim (orEmpty (trim_slug r)))) eqn:E; [exact Hm|].
  rewrite lookup_insert_ne; [exact Hm|discriminate].
Qed.

Lemma populate_no_empty_key rows : populate rows !! ([] : str) = None.
Proof. apply addRows_no_empty_key, lookup_empty. Qed.

End CacheFacts.



(** ** Splitting an opening URL (chess-fetcher.js, [splitEcoUrl]) *)

Module SplitFacts.
Import Re ChessFetcher Spec.

Lemma splitGo_skip sep w :
  forall cur rest, Js.splitGo sep (length w) cur (w ++ rest) = Js.splitGo sep 0 cur rest.
Proof.
  induction w as [|x w IH]; intros cur rest; simpl; [|apply IH].
  destruct rest; reflexivity.
Qed.

(** [split] cuts at the first separator and goes on after it. *)
Lemma splitGo_unfold sep s :
  sep <> [] ->
  forall cur,
    Js.splitGo sep 0 cur s =
    match Js.findSub sep cur s with
    | Some (a, rest) => a :: Js.splitGo sep 0 [] rest
    | None => [rev cur ++ s]
    end.
Proof.
  intros Hsep. induction s as [|c s IH]; intros cur.
  - simpl. destruct sep; [congruence|]. simpl. now rewrite app_nil_r.
  - cbn [Js.splitGo Js.findSub]. unfold Js.startsWith.
    destruct (Js.stripPrefix sep (c :: s)) as [rest|] eqn:E.
    + f_equal. apply ReFacts.stripPrefix_app in E.
      destruct sep as [|x sep]; [congruence|]. simpl in E. inversion E; subst.
      simpl. rewrite Nat.sub_0_r. apply splitGo_skip.
    + rewrite IH. destruct (Js.findSub sep (c :: cur) s) as [[a rest]|]; [reflexivity|].
      simpl. now rewrite <- app_assoc.
Qed.

Lemma findSub_absent p s c :
  In c p -> ~ In c s -> Js.findSub p [] s = None.
Proof.
  intros Hp Hs. destruct (Js.findSub p [] s) as [[a b]|] eqn:E; [|reflexivity].
  apply JsFacts.findSub_some in E as (a' & _ & -> & _).
  exfalso. apply Hs. apply in_or_app. right. apply in_or_app. now left.
Qed.

(** A slug without a slash is the whole piece after the marker. *)
Lemma fullSlug_of slug :
  ~ In "/"%char slug ->
  nth 1 (Js.split "/openings/" ("https://www.chess.com/openings/" ++ slug)) [] = slug.
Proof.
  intros H. unfold Js.split. rewrite splitGo_unfold by discriminate.
  change (Js.findSub "/openings/" [] ("https://www.chess.com/openings/" ++ slug))
    with (Some ("https://www.chess.com" : str, slug)).
  cbn [nth]. rewrite splitGo_unfold by discriminate.
  rewrite (findSub_absent "/openings/" slug "/"); [reflexivity| now left | assumption].
Qed.

Lemma marker_included slug :
  Js.includes "chess.com/openings/" ("https://www.chess.com/openings/" ++ slug) = true.
Proof. reflexivity. Qed.

(** *** No match, no replacement *)

Lemma matchAll_none r s : search r 0 s = None -> matchAll r s = [].
Proof. unfold matchAll. simpl. now intros ->. Qed.

Lemma search_none r inp :
  forall i, (forall pre w rest j cs, inp = pre ++ w ++ rest -> ~ matches r j w rest [] cs) ->
            search r i inp = None.
Proof.
  intros i H. destruct (search r i inp) as [x|] eqn:E; [|reflexivity].
  apply ReFacts.search_sound in E as (pre & w & E & M & _). exfalso. eapply H; eauto.
Qed.

(** *** Characters of a plain slug *)

Lemma plain_not_digit c : plainChar c = true -> Js.isDigit c = false.
Proof. unfold plainChar. destruct (Js.isDigit c); [discriminate|reflexivity]. Qed.

Lemma plain_not_dot c : plainChar c = true -> isDot c = false.
Proof. unfold plainChar. destruct (Js.isDigit c), (isDot c); simpl; congruence. Qed.

Lemma plain_no_slash b : forallb plainChar b = true -> ~ In "/"%char b.
Proof.
  intros H Hin. rewrite forallb_forall in H. specialize (H _ Hin). discriminate.
Qed.


(** *** The shape of the matches of the two expressions *)

Lemma rep_head (p : ascii -> bool) (w : str) lo :
  forallb p w = true -> S lo <= length w ->
  exists d ds, w = d :: ds /\ p d = true /\ forallb p ds = true.
Proof.
  destruct w as [|d ds]; simpl; intros H L; [lia|].
  apply andb_true_iff in H as [Hd Hds]. eauto.
Qed.

Lemma withRe_shape j w rest cs cs' :
  matches withRe j w rest cs cs' ->
  exists d ds tl, w = "with-" ++ (d :: ds) ++ "-" ++ tl
                  /\ Js.isDigit d = true /\ forallb Js.isDigit ds = true.
Proof.
  unfold withRe, Cat, Plus. cbn [fold_right]. intros M. open_match.
  match goal with H : forallb Js.isDigit ?w = true, L : 1 <= length ?w |- _ =>
    destruct (rep_head _ _ _ H L) as (d & ds & -> & Hd & Hds) end.
  eexists d, ds, _. split; [|auto]. reflexivity.
Qed.

Lemma movePattern_shape j w rest cs cs' :
  matches movePattern j w rest cs cs' ->
  (exists d tl, w = "-"%char :: d :: tl /\ Js.isDigit d = true)
  \/ (exists tl, w = "."%char :: tl).
Proof.
  unfold movePattern, Cat, Times, Plus. cbn [fold_right]. intros M.
  open_match. split_match; [|split_match]; open_match.
  - left.
    match goal with H : forallb Js.isDigit ?w = true, L : 1 <= length ?w |- _ =>
      destruct (rep_head _ _ _ H L) as (d & ds & -> & Hd & Hds) end.
    eexists d, _. split; [reflexivity|auto].
  - right.
    match goal with H : forallb isDot ?w = true, L : 3 <= length ?w |- _ =>
      destruct (rep_head _ _ _ H L) as (d & ds & -> & Hd & Hds) end.
    unfold isDot in Hd. apply Ascii.eqb_eq in Hd. subst d. eexists. reflexivity.
  - right.
    match goal with H : forallb isDot ?w = true, L : 3 <= length ?w |- _ =>
      destruct (rep_head _ _ _ H L) as (d & ds & -> & Hd & Hds) end.
    unfold isDot in Hd. apply Ascii.eqb_eq in Hd. subst d. eexists. reflexivity.
Qed.

(** *** A plain base followed by [-3...Nf6] *)

Lemma plain_cons c b :
  forallb plainChar (c :: b) = true -> plainChar c = true /\ forallb plainChar b = true.
Proof. simpl. apply andb_true_iff. Qed.

(** No protected clause begins in such a slug: after [with-] comes a digit
    and then a hyphen, and the only digit that can follow [with-] here is
    the 3, which a dot follows. *)
Lemma no_with_clause b :
  forallb plainChar b = true ->
  forall pre d ds tl,
    b ++ "-3...Nf6" = pre ++ "with-" ++ (d :: ds) ++ "-" ++ tl ->
    Js.isDigit d = true -> forallb Js.isDigit ds = true -> False.
Proof.
  induction b as [|c b IH]; intros P pre d ds tl E Hd Hds.
  - assert (W : In "w"%char ([] ++ "-3...Nf6" : str)).
    { rewrite E. apply in_or_app. right. now left. }
    simpl in W. intuition discriminate.
  - apply plain_cons in P as [Pc P].
    destruct pre as [|x pre]; [|simpl in E; injection E as _ E; exact (IH P pre d ds tl E Hd Hds)].
    clear IH. simpl in E. injection E as -> E.
    destruct b as [|c b]; simpl in E; [discriminate E|injection E as -> E].
    apply plain_cons in P as [_ P].
    destruct b as [|c b]; simpl in E; [discriminate E|injection E as -> E].
    apply plain_cons in P as [_ P].
    destruct b as [|c b]; simpl in E; [discriminate E|injection E as -> E].
    apply plain_cons in P as [_ P].
    destruct b as [|c b]; simpl in E; [|injection E as -> E].
    { injection E as <- E. destruct ds as [|x ds]; simpl in E; [discriminate E|].
      injection E as <- E. simpl in Hds. discriminate Hds. }
    apply plain_cons in P as [_ P].
    destruct b as [|c b]; simpl in E; [injection E as <- E|injection E as -> E].
    + discriminate Hd.
    + apply plain_cons in P as [Pd _]. apply plain_not_digit in Pd. congruence.
Qed.

Lemma withRe_absent b :
  forallb plainChar b = true -> matchAll withRe (b ++ "-3...Nf6") = [].
Proof.
  intros P. apply matchAll_none, search_none.
  intros pre w rest j cs E M.
  apply withRe_shape in M as (d & ds & tl & -> & Hd & Hds).
  rewrite <- !app_assoc in E. eapply no_with_clause; eauto.
Qed.

(** No move boundary begins inside the base. *)
Lemma movePattern_not_in_base c u j :
  plainChar c = true -> forallb plainChar u = true ->
  execAt movePattern j (c :: u ++ "-3...Nf6") = None.
Proof.
  intros Pc Pu. destruct (execAt movePattern j (c :: u ++ "-3...Nf6")) as [x|] eqn:E; [|reflexivity].
  exfalso. apply ReFacts.execAt_sound in E as (w & E & M & _).
  apply movePattern_shape in M as [(d & tl & -> & Hd)|(tl & ->)]; simpl in E; injection E as -> E.
  - destruct u as [|y u]; simpl in E; [injection E as <- E|injection E as -> E].
    + discriminate Hd.
    + apply plain_cons in Pu as [Py _]. apply plain_not_digit in Py. congruence.
  - discriminate Pc.
Qed.

Lemma search_skip r tail b :
  forall i,
    (forall pre c u j, b = pre ++ c :: u -> execAt r j (c :: u ++ tail) = None) ->
    search r i (b ++ tail) = search r (i + length b) tail.
Proof.
  induction b as [|c b IH]; intros i H; simpl.
  - now rewrite Nat.add_0_r.
  - rewrite (H [] c b i eq_refl). rewrite IH; [f_equal; lia|].
    intros pre c' u j ->. apply (H (c :: pre)). reflexivity.
Qed.

Lemma movePattern_at_tail j :
  exists x, search movePattern j "-3...Nf6" = Some x /\ m_index x = j.
Proof. eexists. split; reflexivity. Qed.

Lemma plain_suffix b pre c u :
  forallb plainChar b = true -> b = pre ++ c :: u ->
  plainChar c = true /\ forallb plainChar u = true.
Proof.
  intros P ->. rewrite forallb_app in P. apply andb_true_iff in P as [_ P].
  now apply plain_cons.
Qed.

(** The split of a plain base followed by [-3...Nf6]. *)
Lemma split_plain b :
  forallb plainChar b = true ->
  splitEcoUrl ("https://www.chess.com/openings/" ++ b ++ "-3...Nf6")
  = mkSplit (Js.toLowerCase b) "-3...Nf6".
Proof.
  intros P. unfold splitEcoUrl.
  rewrite marker_included. cbn [negb].
  rewrite fullSlug_of.
  2:{ intros H. apply in_app_or in H as [H|H]; [now apply plain_no_slash in H|].
      simpl in H. intuition discriminate. }
  destruct (b ++ "-3...Nf6") as [|c0 t0] eqn:E0.
  { destruct b; discriminate E0. }
  rewrite <- E0. rewrite withRe_absent by assumption.
  cbn [splice List.map restore]. unfold exec.
  rewrite (search_skip movePattern "-3...Nf6" b 0).
  2:{ intros pre c u j Hb. destruct (plain_suffix b pre c u P Hb).
      now apply movePattern_not_in_base. }
  destruct (movePattern_at_tail (0 + length b)) as (x & -> & ->). simpl (0 + _).
  rewrite firstn_app, Nat.sub_diag, firstn_all. simpl firstn. rewrite app_nil_r.
  rewrite skipn_app, Nat.sub_diag, skipn_all. reflexivity.
Qed.

End SplitFacts.

(** C1.  What the code does on the URLs of the claim.  For every URL
    [https://www.chess.com/openings/<base>-3...Nf6] whose base holds no
    digit, no dot and no slash, [split] returns the lower-cased base and the
    fragment [-3...Nf6]; [formatExtraMoves] cuts the fragment at hyphens
    only, so the move number and the move stay glued in the one token
    [3...Nf6], which the move-number test [/^(\d+)(\.{0,3})$/] refuses: the
    display string is ["3...Nf6"], without the space of ["3... Nf6"].  The
    branch that pushes [3...] and the move as two items is reached only when
    a hyphen stands between them, as in [-3...-Nf6]. *)
Theorem extraMoves_fragment_stays_glued (b : str) :
  forallb Spec.plainChar b = true ->
  let parts := ChessFetcher.splitEcoUrl ("https://www.chess.com/openings/" ++ b ++ "-3...Nf6") in
  ChessFetcher.baseSlug parts = Js.toLowerCase b
  /\ ChessFetcher.extraMoves parts = "-3...Nf6"
  /\ ChessFetcher.formatExtraMoves (ChessFetcher.extraMoves parts) = "3...Nf6"
  /\ ChessFetcher.formatExtraMoves (ChessFetcher.extraMoves parts) <> "3... Nf6"
  /\ ChessFetcher.formatExtraMoves "-3...-Nf6" = "3... Nf6".
Proof.
  intros P parts. subst parts. rewrite (SplitFacts.split_plain b P).
  cbn [ChessFetcher.baseSlug ChessFetcher.extraMoves].
  split; [reflexivity|]. split; [reflexivity|]. split; [reflexivity|].
  split; [vm_compute; discriminate|reflexivity].
Qed.

Lemma extraMoves_fragment_stays_glued_witness :
  forallb Spec.plainChar "Sicilian-Defense" = true
  /\ ChessFetcher.formatExtraMoves
       (ChessFetcher.extraMoves
          (ChessFetcher.splitEcoUrl
             ("https://www.chess.com/openings/" ++ "Sicilian-Defense" ++ "-3...Nf6")))
     = "3...Nf6".
Proof.
  split; [reflexivity|].
  apply (extraMoves_fragment_stays_glued "Sicilian-Defense"). reflexivity.
Defined.

(** C2, as stated, fails on the URL of the claim: it does not hold the marker
    [chess.com/openings/] that [splitEcoUrl] asks for, so the base slug and
    the extra moves are both empty. *)
Lemma marker_needs_the_host :
  ChessFetcher.splitEcoUrl "https://x/openings/queens-gambit-declined-with-4-nc3-and-5-bg5"
  = ChessFetcher.mkSplit "" "".
Proof. reflexivity. Qed.

(** C2, amended.  On the URL
    [https://www.chess.com/openings/queens-gambit-declined-with-4-nc3-and-5-bg5]
    [split] returns the whole slug, with the clause [with-4-nc3-and-5-bg5]
    intact, as the base slug and an empty extra-moves fragment; the clause is
    set aside as one protected pattern before the search for a boundary.
    With capitals in the URL the base slug is the same, lower-cased. *)
Theorem split_keeps_with_clause :
  ChessFetcher.splitEcoUrl
    "https://www.chess.com/openings/queens-gambit-declined-with-4-nc3-and-5-bg5"
  = ChessFetcher.mkSplit "queens-gambit-declined-with-4-nc3-and-5-bg5" ""
  /\ List.map Re.m_text
       (Re.matchAll ChessFetcher.withRe "queens-gambit-declined-with-4-nc3-and-5-bg5")
     = ["with-4-nc3-and-5-bg5" : str]
  /\ ChessFetcher.splitEcoUrl
       "https://www.chess.com/openings/Queens-Gambit-Declined-with-4-Nc3-and-5-Bg5"
     = ChessFetcher.mkSplit "queens-gambit-declined-with-4-nc3-and-5-bg5" "".
Proof. vm_compute. repeat split. Qed.


(** ** Parsing a game (game-analyzer.js, [parsePGN]) *)

Module ParseFacts.
Import Re GameAnalyzer Spec.
Import SplitFacts.

Lemma headerRegex_shape j w rest cs cs' :
  matches headerRegex j w rest cs cs' ->
  exists name ws value,
    w = "[" ++ name ++ ws ++ [quote] ++ value ++ [quote] ++ "]"
    /\ name <> [] /\ forallb Js.isWord name = true
    /\ ws <> [] /\ forallb Js.isSpace ws = true
    /\ value <> [] /\ forallb notQuote value = true
    /\ cs' = (2, value) :: (1, name) :: cs.
Proof.
  unfold headerRegex, Cat, Plus. cbn [fold_right]. intros M. open_match.
  repeat match goal with L : 1 <= length ?w |- _ =>
    assert (w <> []) by (destruct w; [simpl in L; lia|discriminate]); clear L end.
  match goal with
  | Hn : forallb Js.isWord ?n = true, Hs : forallb Js.isSpace ?ws = true,
    Hv : forallb notQuote ?v = true |- _ => exists n, ws, v
  end.
  split; [|repeat split; assumption].
  cbn [list_ascii_of_string app]. rewrite <- ?app_assoc. reflexivity.
Qed.

Lemma no_tag_no_match pgn i : ~ hasTagPair pgn -> search headerRegex i pgn = None.
Proof.
  intros N. apply search_none. intros pre w rest j cs E M. apply N.
  apply headerRegex_shape in M as (name & ws & value & -> & H).
  exists pre, name, ws, value, rest. split; [|tauto].
  rewrite E. rewrite <- ?app_assoc. reflexivity.
Qed.

Lemma collectMoves_blank h lines :
  Forall (fun l => Js.trim l = []) lines ->
  forall inMoves text, collectMoves h inMoves text lines = text.
Proof.
  induction 1 as [|l lines Hl _ IH]; intros inMoves text; simpl; [reflexivity|].
  rewrite Hl. apply IH.
Qed.

Lemma collectMoves_headers_only h hs bs :
  Forall (fun l => Js.trim l <> []) hs -> Forall (fun l => Js.trim l = []) bs ->
  forall text, collectMoves h false text (hs ++ bs) = text.
Proof.
  induction 1 as [|l hs Hl _ IH]; intros Hb text; simpl.
  - now apply collectMoves_blank.
  - destruct (Js.trim l); [congruence|]. now apply IH.
Qed.

Lemma collectMoves_no_headers lines :
  forall text, collectMoves false false text lines = text.
Proof.
  induction lines as [|l lines IH]; intros text; simpl; [reflexivity|].
  destruct (Js.trim l); apply IH.
Qed.

Lemma no_moves_in_nothing fuel : execLoop (S fuel) movePattern 0 [] = Some [].
Proof. reflexivity. Qed.

Lemma headerRegex_not_nullable : nullable headerRegex = false.
Proof. reflexivity. Qed.

Lemma movePattern_not_nullable : nullable movePattern = false.
Proof. reflexivity. Qed.

Lemma parsePGN_steps fuel pgn tagMatches moveMatches :
  pgn <> [] ->
  execLoop fuel headerRegex 0 pgn = Some tagMatches ->
  execLoop fuel movePattern 0 (movesTextOf pgn tagMatches) = Some moveMatches ->
  parsePGN fuel pgn
  = Some (mkParsed (fold_left addHeader tagMatches ∅) (concat (List.map movesOf moveMatches))).
Proof.
  intros N H1 H2. unfold parsePGN. destruct pgn; [congruence|].
  rewrite H1. unfold movesTextOf in H2. now rewrite H2.
Qed.

(** [parsePGN] returns, whatever the text. *)
Lemma parsePGN_returns pgn :
  pgn <> [] ->
  exists tagMatches moveMatches n,
    forall fuel, n <= fuel ->
      execLoop fuel headerRegex 0 pgn = Some tagMatches
      /\ execLoop fuel movePattern 0 (movesTextOf pgn tagMatches) = Some moveMatches
      /\ parsePGN fuel pgn
         = Some (mkParsed (fold_left addHeader tagMatches ∅)
                          (concat (List.map movesOf moveMatches))).
Proof.
  intros N.
  destruct (ReFacts.execLoop_total headerRegex headerRegex_not_nullable
              (S (length pgn)) pgn 0) as [tagMatches H1]; [lia|].
  destruct (ReFacts.execLoop_total movePattern movePattern_not_nullable
              (S (length (movesTextOf pgn tagMatches))) (movesTextOf pgn tagMatches) 0)
    as [moveMatches H2]; [lia|].
  exists tagMatches, moveMatches,
    (Nat.max (S (length pgn)) (S (length (movesTextOf pgn tagMatches)))).
  intros fuel L.
  assert (E1 := ReFacts.execLoop_more _ _ fuel _ _ _ H1 ltac:(lia)).
  assert (E2 := ReFacts.execLoop_more _ _ fuel _ _ _ H2 ltac:(lia)).
  split; [exact E1|]. split; [exact E2|]. now apply parsePGN_steps.
Qed.


(** *** Reading one header line *)

(** A greedy repetition takes the whole run when what follows the run is
    outside the class and the rest of the pattern accepts. *)
Lemma rep_greedy {A} (p : ascii -> bool) (k : nat -> str -> option A) w :
  forall lo i c rest x,
    forallb p w = true -> p c = false -> lo <= length w ->
    k (i + length w) (c :: rest) = Some x ->
    rep p lo None k i (w ++ c :: rest) = Some x.
Proof.
  induction w as [|a w IH]; intros lo i c rest x Hw Hc Hlo Hk.
  - simpl in *. rewrite Hc. simpl. destruct lo; [|lia]. simpl.
    now rewrite Nat.add_0_r in Hk.
  - simpl in Hw. apply andb_true_iff in Hw as [Ha Hw].
    cbn [app rep]. rewrite Ha. cbn [more andb decr].
    rewrite (IH (pred lo) (S i) c rest x); auto.
    + simpl in Hlo. lia.
    + simpl in Hk. now replace (S i + length w) with (i + S (length w)) by lia.
Qed.

Lemma symbol_word n : symbol n = true -> forallb Js.isWord n = true /\ 1 <= length n.
Proof.
  destruct n as [|c n]; [discriminate|]. unfold symbol.
  intros H. apply andb_true_iff in H as [_ H]. split; [exact H|simpl; lia].
Qed.

Lemma stringValue_plain v : stringValue v = true -> forallb notQuote v = true /\ 1 <= length v.
Proof.
  destruct v as [|c v]; [discriminate|]. unfold stringValue. simpl.
  intros H. split; [exact H|lia].
Qed.

Lemma tagLine_chars n v rest :
  tagLine (n, v) ++ rest
  = "["%char :: n ++ " "%char :: quote :: v ++ quote :: "]"%char :: rest.
Proof. unfold tagLine. simpl. repeat (rewrite <- app_assoc; simpl). reflexivity. Qed.

Lemma header_here i n v rest :
  symbol n = true -> stringValue v = true ->
  exists x, execAt headerRegex i (tagLine (n, v) ++ rest) = Some x
            /\ m_rest x = rest /\ group 1 x = Some n /\ group 2 x = Some v.
Proof.
  intros Hn Hv.
  apply symbol_word in Hn as [Hn Ln]. apply stringValue_plain in Hv as [Hv Lv].
  rewrite tagLine_chars. unfold execAt, headerRegex, Cat, Plus.
  cbn [fold_right run]. rewrite Ascii.eqb_refl.
  eexists. split.
  - apply rep_greedy; [exact Hn|reflexivity|exact Ln|].
    cbn [rep]. change (Js.isSpace " ") with true. cbn [more andb pred decr].
    change (Js.isSpace quote) with false. cbn [andb Nat.eqb].
    rewrite Ascii.eqb_refl.
    erewrite (rep_greedy notQuote _ v); [reflexivity|exact Hv|reflexivity|exact Lv|].
    rewrite !Ascii.eqb_refl. reflexivity.
  - cbn [m_rest]. split; [reflexivity|].
    unfold group. cbn [m_caps cap Nat.eqb].
    rewrite !ReFacts.firstn_exact_at by lia. split; reflexivity.
Qed.


(** *** Between the header lines *)

Lemma tagFree_tail c t : tagFree (c :: t) = true -> tagFree t = true.
Proof.
  destruct t as [|d t]; [reflexivity|]. cbn [tagFree].
  intros H. now apply andb_true_iff in H as [_ H].
Qed.

Lemma tagFree_suffix pre s : tagFree (pre ++ s) = true -> tagFree s = true.
Proof. induction pre as [|c pre IH]; [auto|]. intros H. apply IH. now apply tagFree_tail in H. Qed.

Lemma header_not_in_gap c u rest j :
  tagFree (c :: u) = true -> startsPlain rest ->
  execAt headerRegex j (c :: u ++ rest) = None.
Proof.
  intros F R. destruct (execAt headerRegex j (c :: u ++ rest)) as [x|] eqn:E; [|reflexivity].
  exfalso. apply ReFacts.execAt_sound in E as (w & E & M & _).
  apply headerRegex_shape in M as (name & ws & value & -> & Hn & Hw & _).
  destruct name as [|d name]; [congruence|]. simpl in Hw.
  apply andb_true_iff in Hw as [Hd _].
  simpl in E. injection E as -> E.
  destruct u as [|y u]; simpl in E.
  - destruct rest as [|y rest]; [discriminate E|]. injection E as -> E. simpl in R. congruence.
  - injection E as -> E. cbn [tagFree] in F. rewrite Hd in F. discriminate F.
Qed.

Lemma gap_skipped gap rest i :
  tagFree gap = true -> startsPlain rest ->
  search headerRegex i (gap ++ rest) = search headerRegex (i + length gap) rest.
Proof.
  intros F R. apply search_skip. intros pre c u j ->.
  apply header_not_in_gap; [|exact R]. now apply tagFree_suffix in F.
Qed.

Lemma search_here r i inp x : execAt r i inp = Some x -> search r i inp = Some x.
Proof. intros H. destruct inp; simpl; now rewrite H. Qed.

Lemma tagLine_startsPlain t rest : startsPlain (tagLine t ++ rest).
Proof. destruct t as [n v]. rewrite tagLine_chars. reflexivity. Qed.

Lemma symbol_not_proto (n v : str) (h : gmap str str) :
  symbol n = true -> setProp h n v = <[n := v]> h.
Proof.
  intros H. unfold setProp, ChessFetcher.strEq.
  rewrite bool_decide_eq_false_2; [reflexivity|].
  intros ->. discriminate H.
Qed.

(** The loop over the header lines reads every line once, in order. *)
Lemma header_loop items rest :
  wellFormed items rest ->
  forall i fuel, length items < fuel ->
    exists ms, execLoop fuel headerRegex i (pgnText items rest) = Some ms
               /\ forall h, fold_left addHeader ms h
                            = fold_left (fun h t => <[fst t := snd t]> h) (tagsOf items) h.
Proof.
  intros [W T]. induction W as [|[gap [n v]] items (Fg & Hn & Hv) W IH]; intros i fuel L.
  - destruct fuel as [|fuel]; [simpl in L; lia|]. exists []. split; [|reflexivity].
    cbn [execLoop pgnText]. rewrite <- (app_nil_r rest).
    rewrite gap_skipped; [reflexivity|exact T|exact I].
  - destruct fuel as [|fuel]; [simpl in L; lia|].
    cbn [fst snd] in *. cbn [pgnText execLoop].
    rewrite gap_skipped; [|exact Fg|apply tagLine_startsPlain].
    destruct (header_here (i + length gap) n v (pgnText items rest) Hn Hv)
      as (x & E & Hr & G1 & G2).
    rewrite (search_here _ _ _ _ E). rewrite Hr.
    destruct (IH (m_end x) fuel) as (ms & -> & F); [simpl in L; lia|].
    exists (x :: ms). split; [reflexivity|]. intros h.
    cbn [fold_left tagsOf List.map snd fst]. rewrite F.
    unfold addHeader. rewrite G1, G2. cbn [default].
    now rewrite symbol_not_proto.
Qed.

(** *** The tag mapping *)

Lemma fold_insert_other (post : list (str * str)) n :
  ~ In n (List.map fst post) ->
  forall h : gmap str str,
    fold_left (fun h t => <[fst t := snd t]> h) post h !! n = h !! n.
Proof.
  induction post as [|[k v] post IH]; intros N h; simpl; [reflexivity|].
  rewrite IH; [|intros H; apply N; now right].
  apply lookup_insert_ne. intros ->. apply N. now left.
Qed.

Lemma lastWins_lookup pre n v post :
  ~ In n (List.map fst post) -> lastWins (pre ++ (n, v) :: post) !! n = Some v.
Proof.
  intros N. unfold lastWins. rewrite fold_left_app. simpl.
  rewrite fold_insert_other by exact N. apply lookup_insert_eq.
Qed.




(** *** Header lines the loop does not record *)

(** A header line with an empty value is no match of the expression, and
    the name [__proto__] is no PGN symbol and leaves no entry. *)
Lemma unrecorded_header_lines :
  search headerRegex 0 ("[Round " ++ [quote; quote] ++ "]") = None
  /\ symbol "__proto__" = false
  /\ option_map (fun r => size (headers r))
       (parsePGN 10 ("[__proto__ " ++ [quote] ++ "x" ++ [quote] ++ "]")) = Some 0.
Proof. vm_compute. auto. Qed.

End ParseFacts.

(** C4.  For every input string [parsePGN] returns a pair of a tag mapping
    and a move list: both loops over the matches end, so there is an amount
    of fuel from which on the model returns one and the same result, and no
    step of it can raise.  When no line that is not blank follows a blank
    line (there is no move section set off by a blank line), the move list
    of that result is empty. *)
Theorem parsePGN_never_throws (pgn : str) :
  exists r n,
    (forall fuel, n <= fuel -> GameAnalyzer.parsePGN fuel pgn = Some r)
    /\ (Spec.noMoveSection pgn -> GameAnalyzer.moves r = []).
Proof.
  destruct pgn as [|c pgn].
  - exists (GameAnalyzer.mkParsed ∅ []), 0. split; [reflexivity|reflexivity].
  - destruct (ParseFacts.parsePGN_returns (c :: pgn)) as (tags & found & n & H); [discriminate|].
    eexists _, n. split.
    + intros fuel L. apply (H fuel L).
    + intros (hs & bs & Hs & Hh & Hb). cbn [GameAnalyzer.moves].
      destruct (H (S n)) as (_ & E & _); [lia|].
      unfold Spec.movesTextOf in E. rewrite Hs in E.
      rewrite (ParseFacts.collectMoves_headers_only _ hs bs Hh Hb) in E.
      change (GameAnalyzer.cleanMoves []) with ([] : str) in E.
      rewrite ParseFacts.no_moves_in_nothing in E. now inversion E.
Qed.

Lemma parsePGN_never_throws_witness :
  let pgn : str := "[Event " ++ [GameAnalyzer.quote] ++ "Live Chess" ++ [GameAnalyzer.quote] ++ "]"
                   ++ [ChessFetcher.nl] ++ "1. e4 e5" in
  Spec.noMoveSection pgn
  /\ exists r n, (forall fuel, n <= fuel -> GameAnalyzer.parsePGN fuel pgn = Some r)
                 /\ GameAnalyzer.moves r = [].
Proof.
  intros pgn.
  assert (N : Spec.noMoveSection pgn).
  { exists (Js.split [ChessFetcher.nl] pgn), []. rewrite app_nil_r.
    split; [reflexivity|]. split; [|constructor].
    vm_compute. repeat constructor; discriminate. }
  split; [exact N|].
  destruct (parsePGN_never_throws pgn) as (r & n & H & M).
  exists r, n. split; [exact H|exact (M N)].
Defined.

Lemma tagPair_has_bracket pgn : Spec.hasTagPair pgn -> In "["%char pgn.
Proof.
  intros (pre & name & ws & value & post & -> & _). apply in_or_app. right. now left.
Qed.

(** C10.  For every input string that holds no bracketed tag pair,
    [parsePGN] returns no tag and an empty move list, whatever follows a
    blank line in the text: the blank line switches the collection of move
    text on only when a tag has been read. *)
Theorem headerless_game_has_no_moves (pgn : str) :
  ~ Spec.hasTagPair pgn ->
  forall fuel, 0 < fuel ->
    GameAnalyzer.parsePGN fuel pgn = Some (GameAnalyzer.mkParsed ∅ []).
Proof.
  intros N fuel L. destruct fuel as [|fuel]; [lia|].
  destruct pgn as [|c pgn]; [reflexivity|].
  assert (H1 : Re.execLoop (S fuel) GameAnalyzer.headerRegex 0 (c :: pgn) = Some []).
  { cbn [Re.execLoop]. now rewrite (ParseFacts.no_tag_no_match _ 0 N). }
  rewrite (ParseFacts.parsePGN_steps (S fuel) (c :: pgn) [] []); [reflexivity|discriminate|exact H1|].
  unfold Spec.movesTextOf. cbn [fold_left].
  rewrite ParseFacts.collectMoves_no_headers. reflexivity.
Qed.

Lemma headerless_game_has_no_moves_witness :
  let pgn : str := "1. d4 d5" ++ [ChessFetcher.nl; ChessFetcher.nl]
                   ++ "1. e4 e5 2. Nf3 Nc6 1-0" in
  ~ Spec.hasTagPair pgn
  /\ GameAnalyzer.parsePGN 100 pgn = Some (GameAnalyzer.mkParsed ∅ []).
Proof.
  intros pgn.
  assert (N : ~ Spec.hasTagPair pgn).
  { intros H. apply tagPair_has_bracket in H. vm_compute in H. intuition discriminate. }
  split; [exact N|].
  apply (headerless_game_has_no_moves pgn N 100). lia.
Defined.




(** ** Clock readings (chess-fetcher.js, [parseMovesAndClocks]) *)

Module ClockFacts.
Import Re ChessFetcher Spec.
Import SplitFacts.

Lemma matches_first r i w rest cs cs' :
  matches r i w rest cs cs' -> forall c w', w = c :: w' -> first r c = true.
Proof.
  induction 1; intros x w' E; simpl; try discriminate.
  - injection E as -> _. apply Ascii.eqb_refl.
  - injection E as -> _. assumption.
  - subst s. apply Ascii.eqb_refl.
  - destruct w1 as [|y w1].
    + simpl in E. rewrite (IHmatches2 _ _ E).
      destruct (nullable r1) eqn:N; [apply orb_true_r|].
      exfalso. exact (ReFacts.matches_nonempty _ _ _ _ _ _ H N eq_refl).
    + simpl in E. injection E as -> _. rewrite (IHmatches1 _ _ eq_refl). reflexivity.
  - rewrite (IHmatches _ _ E). reflexivity.
  - rewrite (IHmatches _ _ E). apply orb_true_r.
  - eauto.
  - subst w. simpl in H. now apply andb_true_iff in H as [H _].
  - eauto.
Qed.

Lemma matches_groupless r i w rest cs cs' :
  matches r i w rest cs cs' -> groupless r = true -> cs' = cs.
Proof.
  induction 1; simpl; intros G; try reflexivity; try discriminate; auto.
  - apply andb_true_iff in G as [G1 G2]. rewrite IHmatches2, IHmatches1; auto.
  - apply andb_true_iff in G as [G1 G2]. auto.
  - apply andb_true_iff in G as [G1 G2]. auto.
Qed.

(** Every match the loop body sees is a match of the expression at its
    index in the text. *)
Lemma execLoop_sound r fuel :
  forall i inp ms,
    execLoop fuel r i inp = Some ms ->
    Forall (fun x => exists pre w,
                inp = pre ++ w ++ m_rest x
                /\ matches r (i + length pre) w (m_rest x) [] (m_caps x)
                /\ m_index x = i + length pre /\ m_end x = m_index x + length w
                /\ m_text x = w) ms.
Proof.
  induction fuel as [|fuel IH]; intros i inp ms H; [discriminate|].
  cbn [execLoop] in H. destruct (search r i inp) as [x|] eqn:E.
  - destruct (execLoop fuel r (m_end x) (m_rest x)) as [ms'|] eqn:L; [|discriminate].
    injection H as <-.
    apply ReFacts.search_sound in E as (pre & w & -> & M & Hi & He & Ht).
    constructor; [exists pre, w; auto|].
    apply IH in L. eapply Forall_impl; [exact L|].
    intros y (pre' & w' & Hr & M' & Hi' & He' & Ht').
    exists (pre ++ w ++ pre'), w'. rewrite Hr at 1. rewrite <- !app_assoc.
    split; [reflexivity|].
    replace (i + length (pre ++ w ++ pre')) with (m_end x + length pre')
      by (rewrite !length_app; lia).
    auto.
  - injection H as <-. constructor.
Qed.

Lemma clockRe_not_nullable : nullable clockRe = false.
Proof. reflexivity. Qed.

Lemma clockRe_first c :
  first clockRe c = true -> Js.isSpace c = false /\ c <> "{"%char /\ c <> "["%char.
Proof.
  destruct c as [[] [] [] [] [] [] [] []]; vm_compute; intros H;
    try discriminate H; repeat split; discriminate.
Qed.

(** The groups of a match of [clockRe]: the first one is the move. *)
Lemma clockRe_move i w rest cs :
  matches clockRe i w rest [] cs ->
  exists mv, cap 1 cs = Some mv /\ sanShaped mv.
Proof.
  unfold clockRe, Cat, Plus, Star. cbn [fold_right]. intros M.
  inversion M as [| | | |? ? ? w1 w2 ? ? cs1 ? M1 M2| | | | | | | |]; subst; clear M.
  inversion M1 as [| | | | | | | | | |? ? ? ? ? ? cs0 M0| |]; subst; clear M1.
  assert (cs0 = []) by (eapply matches_groupless; [exact M0|reflexivity]). subst cs0.
  exists w1. split; [|now exists i, (w2 ++ rest), [], []].
  open_match. repeat split_match; open_match; reflexivity.
Qed.

Lemma nth_in_blank ws ob tail :
  forallb Js.isSpace ws = true -> ob = [] \/ ob = ["{"%char] ->
  forall k d,
    k <= length ws + length ob ->
    nth_error (ws ++ ob ++ "["%char :: tail) k = Some d ->
    Js.isSpace d = true \/ d = "{"%char \/ d = "["%char.
Proof.
  intros Hws Hob. induction ws as [|s ws IH]; intros k d L E.
  - destruct Hob as [-> | ->]; simpl in *.
    + destruct k; [|lia]. injection E as <-. auto.
    + destruct k as [|[|k]]; [| |lia]; injection E as <-; auto.
  - simpl in Hws. apply andb_true_iff in Hws as [Hs Hws].
    destruct k as [|k]; simpl in E.
    + injection E as <-. auto.
    + apply (IH Hws k d); [simpl in L; lia|exact E].
Qed.

(** No match reaches over a check or mate mark to the annotation behind it. *)
Lemma mark_shields_annotation a c ws ob post pre w rest i cs :
  c = "+"%char \/ c = "#"%char ->
  forallb Js.isSpace ws = true -> ob = [] \/ ob = ["{"%char] ->
  a ++ c :: ws ++ ob ++ "[%clk" ++ post = pre ++ w ++ rest ->
  matches clockRe i w rest [] cs ->
  ~ (length pre <= length (a ++ c :: ws ++ ob) < length pre + length w).
Proof.
  intros Hc Hws Hob E M [L1 L2].
  rewrite length_app in L1, L2. cbn [length] in L1, L2. rewrite length_app in L1, L2.
  assert (A := ReFacts.matches_allowed _ _ _ _ _ _ M).
  destruct (Nat.le_gt_cases (length pre) (length a)) as [Lp | Lp].
  - assert (N : nth_error (pre ++ w ++ rest) (length a) = Some c).
    { rewrite <- E. rewrite nth_error_app2, Nat.sub_diag by lia. reflexivity. }
    rewrite nth_error_app2 in N by exact Lp.
    rewrite nth_error_app1 in N by lia.
    apply nth_error_In in N. rewrite forallb_forall in A. specialize (A _ N).
    destruct Hc as [-> | ->]; discriminate A.
  - destruct w as [|d w]; [simpl in L2; lia|].
    assert (F := matches_first _ _ _ _ _ _ M d w eq_refl).
    apply clockRe_first in F as (F1 & F2 & F3).
    assert (N : nth_error (a ++ c :: ws ++ ob ++ "[%clk" ++ post) (length pre) = Some d).
    { rewrite E. rewrite nth_error_app2, Nat.sub_diag by lia. reflexivity. }
    rewrite nth_error_app2 in N by lia.
    destruct (length pre - length a) as [|k] eqn:K; [lia|]. simpl in N.
    apply (nth_in_blank ws ob _ Hws Hob k d) in N; [|lia].
    destruct N as [N | [N | N]]; congruence.
Qed.

End ClockFacts.

(** C9.  The clock-extraction pass of [parseMovesAndClocks] returns for every
    text, and
    - every entry it emits pairs a clock with a move of the restricted shape
      [[NBRQK]?[a-h]?[1-8]?x?[a-h][1-8](=[NBRQK])?] or a castling, which
      holds neither [+] nor [#];
    - when a [+] or a [#] stands before a clock annotation (with white space
      and an opening brace, or nothing, between them), no match of the
      pattern covers that annotation: its clock is paired with no move, and
      the checking move gets no entry;
    - in the game [1. e4 e5 2. Qh5 Nc6 3. Bc4 Nf6 4. Qxf7#] with a clock
      after every move, the list has the first six moves and not the mate. *)
Theorem clock_pairs_skip_checked_moves :
  (forall pgn, exists r n,
      forall fuel, n <= fuel -> ChessFetcher.parseMovesAndClocks fuel pgn = Some r)
  /\ (forall pgn fuel r entries,
        ChessFetcher.parseMovesAndClocks fuel pgn = Some r ->
        ChessFetcher.moves r = Some entries ->
        Forall (fun e => Spec.sanShaped (ChessFetcher.move e)
                         /\ ~ In "+"%char (ChessFetcher.move e)
                         /\ ~ In "#"%char (ChessFetcher.move e)) entries)
  /\ (forall a c ws ob post fuel found,
        c = "+"%char \/ c = "#"%char ->
        forallb Js.isSpace ws = true ->
        ob = [] \/ ob = ["{"%char] ->
        Re.execLoop fuel ChessFetcher.clockRe 0 (a ++ c :: ws ++ ob ++ "[%clk" ++ post)
        = Some found ->
        Forall (fun x => ~ (Re.m_index x <= length (a ++ c :: ws ++ ob) < Re.m_end x)) found)
  /\ (let game : str :=
        "[Event " ++ [GameAnalyzer.quote] ++ "Live Chess" ++ [GameAnalyzer.quote] ++ "]"
        ++ [ChessFetcher.nl; ChessFetcher.nl]
        ++ "1. e4 {[%clk 0:09:59.9]} 1... e5 {[%clk 0:09:58]} "
        ++ "2. Qh5 {[%clk 0:09:50]} 2... Nc6 {[%clk 0:09:40]} "
        ++ "3. Bc4 {[%clk 0:09:30]} 3... Nf6 {[%clk 0:09:20]} "
        ++ "4. Qxf7# {[%clk 0:09:10]} 1-0" in
      option_map (fun r => option_map (List.map ChessFetcher.move) (ChessFetcher.moves r))
                 (ChessFetcher.parseMovesAndClocks 100 game)
      = Some (Some ["e4" : str; "e5" : str; "Qh5" : str; "Nc6" : str;
                    "Bc4" : str; "Nf6" : str])).
Proof.
  split; [|split; [|split]].
  - intros [|c pgn].
    + exists (ChessFetcher.mkMoves None 0 0), 0. reflexivity.
    + set (section := ChessFetcher.moveSection (c :: pgn)).
      destruct (ReFacts.execLoop_total ChessFetcher.clockRe ClockFacts.clockRe_not_nullable
                  (S (length section)) section 0) as [found H]; [lia|].
      eexists _, (S (length section)). intros fuel L.
      unfold ChessFetcher.parseMovesAndClocks. fold section.
      rewrite (ReFacts.execLoop_more _ _ fuel _ _ _ H L). reflexivity.
  - intros [|c pgn] fuel r entries H E.
    + injection H as <-. discriminate E.
    + unfold ChessFetcher.parseMovesAndClocks in H.
      destruct (Re.execLoop fuel ChessFetcher.clockRe 0 (ChessFetcher.moveSection (c :: pgn)))
        as [found|] eqn:L; [|discriminate H].
      injection H as <-. cbn [ChessFetcher.moves] in E. injection E as <-.
      apply ClockFacts.execLoop_sound in L.
      apply Forall_map. eapply Forall_impl; [exact L|].
      intros x (pre & w & _ & M & _).
      apply ClockFacts.clockRe_move in M as (mv & G & S).
      unfold ChessFetcher.clockOf, Re.group. cbn [ChessFetcher.move]. rewrite G.
      cbn [ChessFetcher.orEmpty default]. split; [exact S|].
      destruct S as (i & rest & cs & cs' & S).
      apply ReFacts.matches_allowed in S. rewrite forallb_forall in S.
      split; intros N; specialize (S _ N); discriminate S.
  - intros a c ws ob post fuel found Hc Hws Hob L.
    apply ClockFacts.execLoop_sound in L. eapply Forall_impl; [exact L|].
    intros x (pre & w & E & M & Hi & He & _). rewrite Hi, He, Hi. cbn [Nat.add].
    eapply ClockFacts.mark_shields_annotation; eauto.
  - vm_compute. reflexivity.
Qed.

Lemma clock_pairs_skip_checked_moves_witness :
  let a : str := "1. e4 {[%clk 0:10:00]} e5 {[%clk 0:09:58]} 2. Qh5" in
  let text : str := a ++ "+"%char :: " " ++ "{" ++ "[%clk" ++ " 0:09:50]}" in
  ("+"%char = "+"%char \/ "+"%char = "#"%char)
  /\ forallb Js.isSpace " " = true
  /\ (("{" : str) = [] \/ ("{" : str) = ["{"%char])
  /\ exists found,
      Re.execLoop 10 ChessFetcher.clockRe 0 text = Some found
      /\ List.map Re.m_text found
         = ["e4 {[%clk 0:10:00]}" : str; "e5 {[%clk 0:09:58]}" : str]
      /\ Forall (fun x => ~ (Re.m_index x <= length (a ++ "+"%char :: " " ++ "{") < Re.m_end x))
                found.
Proof.
  intros a text.
  assert (Hc : "+"%char = "+"%char \/ "+"%char = "#"%char) by (left; reflexivity).
  assert (Hws : forallb Js.isSpace " " = true) by reflexivity.
  assert (Hob : ("{" : str) = [] \/ ("{" : str) = ["{"%char]) by (right; reflexivity).
  split; [exact Hc|]. split; [exact Hws|]. split; [exact Hob|].
  destruct (Re.execLoop 10 ChessFetcher.clockRe 0 text) as [found|] eqn:E;
    [|vm_compute in E; discriminate E].
  exists found. split; [reflexivity|]. split.
  - vm_compute in E. injection E as <-. reflexivity.
  - destruct clock_pairs_skip_checked_moves as (_ & _ & H & _).
    exact (H a "+"%char " " "{" " 0:09:50]}" 10 found Hc Hws Hob E).
Defined.

(* ================================================================= *)
(** * Further properties

    Properties of the functions around the ten statements: the rest of the
    opening pipeline, the game records, the ratings ledger and the
    analyzer. *)

(** ** The matcher finds what there is to find *)

Module MatcherFacts.
Import Re Spec Notions ReFacts.

Lemma no_success {A B} : is_Some (@None A) <-> is_Some (@None B).
Proof. split; intros [? ?]; discriminate. Qed.

Lemma orelse_succeeds {A B} (a a' : option A) (b b' : option B) :
  (is_Some a <-> is_Some b) -> (is_Some a' <-> is_Some b') ->
  is_Some (match a with Some x => Some x | None => a' end)
  <-> is_Some (match b with Some x => Some x | None => b' end).
Proof.
  intros H H'. destruct a, b.
  - split; eauto.
  - destruct H as [H _]. destruct H as [? ?]; [eauto|discriminate].
  - destruct H as [_ H]. destruct H as [? ?]; [eauto|discriminate].
  - exact H'.
Qed.

Lemma rep_succeeds {A B} (p : ascii -> bool) (k : nat -> str -> option A)
      (k' : nat -> str -> option B) :
  (forall i inp, is_Some (k i inp) <-> is_Some (k' i inp)) ->
  forall inp lo hi i, is_Some (rep p lo hi k i inp) <-> is_Some (rep p lo hi k' i inp).
Proof.
  intros K. induction inp as [|c inp IH]; intros lo hi i; simpl.
  - destruct (Nat.eqb lo 0); [apply K|apply no_success].
  - assert (S0 : is_Some (if Nat.eqb lo 0 then k i (c :: inp) else None)
                 <-> is_Some (if Nat.eqb lo 0 then k' i (c :: inp) else None)).
    { destruct (Nat.eqb lo 0); [apply K|apply no_success]. }
    destruct (p c && more hi); [|exact S0].
    apply orelse_succeeds; [apply IH|exact S0].
Qed.

(** Capturing groups do not change where an expression matches. *)
Lemma run_erase {A B} (r : re) :
  forall (k : nat -> str -> caps -> option A) (k' : nat -> str -> caps -> option B),
    (forall i inp cs cs', is_Some (k i inp cs) <-> is_Some (k' i inp cs')) ->
    forall i inp cs cs', is_Some (run r k i inp cs) <-> is_Some (run (erase r) k' i inp cs').
Proof.
  induction r as [|c|p|s|r1 IH1 r2 IH2|r1 IH1 r2 IH2|r1 IH1|lo hi p|n r1 IH1| |];
    intros k k' K i inp cs cs'; simpl.
  - apply K.
  - destruct inp as [|x inp]; [apply no_success|].
    destruct (Ascii.eqb x c); [apply K|apply no_success].
  - destruct inp as [|x inp]; [apply no_success|].
    destruct (p x); [apply K|apply no_success].
  - destruct (Js.stripPrefix s inp); [apply K|apply no_success].
  - apply IH1. intros. now apply IH2.
  - apply orelse_succeeds; [now apply IH1|now apply IH2].
  - apply orelse_succeeds; [now apply IH1|apply K].
  - apply rep_succeeds. intros. apply K.
  - apply IH1. intros. apply K.
  - destruct (Nat.eqb i 0); [apply K|apply no_success].
  - destruct inp; [apply K|apply no_success].
Qed.

Lemma search_erase (r : re) inp :
  forall i, is_Some (search r i inp) <-> is_Some (search (erase r) i inp).
Proof.
  assert (E : forall i inp, is_Some (execAt r i inp) <-> is_Some (execAt (erase r) i inp)).
  { intros. unfold execAt. apply run_erase. intros. split; eauto. }
  induction inp as [|c inp IH]; intros i; simpl.
  - apply orelse_succeeds; [apply E|apply no_success].
  - apply orelse_succeeds; [apply E|apply IH].
Qed.

Lemma test_erase (r : re) s : test (erase r) s = test r s.
Proof.
  unfold test, exec. pose proof (search_erase r s 0) as E.
  destruct (search r 0 s), (search (erase r) 0 s); auto.
  - destruct E as [E _]. destruct E as [? ?]; [eauto|discriminate].
  - destruct E as [_ E]. destruct E as [? ?]; [eauto|discriminate].
Qed.

(** The matcher finds every match there is: when [r] can consume [w] and the
    rest of the pattern succeeds after it, the run succeeds. *)
Lemma rep_complete {A} (p : ascii -> bool) (k : nat -> str -> option A) :
  forall w lo hi i rest,
    forallb p w = true -> lo <= length w -> within hi (length w) ->
    is_Some (k (i + length w) rest) -> is_Some (rep p lo hi k i (w ++ rest)).
Proof.
  induction w as [|c w IH]; intros lo hi i rest P L W K; simpl in *.
  - assert (lo = 0) by lia. subst lo. rewrite Nat.add_0_r in K.
    destruct rest as [|d rest]; simpl; [exact K|].
    destruct (p d && more hi); [|exact K].
    destruct (rep p 0 (decr hi) k (S i) rest); [eauto|exact K].
  - apply andb_true_iff in P as [Pc P].
    rewrite Pc. simpl.
    assert (M : more hi = true) by (destruct hi as [[|h]|]; simpl in *; auto; lia).
    rewrite M.
    assert (R : is_Some (rep p (pred lo) (decr hi) k (S i) (w ++ rest))).
    { apply IH; auto; [lia| |].
      - destruct hi as [h|]; simpl in *; auto; lia.
      - now replace (S i + length w) with (i + S (length w)) by lia. }
    destruct R as [x ->]. eauto.
Qed.

Lemma run_complete {A} r i w rest cs cs' :
  matches r i w rest cs cs' ->
  forall (k : nat -> str -> caps -> option A),
    is_Some (k (i + length w) rest cs') -> is_Some (run r k i (w ++ rest) cs).
Proof.
  induction 1; intros k K; simpl in *.
  - now rewrite Nat.add_0_r in K.
  - rewrite Ascii.eqb_refl. now rewrite Nat.add_1_r in K.
  - rewrite H. now rewrite Nat.add_1_r in K.
  - now rewrite stripPrefix_here.
  - rewrite <- app_assoc. apply IHmatches1. apply IHmatches2.
    now rewrite length_app, Nat.add_assoc in K.
  - destruct (IHmatches k K) as [x ->]. eauto.
  - destruct (run r1 k i (w ++ rest) cs); [eauto|]. now apply IHmatches.
  - rewrite Nat.add_0_r in K. destruct (run r k i rest cs); [eauto|exact K].
  - destruct (IHmatches k K) as [x ->]. eauto.
  - now apply rep_complete.
  - apply IHmatches. now rewrite firstn_exact.
  - exact K.
  - now rewrite Nat.add_0_r in K.
Qed.

Lemma execAt_complete r i w rest cs' :
  matches r i w rest [] cs' -> is_Some (execAt r i (w ++ rest)).
Proof. intros M. unfold execAt. eapply run_complete; eauto. Qed.

End MatcherFacts.


Module FormatFacts.
Import Re ChessFetcher Spec Notions ReFacts MatcherFacts.

Lemma skipRun_eq p s : s = (skipRun p s).1 ++ (skipRun p s).2.
Proof.
  induction s as [|c s IH]; simpl; [reflexivity|].
  destruct (p c); simpl; [now f_equal|reflexivity].
Qed.

Lemma skipRun_run p s : forallb p (skipRun p s).1 = true.
Proof.
  induction s as [|c s IH]; simpl; [reflexivity|].
  destruct (p c) eqn:E; simpl; [now rewrite E|reflexivity].
Qed.

Lemma skipRun_app p ds r :
  forallb p ds = true ->
  match r with [] => True | c :: _ => p c = false end ->
  skipRun p (ds ++ r) = (ds, r).
Proof.
  intros D R. induction ds as [|d ds IH]; simpl in *.
  - destruct r as [|c r]; [reflexivity|]. simpl. now rewrite R.
  - apply andb_true_iff in D as [Dd D]. rewrite Dd, (IH D). reflexivity.
Qed.

Lemma dots_no_digit r :
  forallb isDot r = true -> match r with [] => True | c :: _ => Js.isDigit c = false end.
Proof.
  destruct r as [|c r]; simpl; [auto|]. intros H. apply andb_true_iff in H as [H _].
  unfold isDot in H. apply Ascii.eqb_eq in H. now subst c.
Qed.

Lemma search_succeeds r i inp : is_Some (execAt r i inp) -> is_Some (search r i inp).
Proof. intros [x E]. destruct inp; simpl; rewrite E; eauto. Qed.

(** What [/^(\d+)(\.{0,3})$/] accepts, and what its groups hold. *)
Lemma moveNumRe_match t m :
  exec moveNumRe t = Some m ->
  exists ds dots, t = ds ++ dots /\ ds <> [] /\ forallb Js.isDigit ds = true
                  /\ forallb isDot dots = true /\ length dots <= 3
                  /\ group 1 m = Some ds /\ group 2 m = Some dots.
Proof.
  unfold exec. intros H.
  apply search_sound in H as (pre & w & -> & M & _ & _ & _).
  unfold moveNumRe, Cat in M. simpl in M.
  open_match.
  repeat match goal with
         | H : matches Bol _ _ _ _ _ |- _ => inversion H; subst; clear H
         | H : matches Eol _ _ _ _ _ |- _ => inversion H; subst; clear H
         end.
  unfold Plus in *. open_match.
  destruct pre; [|discriminate].
  match goal with H : _ = m_caps m |- _ => rename H into Hc end.
  exists w0, w2. unfold group. rewrite <- Hc. simpl in *.
  rewrite !app_nil_r.
  repeat split; auto.
  destruct w0; simpl in *; [lia|discriminate].
Qed.

Lemma moveNumRe_accepts ds dots :
  ds <> [] -> forallb Js.isDigit ds = true -> forallb isDot dots = true -> length dots <= 3 ->
  is_Some (exec moveNumRe (ds ++ dots)).
Proof.
  intros N D T L. unfold exec. apply search_succeeds.
  assert (M : matches moveNumRe 0 ([] ++ ds ++ dots ++ [] ++ []) [] []
                      [(2, dots); (1, ds)]).
  { unfold moveNumRe, Cat. cbn [fold_right].
    apply M_Seq with (cs1 := []); [apply M_Bol|].
    apply M_Seq with (cs1 := [(1, ds)]).
    { apply M_Grp, M_Rep; [assumption| |exact I]. destruct ds; simpl; [congruence|lia]. }
    apply M_Seq with (cs1 := [(2, dots); (1, ds)]).
    { apply M_Grp, M_Rep; [assumption|lia|exact L]. }
    apply M_Seq with (cs1 := [(2, dots); (1, ds)]); [apply M_Eol|apply M_Eps]. }
  apply execAt_complete in M. simpl in M. now rewrite !app_nil_r in M.
Qed.

Lemma moveNumber_some t ds n :
  moveNumber t = Some (ds, n) ->
  exists dots, t = ds ++ dots /\ ds <> [] /\ forallb Js.isDigit ds = true
               /\ forallb isDot dots = true /\ length dots <= 3 /\ n = length dots.
Proof.
  unfold moveNumber. intros H.
  pose proof (skipRun_eq Js.isDigit t) as E. pose proof (skipRun_run Js.isDigit t) as D.
  destruct (nonEmpty (fst (skipRun Js.isDigit t)) && forallb isDot (snd (skipRun Js.isDigit t))
            && (length (snd (skipRun Js.isDigit t)) <=? 3)) eqn:G; [|discriminate].
  inversion H; subst. apply andb_true_iff in G as [G L]. apply andb_true_iff in G as [G T].
  exists (snd (skipRun Js.isDigit t)). apply Nat.leb_le in L.
  repeat split; auto. intros Z. rewrite Z in G. discriminate.
Qed.

Lemma moveNumber_of ds dots :
  ds <> [] -> forallb Js.isDigit ds = true -> forallb isDot dots = true -> length dots <= 3 ->
  moveNumber (ds ++ dots) = Some (ds, length dots).
Proof.
  intros N D T L. unfold moveNumber.
  rewrite (skipRun_app Js.isDigit ds dots D (dots_no_digit dots T)). simpl.
  rewrite T. destruct ds; [congruence|]. simpl.
  apply Nat.leb_le in L. now rewrite L.
Qed.

Lemma three_dots dots :
  forallb isDot dots = true -> strEq dots "..." = bool_decide (length dots = 3).
Proof.
  intros T. unfold strEq. apply bool_decide_ext. split; [now intros ->|].
  intros L. destruct dots as [|a [|b [|c [|d dots]]]]; try discriminate.
  simpl in T.
  apply andb_true_iff in T as [Ta T]. apply andb_true_iff in T as [Tb T].
  apply andb_true_iff in T as [Tc _].
  unfold isDot in *. apply Ascii.eqb_eq in Ta, Tb, Tc. now subst.
Qed.

(** The rewriting of one token, as the loop does it for a token it reads
    first. *)
Lemma token_rewritten t :
  match exec moveNumRe t with
  | Some m => if strEq (default [] (group 2 m)) "..."
              then default [] (group 1 m) ++ "..." else default [] (group 1 m) ++ "."
  | None => t
  end = rewriteToken t.
Proof.
  unfold rewriteToken.
  destruct (exec moveNumRe t) as [m|] eqn:E.
  - apply moveNumRe_match in E as (ds & dots & -> & N & D & T & L & G1 & G2).
    rewrite G1, G2, (moveNumber_of ds dots N D T L). unfold from_option, id.
    rewrite (three_dots dots T).
    destruct dots as [|a [|b [|c [|d dots]]]]; simpl in *; try reflexivity; lia.
  - destruct (moveNumber t) as [[ds n]|] eqn:M; [|reflexivity].
    apply moveNumber_some in M as (dots & -> & N & D & T & L & _).
    destruct (moveNumRe_accepts ds dots N D T L) as [x X]. congruence.
Qed.

Lemma not_a_number t : test isMoveNumRe t = false -> rewriteToken t = t.
Proof.
  intros H. change isMoveNumRe with (erase moveNumRe) in H. rewrite test_erase in H.
  rewrite <- token_rewritten. unfold test in H.
  destruct (exec moveNumRe t); [discriminate|reflexivity].
Qed.

Lemma formatTokens_map_upto n :
  forall tokens, length tokens <= n -> formatTokens tokens = List.map rewriteToken tokens.
Proof.
  induction n as [|n IH]; intros tokens L.
  - destruct tokens; [reflexivity|simpl in L; lia].
  - destruct tokens as [|token rest]; [reflexivity|]. simpl in L.
    cbn [formatTokens List.map]. rewrite <- (token_rewritten token).
    destruct (exec moveNumRe token) as [m|]; [|f_equal; apply IH; lia].
    destruct (strEq (default [] (group 2 m)) "...").
    + f_equal. destruct rest as [|t1 rest1]; [reflexivity|].
      destruct (test isMoveNumRe t1) eqn:T1; cbn [negb].
      * apply IH. simpl in *. lia.
      * cbn [List.map]. rewrite (not_a_number t1 T1). f_equal. apply IH. simpl in *. lia.
    + f_equal. destruct rest as [|t1 rest1]; [reflexivity|].
      destruct (test isMoveNumRe t1) eqn:T1; cbn [negb].
      * apply IH. simpl in *. lia.
      * cbn [List.map]. rewrite (not_a_number t1 T1). f_equal.
        destruct rest1 as [|t2 rest2]; [reflexivity|].
        destruct (test isMoveNumRe t2) eqn:T2; cbn [negb].
        -- apply IH. simpl in *. lia.
        -- cbn [List.map]. rewrite (not_a_number t2 T2). f_equal. apply IH. simpl in *. lia.
Qed.



(** A greedy repetition followed by a pattern that accepts anything takes
    the whole run. *)
Lemma rep_takes_run {A} (p : ascii -> bool) (k : nat -> str -> option A) :
  (forall j s, is_Some (k j s)) ->
  forall inp lo i,
    lo <= length (skipRun p inp).1 ->
    rep p lo None k i inp = k (i + length (skipRun p inp).1) (skipRun p inp).2.
Proof.
  intros K. induction inp as [|c inp IH]; intros lo i L; simpl in *.
  - assert (lo = 0) by lia. subst. simpl. now rewrite Nat.add_0_r.
  - destruct (p c) eqn:P; simpl in *.
    + rewrite (IH (pred lo) (S i)) by lia.
      replace (S i + length (skipRun p inp).1) with (i + S (length (skipRun p inp).1)) by lia.
      destruct (K (i + S (length (skipRun p inp).1)) (skipRun p inp).2) as [x ->]. reflexivity.
    + assert (lo = 0) by lia. subst. simpl. now rewrite Nat.add_0_r.
Qed.

Lemma anchored_later r inp : forall i, search (Seq Bol r) (S i) inp = None.
Proof. induction inp as [|c inp IH]; intros i; simpl; [reflexivity|apply IH]. Qed.

(** [slug.replace(/^[-\.]+/, '')] drops the hyphens and dots the text begins
    with. *)
Lemma leadRe_strips t : replaceFirst leadRe "" t = (skipRun (Js.oneOf "-.") t).2.
Proof.
  unfold replaceFirst, exec, leadRe.
  destruct t as [|c t].
  - reflexivity.
  - cbn [search]. unfold execAt, Plus. cbn [run Nat.eqb].
    destruct (Js.oneOf "-." c) eqn:P.
    + rewrite rep_takes_run.
      * cbn [m_index m_rest firstn app]. reflexivity.
      * intros; eauto.
      * cbn [skipRun]. rewrite P. simpl. lia.
    + cbn [rep skipRun]. rewrite P. cbn [andb Nat.eqb]. rewrite anchored_later. reflexivity.
Qed.

Lemma filter_nonEmpty_nil : List.filter nonEmpty (Js.split "-" []) = [].
Proof. reflexivity. Qed.

Lemma formatExtraMoves_tokens s :
  formatExtraMoves s
  = Js.join " " (List.map rewriteToken (tokensOf s)).
Proof.
  unfold formatExtraMoves, tokensOf.
  destruct (Js.trim s) as [|c t] eqn:E; [reflexivity|].
  rewrite leadRe_strips.
  destruct ((skipRun (Js.oneOf "-.") (c :: t)).2) as [|d u]; [reflexivity|].
  destruct (List.filter nonEmpty (Js.split "-" (d :: u))) as [|tk tks] eqn:F; [reflexivity|].
  now rewrite (formatTokens_map_upto (length (tk :: tks))).
Qed.

Lemma splitGo_char c s :
  forall cur, ~ In c cur -> Forall (fun p => ~ In c p) (Js.splitGo [c] 0 cur s).
Proof.
  induction s as [|x s IH]; intros cur N; simpl.
  - constructor; [|constructor]. now rewrite <- in_rev.
  - unfold Js.startsWith. simpl. destruct (Ascii.eqb x c) eqn:E.
    + constructor; [now rewrite <- in_rev|]. apply IH. intros [].
    + apply IH. intros [->|I]; [|auto]. now rewrite Ascii.eqb_refl in E.
Qed.

Lemma rewriteToken_chars c t :
  Js.isDigit c = false -> isDot c = false -> ~ In c t -> ~ In c (rewriteToken t).
Proof.
  intros Hd Ht N. unfold rewriteToken.
  destruct (moveNumber t) as [[ds n]|] eqn:M; [|exact N].
  apply moveNumber_some in M as (dots & -> & _ & D & _).
  assert (Nd : ~ In c ds).
  { intros I. rewrite forallb_forall in D. rewrite (D c I) in Hd. discriminate. }
  assert (Q : forall k, ~ In c (ds ++ repeat "."%char k)).
  { intros k I. apply in_app_or in I as [I|I]; [auto|].
    apply repeat_spec in I. subst c. discriminate. }
  destruct n as [|[|[|[|n]]]]; first [apply (Q 1)|apply (Q 3)].
Qed.

Lemma join_chars c sep parts :
  ~ In c sep -> Forall (fun p => ~ In c p) parts -> ~ In c (Js.join sep parts).
Proof.
  intros Ns F. induction F as [|p parts Hp F IH]; simpl; [auto|].
  destruct parts as [|q parts]; [exact Hp|].
  intros I. apply in_app_or in I as [I|I]; [auto|].
  apply in_app_or in I as [I|I]; auto.
Qed.

End FormatFacts.

(** X1.  [formatExtraMoves] handles its tokens one by one: the text is
    trimmed, the hyphens and dots it begins with are dropped, it is cut at
    the hyphens, the empty pieces are left out, and each piece that is a move
    number (digits and at most three dots) is written with one dot, or with
    three when it has three, while every other piece stays as it is.  The
    look-ahead after a move number changes nothing. *)
Theorem formatExtraMoves_token_by_token (s : str) :
  ChessFetcher.formatExtraMoves s
  = Js.join " " (List.map Notions.rewriteToken (Notions.tokensOf s)).
Proof. apply FormatFacts.formatExtraMoves_tokens. Qed.

(** X2.  The text [formatExtraMoves] returns holds no hyphen, whatever the
    input: a castling among the extra moves comes out in two pieces. *)
Theorem formatExtraMoves_drops_hyphens (s : str) :
  ~ In "-"%char (ChessFetcher.formatExtraMoves s)
  /\ ChessFetcher.formatExtraMoves "-7.Bb3-O-O" = "7.Bb3 O O".
Proof.
  split; [|reflexivity].
  rewrite FormatFacts.formatExtraMoves_tokens.
  apply FormatFacts.join_chars; [intros [E|[]]; discriminate|].
  apply List.Forall_forall. intros t I. apply in_map_iff in I as (t0 & <- & I).
  apply FormatFacts.rewriteToken_chars; [reflexivity|reflexivity|].
  unfold Notions.tokensOf in I. apply filter_In in I as [I _].
  pose proof (FormatFacts.splitGo_char "-"
                (Notions.skipRun (Js.oneOf "-.") (Js.trim s)).2 [] (fun F => F)) as H.
  rewrite List.Forall_forall in H. apply H. exact I.
Qed.

(** ** Where a slug is cut *)

Module SlugFacts.
Import Re ChessFetcher Spec Notions ReFacts SplitFacts.

Lemma three_dots_run (w : str) :
  forallb isDot w = true -> 3 <= length w -> within (Some 3) (length w) -> w = "...".
Proof.
  intros H L U. destruct w as [|x1 [|x2 [|x3 [|x4 u]]]]; simpl in L, U; try lia.
  simpl in H.
  repeat match goal with H : _ && _ = true |- _ => apply andb_true_iff in H as [? H] end.
  unfold isDot in *.
  repeat match goal with H : Ascii.eqb _ _ = true |- _ => apply Ascii.eqb_eq in H; subst end.
  reflexivity.
Qed.

Lemma run_number (w : str) : forallb Js.isDigit w = true -> 1 <= length w -> number w.
Proof. intros H L. split; [|exact H]. intros ->. simpl in L. lia. Qed.

(** A match of the move expression, and the text it stands in. *)
Lemma movePattern_start j w rest cs cs' :
  matches movePattern j w rest cs cs' -> moveStart (w ++ rest).
Proof.
  unfold movePattern, Cat, Times, Plus. cbn [fold_right]. intros M.
  open_match. split_match; [|split_match]; open_match.
  - left.
    match goal with
    | H : forallb Js.isDigit ?ds = true, L : 1 <= length ?ds,
      T : forallb isDot ?dots = true, U : within (Some 3) (length ?dots),
      A : Js.isAlpha ?c = true |- _ =>
        exists ds, dots, c, rest; split; [|split; [now apply run_number|auto]]
    end.
    simpl. now rewrite <- !app_assoc.
  - right. left.
    match goal with
    | H : forallb Js.isDigit ?ds = true, L : 1 <= length ?ds,
      T : forallb isDot ?dots = true, L3 : 3 <= length ?dots,
      U : within (Some 3) (length ?dots) |- _ =>
        rewrite (three_dots_run dots T L3 U);
        exists ds, rest; split; [|now apply run_number]
    end.
    simpl. now rewrite <- !app_assoc.
  - right. right.
    match goal with
    | T : forallb isDot ?dots = true, L3 : 3 <= length ?dots,
      U : within (Some 3) (length ?dots), A : Js.isAlpha ?c = true |- _ =>
        rewrite (three_dots_run dots T L3 U); exists c, rest; split; [reflexivity|exact A]
    end.
Qed.

(** A text that begins with a move sequence begins with a match. *)
Lemma moveStart_match s j :
  moveStart s -> exists w rest cs, s = w ++ rest /\ matches movePattern j w rest [] cs.
Proof.
  unfold movePattern, Cat, Times, Plus. cbn [fold_right].
  intros [(ds & dots & c & tl & -> & [N D] & T & L & A)
         |[(ds & tl & -> & [N D])|(c & tl & -> & A)]].
  - exists ("-" ++ ds ++ dots ++ [c] ++ []), tl, [(1, "-" ++ ds ++ dots ++ [c] ++ [])].
    split; [simpl; now rewrite <- !app_assoc|].
    apply M_Grp, M_AltL.
    apply M_Seq with (w1 := ["-"%char]) (cs1 := []); [apply M_Chr|].
    apply M_Seq with (cs1 := []);
      [apply M_Rep; [exact D|destruct ds; [congruence|simpl; lia]|exact I]|].
    apply M_Seq with (cs1 := []); [apply M_Rep; [exact T|lia|exact L]|].
    apply M_Seq with (cs1 := []); [now apply M_Cls|apply M_Eps].
  - exists ("..." ++ ds ++ "." ++ []), tl, [(1, "..." ++ ds ++ "." ++ [])].
    split; [simpl; now rewrite <- !app_assoc|].
    apply M_Grp, M_AltR, M_AltL.
    apply M_Seq with (w1 := ("..." : str)) (cs1 := []);
      [apply M_Rep; [reflexivity|simpl; lia|simpl; lia]|].
    apply M_Seq with (cs1 := []);
      [apply M_Rep; [exact D|destruct ds; [congruence|simpl; lia]|exact I]|].
    apply M_Seq with (w1 := ["."%char]) (cs1 := []); [apply M_Chr|apply M_Eps].
  - exists ("..." ++ [c] ++ []), tl, [(1, "..." ++ [c] ++ [])].
    split; [reflexivity|].
    apply M_Grp, M_AltR, M_AltR.
    apply M_Seq with (w1 := ("..." : str)) (cs1 := []);
      [apply M_Rep; [reflexivity|simpl; lia|simpl; lia]|].
    apply M_Seq with (w1 := [c]) (cs1 := []); [now apply M_Cls|apply M_Eps].
Qed.

(** The search returns a match that begins no later than any place where
    the expression matches. *)
Lemma search_leftmost r pre :
  forall s i,
    is_Some (execAt r (i + length pre) s) ->
    exists x, search r i (pre ++ s) = Some x /\ m_index x <= i + length pre.
Proof.
  induction pre as [|c pre IH]; intros s i [y Y].
  - simpl in *. rewrite Nat.add_0_r in Y.
    exists y. split; [destruct s; simpl; now rewrite Y|].
    apply execAt_sound in Y as (w & _ & _ & -> & _). lia.
  - cbn [app search]. destruct (execAt r i (c :: pre ++ s)) as [x|] eqn:X.
    + exists x. split; [reflexivity|].
      apply execAt_sound in X as (w & _ & _ & -> & _). lia.
    + destruct (IH s (S i)) as (x & E & L).
      * exists y. rewrite <- Y. f_equal. simpl. lia.
      * exists x. split; [exact E|]. simpl. lia.
Qed.

Lemma lowerChar_idem c : Js.lowerChar (Js.lowerChar c) = Js.lowerChar c.
Proof. destruct c as [[] [] [] [] [] [] [] []]; reflexivity. Qed.

Lemma toLowerCase_idem s : Js.toLowerCase (Js.toLowerCase s) = Js.toLowerCase s.
Proof.
  unfold Js.toLowerCase. rewrite List.map_map. apply List.map_ext. intros. apply lowerChar_idem.
Qed.

(** The remainder found by the search for a move sequence. *)
Lemma extra_at_start slug m :
  exec movePattern slug = Some m -> moveStart (skipn (m_index m) slug).
Proof.
  unfold exec. intros E.
  apply search_sound in E as (pre & w & -> & M & I & _). simpl in I. rewrite I.
  rewrite skipn_app, Nat.sub_diag, skipn_all. simpl.
  eapply movePattern_start; eauto.
Qed.

(** The search for a move sequence stops at the first one. *)
Lemma first_move_found slug pre s :
  slug = pre ++ s -> moveStart s ->
  exists m, exec movePattern slug = Some m /\ m_index m <= length pre.
Proof.
  intros -> S. destruct (moveStart_match s (0 + length pre) S) as (w & rest & cs & -> & M).
  apply MatcherFacts.execAt_complete in M.
  destruct (search_leftmost movePattern pre (w ++ rest) 0 M) as (x & E & L).
  exists x. split; [exact E|exact L].
Qed.

Lemma no_with_no_clause full :
  ~ contains "with-" full -> matchAll withRe full = [].
Proof.
  intros N. apply matchAll_none, search_none.
  intros pre w rest j cs E M. apply withRe_shape in M as (d & ds & tl & -> & _).
  apply N. exists pre, (((d :: ds) ++ "-" ++ tl) ++ rest). unfold occurs.
  rewrite E. now rewrite <- !app_assoc.
Qed.

End SlugFacts.

(** X3.  Whatever the URL, the base slug [splitEcoUrl] returns is in lower
    case, and the extra moves it returns are empty or begin with a move
    sequence: a hyphen, a number, at most three dots and a letter, or three
    dots followed by a number and a dot or by a letter. *)
Theorem splitEcoUrl_cuts_at_a_move (ecoUrl : str) :
  let parts := ChessFetcher.splitEcoUrl ecoUrl in
  Js.toLowerCase (ChessFetcher.baseSlug parts) = ChessFetcher.baseSlug parts
  /\ (ChessFetcher.extraMoves parts = [] \/ Notions.moveStart (ChessFetcher.extraMoves parts)).
Proof.
  unfold ChessFetcher.splitEcoUrl.
  destruct (negb (Js.includes "chess.com/openings/" ecoUrl)); [simpl; auto|].
  destruct (nth 1 (Js.split "/openings/" ecoUrl) []) as [|c full]; [simpl; auto|].
  set (found := Re.matchAll ChessFetcher.withRe (c :: full)).
  set (slug := Re.splice _ 0 0 (c :: full) found).
  destruct (Re.exec ChessFetcher.movePattern slug) as [m|] eqn:E; cbn [ChessFetcher.baseSlug ChessFetcher.extraMoves].
  - split; [apply SlugFacts.toLowerCase_idem|]. right. now apply SlugFacts.extra_at_start.
  - split; [apply SlugFacts.toLowerCase_idem|]. now left.
Qed.

(** X4.  A URL of the opening pages whose slug holds no [with-] is split
    without loss at the first move sequence: the lower-cased slug is the
    base slug followed by the lower-cased extra moves, and wherever a move
    sequence begins in the slug, the base slug ends there or before. *)
Theorem splitEcoUrl_splits_the_slug (ecoUrl : str) :
  Js.includes "chess.com/openings/" ecoUrl = true ->
  ~ Spec.contains "with-" (Notions.slugOf ecoUrl) ->
  let parts := ChessFetcher.splitEcoUrl ecoUrl in
  Js.toLowerCase (Notions.slugOf ecoUrl)
  = ChessFetcher.baseSlug parts ++ Js.toLowerCase (ChessFetcher.extraMoves parts)
  /\ forall pre s, Notions.slugOf ecoUrl = pre ++ s -> Notions.moveStart s ->
                   length (ChessFetcher.baseSlug parts) <= length pre.
Proof.
  intros G N. unfold ChessFetcher.splitEcoUrl. rewrite G. cbn [negb].
  unfold Notions.slugOf in *.
  destruct (nth 1 (Js.split "/openings/" ecoUrl) []) as [|c full] eqn:F.
  { split; [reflexivity|]. intros pre s E S. simpl. lia. }
  rewrite (SlugFacts.no_with_no_clause _ N). cbn [List.map Re.splice ChessFetcher.restore].
  destruct (Re.exec ChessFetcher.movePattern (c :: full)) as [m|] eqn:X;
    cbn [ChessFetcher.baseSlug ChessFetcher.extraMoves].
  - split.
    + unfold Js.toLowerCase. rewrite <- List.map_app. now rewrite firstn_skipn.
    + intros pre s E S.
      destruct (SlugFacts.first_move_found _ pre s E S) as (m' & X' & L).
      rewrite X in X'. injection X' as <-.
      unfold Js.toLowerCase. rewrite length_map, length_firstn. lia.
  - split; [now rewrite app_nil_r|].
    intros pre s E S.
    destruct (SlugFacts.first_move_found _ pre s E S) as (m' & X' & _). congruence.
Qed.

Lemma splitEcoUrl_splits_the_slug_witness :
  Js.toLowerCase (Notions.slugOf "https://www.chess.com/openings/Kings-Pawn-Opening-1...e5-2.Nf3")
  = "kings-pawn-opening" ++ Js.toLowerCase "-1...e5-2.Nf3".
Proof.
  apply (splitEcoUrl_splits_the_slug "https://www.chess.com/openings/Kings-Pawn-Opening-1...e5-2.Nf3").
  - reflexivity.
  - rewrite <- JsFacts.includes_spec. vm_compute. discriminate.
Defined.

(** ** The catalog built from the table *)

Module CatalogFacts.
Import Re ChessFetcher Spec Notions ReFacts SlugFacts.

Lemma addRow_entry (cache : gmap str entry) (r : row) :
  addRow cache r = match keyOf r with [] => cache | _ :: _ => <[keyOf r := entryOf r]> cache end.
Proof.
  unfold addRow, entryOf, keyOf.
  destruct (Js.toLowerCase (Js.trim (orEmpty (trim_slug r)))); reflexivity.
Qed.

Lemma lowerChar_space c : Js.isSpace (Js.lowerChar c) = Js.isSpace c.
Proof. destruct c as [[] [] [] [] [] [] [] []]; reflexivity. Qed.

Lemma trimStart_lower s : Js.trimStart (Js.toLowerCase s) = Js.toLowerCase (Js.trimStart s).
Proof.
  induction s as [|c s IH]; simpl; [reflexivity|].
  rewrite lowerChar_space. destruct (Js.isSpace c); [exact IH|reflexivity].
Qed.

Lemma trim_lower s : Js.trim (Js.toLowerCase s) = Js.toLowerCase (Js.trim s).
Proof.
  unfold Js.trim. rewrite trimStart_lower. unfold Js.toLowerCase at 1.
  rewrite <- List.map_rev. fold (Js.toLowerCase (rev (Js.trimStart s))).
  rewrite trimStart_lower. unfold Js.toLowerCase. now rewrite List.map_rev.
Qed.

Lemma trimStart_suffix s : exists pre, s = pre ++ Js.trimStart s.
Proof.
  induction s as [|c s [pre IH]]; simpl; [now exists []|].
  destruct (Js.isSpace c); [|now exists []].
  exists (c :: pre). simpl. now f_equal.
Qed.

Lemma trimStart_head s :
  match Js.trimStart s with [] => True | c :: _ => Js.isSpace c = false end.
Proof.
  induction s as [|c s IH]; simpl; [auto|].
  destruct (Js.isSpace c) eqn:E; [exact IH|exact E].
Qed.

Lemma trimStart_fixed s :
  match s with [] => True | c :: _ => Js.isSpace c = false end -> Js.trimStart s = s.
Proof. destruct s as [|c s]; simpl; [auto|]. now intros ->. Qed.

Lemma trim_idem s : Js.trim (Js.trim s) = Js.trim s.
Proof.
  unfold Js.trim.
  set (t := Js.trimStart s). set (u := Js.trimStart (rev t)).
  assert (Hu : Js.trimStart u = u) by (apply trimStart_fixed, trimStart_head).
  assert (Hr : Js.trimStart (rev u) = rev u).
  { apply trimStart_fixed.
    destruct (trimStart_suffix (rev t)) as [pre E]. fold u in E.
    assert (Et : t = rev u ++ rev pre).
    { rewrite <- (rev_involutive t), E. now rewrite rev_app_distr. }
    pose proof (trimStart_head s) as Hh. fold t in Hh. rewrite Et in Hh.
    destruct (rev u); [auto|exact Hh]. }
  rewrite Hr, rev_involutive, Hu. reflexivity.
Qed.

Lemma keyOf_normal r :
  Js.toLowerCase (keyOf r) = keyOf r /\ Js.trim (keyOf r) = keyOf r.
Proof.
  unfold keyOf. split; [apply toLowerCase_idem|].
  now rewrite trim_lower, trim_idem.
Qed.

(** What the table loop has stored under a key, row after row. *)
Lemma addRows_lookup rows :
  forall (m : gmap str entry) k,
    k <> [] ->
    fold_left addRow rows m !! k
    = match lastRow k rows with Some r => Some (entryOf r) | None => m !! k end.
Proof.
  unfold lastRow.
  induction rows as [|r rows IH] using rev_ind; intros m k N; [reflexivity|].
  rewrite fold_left_app, List.filter_app. cbn [fold_left List.filter].
  rewrite addRow_entry. unfold strEq.
  destruct (bool_decide (keyOf r = k)) eqn:E.
  - apply bool_decide_eq_true_1 in E. rewrite last_snoc.
    destruct (keyOf r) as [|c key] eqn:K; [congruence|]. subst k.
    now rewrite lookup_insert_eq.
  - apply bool_decide_eq_false_1 in E. rewrite app_nil_r.
    destruct (keyOf r) as [|c key] eqn:K; [now apply IH|].
    rewrite lookup_insert_ne by exact E. now apply IH.
Qed.

Lemma lastRow_some k rows r :
  lastRow k rows = Some r -> In r rows /\ keyOf r = k.
Proof.
  unfold lastRow. intros H.
  assert (I : In r (List.filter (fun r => strEq (keyOf r) k) rows)).
  { revert H. generalize (List.filter (fun r => strEq (keyOf r) k) rows).
    intros l. induction l as [|x l IH] using rev_ind; [discriminate|].
    rewrite last_snoc. intros H. inversion H; subst. apply in_or_app. right. now left. }
  apply filter_In in I as [I E]. split; [exact I|].
  unfold strEq in E. now apply bool_decide_eq_true_1 in E.
Qed.

Lemma populate_lookup rows k e :
  populate rows !! k = Some e ->
  exists r, lastRow k rows = Some r /\ e = entryOf r /\ k <> [].
Proof.
  intros H. destruct k as [|c k].
  - now rewrite CacheFacts.populate_no_empty_key in H.
  - unfold populate in H. rewrite addRows_lookup in H by discriminate.
    destruct (lastRow (c :: k) rows) as [r|] eqn:L.
    + inversion H; subst. exists r. repeat split; auto.
    + rewrite lookup_empty in H. discriminate.
Qed.

Lemma populate_keyed rows : keyed (populate rows).
Proof.
  intros k e H. apply populate_lookup in H as (r & L & -> & _).
  apply lastRow_some in L as [_ L]. exact L.
Qed.

Lemma keyed_empty : keyed ∅.
Proof. intros k e H. rewrite lookup_empty in H. discriminate. Qed.

End CatalogFacts.

(** X5.  The catalog built from the rows of the openings table holds, under
    every key, the last row whose slug gives that key once trimmed and put
    in lower case; the empty key is never used, and rows whose slug is
    missing or blank are left out. *)
Theorem populate_last_row_wins (rows : list ChessFetcher.row) (k : str) :
  ChessFetcher.populate rows !! k
  = match k with
    | [] => None
    | _ :: _ => option_map Notions.entryOf (Notions.lastRow k rows)
    end.
Proof.
  destruct k as [|c k]; [apply CacheFacts.populate_no_empty_key|].
  unfold ChessFetcher.populate. rewrite CatalogFacts.addRows_lookup by discriminate.
  destruct (Notions.lastRow (c :: k) rows); [reflexivity|apply lookup_empty].
Qed.

(** X6.  Every key of the catalog is normalised and every entry carries its
    key: the key is not empty, is in lower case, has no white space around
    it, and is the [slug] field of the entry stored under it. *)
Theorem populate_keys_normalised (rows : list ChessFetcher.row) (k : str)
        (e : ChessFetcher.entry) :
  ChessFetcher.populate rows !! k = Some e ->
  k <> [] /\ Js.toLowerCase k = k /\ Js.trim k = k /\ ChessFetcher.slug e = k.
Proof.
  intros H. apply CatalogFacts.populate_lookup in H as (r & L & -> & N).
  apply CatalogFacts.lastRow_some in L as [_ <-].
  destruct (CatalogFacts.keyOf_normal r) as [A B]. auto.
Qed.

Lemma populate_keys_normalised_witness :
  let row := ChessFetcher.mkRow (Some ("  Italian-Game " : str)) (Some ("Italian Game" : str))
                                None None None None None None None None in
  ChessFetcher.populate [row] !! ("italian-game" : str) = Some (Notions.entryOf row)
  /\ ChessFetcher.slug (Notions.entryOf row) = "italian-game".
Proof.
  intros row.
  assert (H : ChessFetcher.populate [row] !! ("italian-game" : str)
              = Some (Notions.entryOf row)) by (vm_compute; reflexivity).
  split; [exact H|].
  apply (populate_keys_normalised [row] "italian-game" (Notions.entryOf row) H).
Defined.

(** ** The opening of a game *)

Module OpeningFacts.
Import Re ChessFetcher Spec Games Notions ReFacts SlugFacts CatalogFacts.

(** The catalog a load hands out is keyed when the cached one was, and so is
    the cache afterwards. *)
Lemma load_keyed now db st :
  cacheKeyed st ->
  keyed (loadOpeningsDb now db st).1.1 /\ cacheKeyed (loadOpeningsDb now db st).1.2.
Proof.
  intros K. destruct (cacheHit now st) as [c|] eqn:E.
  - unfold loadOpeningsDb. rewrite E. simpl. split; [|exact K].
    apply K. now apply CacheFacts.cacheHit_cached in E.
  - destruct (CacheFacts.load_miss now db st E) as (m & tr & -> & _ & Hm). simpl.
    assert (Km : keyed m).
    { destruct db; try (destruct Hm as [-> _]; apply keyed_empty).
      destruct Hm as [-> _]. apply populate_keyed. }
    split; [exact Km|]. intros c [= <-]. exact Km.
Qed.

(** The slug of what [lookupOpening] finds in a keyed catalog. *)
Lemma lookup_slug (db : gmap str entry) (s : str) (e : entry) :
  keyed db -> lookupOpening db s = Some e ->
  slug e = s
  \/ exists a b, firstOccurrence "-with-" s a b /\ a <> [] /\ slug e = a.
Proof.
  intros K L. destruct (LookupFacts.lookupOpening_cases db s) as (C1 & C2 & C3).
  destruct (db !! s) as [e0|] eqn:D.
  - rewrite (C1 e0 eq_refl) in L. inversion L; subst. left. now apply K.
  - destruct (Js.findSub "-with-" [] s) as [[a b]|] eqn:F.
    + apply JsFacts.findSub_some in F as (a' & Ea & F). simpl in Ea. subst a'.
      rewrite (C2 a b eq_refl F) in L. destruct a as [|c a]; [discriminate|].
      right. exists (c :: a), b. repeat split; try apply F; [discriminate|].
      now apply K.
    + apply JsFacts.findSub_none in F. rewrite (C3 eq_refl F) in L. discriminate.
Qed.

End OpeningFacts.

(** X7.  One call of [getOpeningDataForGame], on a cache whose catalog, if
    any, carries its keys (as every catalog the loader builds does): a URL
    without a base slug gives the empty record without touching the cache or
    the store; otherwise the extra moves are the formatted fragment, and the
    slug returned is the base slug of the URL or, when only the part before
    its first [-with-] is in the catalog, that part.  The cache keeps the
    property. *)
Theorem getOpeningDataForGame_slug (now : Z) (db : ChessFetcher.store)
        (st : ChessFetcher.cacheState) (ecoUrl : str) :
  Notions.cacheKeyed st ->
  let parts := ChessFetcher.splitEcoUrl ecoUrl in
  let r := Games.getOpeningDataForGame now db st ecoUrl in
  Notions.cacheKeyed r.1.2
  /\ (ChessFetcher.baseSlug parts = [] -> r = (Games.emptyOpening, st, []))
  /\ (ChessFetcher.baseSlug parts <> [] ->
      Games.o_extraMoves r.1.1 = ChessFetcher.formatExtraMoves (ChessFetcher.extraMoves parts)
      /\ (Games.openingSlug r.1.1 = ChessFetcher.baseSlug parts
          \/ exists a b, Spec.firstOccurrence "-with-" (ChessFetcher.baseSlug parts) a b
                         /\ a <> [] /\ Games.openingSlug r.1.1 = a)).
Proof.
  intros K parts r. subst r. unfold Games.getOpeningDataForGame.
  destruct ecoUrl as [|c u].
  { simpl. split; [exact K|]. split; [reflexivity|]. intros N. now destruct N. }
  fold parts.
  destruct (ChessFetcher.baseSlug parts) as [|b base] eqn:B.
  { simpl. split; [exact K|]. split; [reflexivity|]. intros N. now destruct N. }
  destruct (OpeningFacts.load_keyed now db st K) as [Kc Kst].
  destruct (ChessFetcher.loadOpeningsDb now db st) as [[catalog st'] tr]. simpl in Kc, Kst.
  destruct (ChessFetcher.lookupOpening catalog (b :: base)) as [e|] eqn:L; simpl.
  - split; [exact Kst|]. split; [discriminate|]. intros _. split; [reflexivity|].
    now apply (OpeningFacts.lookup_slug catalog).
  - split; [exact Kst|]. split; [discriminate|]. intros _. split; [reflexivity|]. now left.
Qed.

Lemma getOpeningDataForGame_slug_witness :
  let rows := [ChessFetcher.mkRow (Some ("Italian-Game" : str)) (Some ("Italian Game" : str))
                                  None None None None None None None None] in
  let r := Games.getOpeningDataForGame 1000 (ChessFetcher.Rows rows) ChessFetcher.initialCache
             "https://www.chess.com/openings/Italian-Game-with-4-Bc4-3...Nf6" in
  Games.openingSlug r.1.1 = "italian-game-with-4-bc4"
  \/ exists a b, Spec.firstOccurrence "-with-" "italian-game-with-4-bc4" a b
                 /\ a <> [] /\ Games.openingSlug r.1.1 = a.
Proof.
  intros rows r.
  assert (K : Notions.cacheKeyed ChessFetcher.initialCache) by (intros c H; discriminate).
  destruct (getOpeningDataForGame_slug 1000 (ChessFetcher.Rows rows) ChessFetcher.initialCache
              "https://www.chess.com/openings/Italian-Game-with-4-Bc4-3...Nf6" K)
    as (_ & _ & H).
  apply H. vm_compute. discriminate.
Defined.

(** ** Numbers written and read *)

Module NumFacts.
Import JsNum Notions.

Lemma endsNumber_digit rest :
  endsNumber rest -> match rest with [] => True | c :: _ => digitOf 10 c = None end.
Proof.
  destruct rest as [|c rest]; [auto|]. simpl. unfold Js.isAlnum, Js.isAlpha, digitOf.
  intros H. apply orb_false_iff in H as [H1 H2]. apply orb_false_iff in H1 as [H1 H3].
  now rewrite H2, H1, H3.
Qed.

Lemma digitsVal_stop acc rest :
  match rest with [] => True | c :: _ => digitOf 10 c = None end ->
  digitsVal 10 acc rest = acc.
Proof. destruct rest as [|c rest]; simpl; [auto|]. now intros ->. Qed.

Lemma digitsVal_acc d :
  forall acc rest,
    endsNumber rest ->
    digitsVal 10 (Some (Z.pos acc)) (digitsOf d ++ rest) = Some (Z.pos (Pos.of_uint_acc d acc)).
Proof.
  unfold digitsOf.
  induction d; intros acc rest E; cbn [NilEmpty.string_of_uint list_ascii_of_string app Pos.of_uint_acc].
  1: { apply digitsVal_stop, endsNumber_digit, E. }
  all: cbn [digitsVal];
    match goal with |- context [digitOf 10 ?c] =>
      let v := eval vm_compute in (digitOf 10 c) in change (digitOf 10 c) with v end;
    cbn [default from_option id]; rewrite <- (IHd _ rest E); f_equal; f_equal; lia.
Qed.

Lemma digitsVal_zero d :
  forall rest,
    endsNumber rest ->
    digitsVal 10 (Some 0%Z) (digitsOf d ++ rest) = Some (Z.of_N (Pos.of_uint d)).
Proof.
  unfold digitsOf.
  induction d; intros rest E;
    cbn [NilEmpty.string_of_uint list_ascii_of_string app Pos.of_uint].
  1: { apply digitsVal_stop, endsNumber_digit, E. }
  1: { cbn [digitsVal]. change (digitOf 10 "0") with (Some 0%Z). now apply IHd. }
  all: cbn [digitsVal];
    match goal with |- context [digitOf 10 ?c] =>
      let v := eval vm_compute in (digitOf 10 c) in change (digitOf 10 c) with v end;
    cbn [default from_option id Z.mul Z.add];
    apply (digitsVal_acc d _ rest E).
Qed.

Lemma digitsOf_digits d : forallb Js.isDigit (digitsOf d) = true.
Proof. unfold digitsOf. induction d; simpl; auto. Qed.

Lemma digitsOf_head d :
  d <> Decimal.Nil -> exists c t, digitsOf d = c :: t /\ Js.isDigit c = true.
Proof.
  intros N. pose proof (digitsOf_digits d) as D. unfold digitsOf in *.
  destruct d; [congruence| | | | | | | | | |]; simpl in *; eexists _, _; split; reflexivity.
Qed.

Lemma digitsVal_start c t :
  Js.isDigit c = true -> digitsVal 10 None (c :: t) = digitsVal 10 (Some 0%Z) (c :: t).
Proof.
  intros D. destruct c as [[] [] [] [] [] [] [] []]; try discriminate D; reflexivity.
Qed.

(** [parseInt] on a text that begins with a digit and has no [0x] in front. *)
Lemma parseInt_digit c t :
  Js.isDigit c = true ->
  match t with [] => True | x :: _ => x <> "x"%char /\ x <> "X"%char end ->
  parseInt (c :: t) = digitsVal 10 None (c :: t).
Proof.
  intros D X.
  destruct c as [[] [] [] [] [] [] [] []]; try discriminate D; clear D;
    unfold parseInt; simpl Js.trimStart; cbn [fst snd];
    try (match goal with |- context [digitsVal 10 ?a ?s] => destruct (digitsVal 10 a s) end;
         reflexivity).
  destruct t as [|x t]; [reflexivity|].
  destruct X as [X1 X2].
  destruct x as [[] [] [] [] [] [] [] []]; try congruence;
    cbn [fst snd];
    match goal with |- context [digitsVal 10 ?a ?s] => destruct (digitsVal 10 a s); reflexivity end.
Qed.

(** A number is written with digits only, at least one. *)
Lemma ofZ_digits n :
  (0 <= n)%Z -> exists d, d <> Decimal.Nil /\ ofZ n = digitsOf d /\ Z.of_N (Pos.of_uint d) = n.
Proof.
  intros P. unfold ofZ, digitsOf. destruct n as [|p|p]; [| |lia].
  - exists (Decimal.D0 Decimal.Nil). repeat split. discriminate.
  - exists (Pos.to_uint p). split; [apply Unsigned.to_uint_nonnil|]. split.
    + simpl. pose proof (Unsigned.to_uint_nonnil p) as N.
      destruct (Pos.to_uint p); [congruence|reflexivity..].
    + now rewrite DecimalPos.Unsigned.of_to.
Qed.

(** Reading back a number that was written out. *)
Lemma parseInt_ofZ n rest :
  (0 <= n)%Z -> endsNumber rest -> parseInt (ofZ n ++ rest) = Some n.
Proof.
  intros P E. destruct (ofZ_digits n P) as (d & N & -> & V).
  destruct (digitsOf_head d N) as (c & t & Hd & Dc).
  pose proof (digitsOf_digits d) as Dd.
  pose proof (digitsVal_zero d rest E) as Z0.
  rewrite Hd in *. cbn [app] in *.
  rewrite parseInt_digit, digitsVal_start, Z0, V; auto.
  simpl in Dd. apply andb_true_iff in Dd as [_ Dt].
  destruct t as [|x t]; simpl.
  - destruct rest as [|x rest]; [auto|]. simpl in E. split; intros ->; discriminate.
  - simpl in Dt. apply andb_true_iff in Dt as [Dx _]. split; intros ->; discriminate.
Qed.

Lemma ofZ_chars n : (0 <= n)%Z -> forallb Js.isDigit (ofZ n) = true /\ ofZ n <> [].
Proof.
  intros P. destruct (ofZ_digits n P) as (d & N & -> & _). split; [apply digitsOf_digits|].
  destruct (digitsOf_head d N) as (c & t & -> & _). discriminate.
Qed.


(** Text that neither begins nor ends with white space is left by [trim]. *)
Lemma trim_digits_like s :
  match s with [] => True | c :: _ => Js.isSpace c = false end ->
  match rev s with [] => True | c :: _ => Js.isSpace c = false end ->
  Js.trim s = s.
Proof.
  intros H1 H2. unfold Js.trim.
  rewrite (CatalogFacts.trimStart_fixed s H1), (CatalogFacts.trimStart_fixed (rev s) H2).
  apply rev_involutive.
Qed.

(** Cutting at a character: the piece before its first occurrence, then the
    pieces of the rest. *)
Lemma splitGo_cut c a :
  ~ In c a ->
  forall cur rest,
    Js.splitGo [c] 0 cur (a ++ c :: rest) = (rev cur ++ a) :: Js.splitGo [c] 0 [] rest.
Proof.
  induction a as [|x a IH]; intros N cur rest; simpl.
  - unfold Js.startsWith. simpl. rewrite Ascii.eqb_refl. now rewrite app_nil_r.
  - unfold Js.startsWith. simpl. destruct (Ascii.eqb x c) eqn:E.
    + apply Ascii.eqb_eq in E. subst. exfalso. apply N. now left.
    + rewrite IH by (intros I; apply N; now right). simpl. now rewrite <- app_assoc.
Qed.

Lemma splitGo_last c a :
  ~ In c a -> forall cur, Js.splitGo [c] 0 cur a = [rev cur ++ a].
Proof.
  induction a as [|x a IH]; intros N cur; simpl.
  - now rewrite app_nil_r.
  - unfold Js.startsWith. simpl. destruct (Ascii.eqb x c) eqn:E.
    + apply Ascii.eqb_eq in E. subst. exfalso. apply N. now left.
    + rewrite IH by (intros I; apply N; now right). simpl. now rewrite <- app_assoc.
Qed.

End NumFacts.

(** ** Time controls *)

Module GamesFacts.
Import Re Games JsNum Notions NumFacts ReFacts.









Lemma parseInt_written n : (0 <= n)%Z -> parseInt (ofZ n) = Some n.
Proof. intros P. rewrite <- (app_nil_r (ofZ n)). now apply parseInt_ofZ. Qed.

Lemma written_cons n :
  (0 <= n)%Z -> exists c t, ofZ n = c :: t.
Proof.
  intros P. destruct (ofZ_chars n P) as [_ N]. destruct (ofZ n) as [|c t]; [congruence|eauto].
Qed.

End GamesFacts.



(** X10.  What [parseTimeControl] returns is of one of three kinds, whatever
    its arguments: nothing at all; a correspondence time, with base time and
    increment 0; or a base time and an increment, with no correspondence
    time.  A missing or empty time control gives the first kind, and the
    daily class never gives the third. *)
Theorem parseTimeControl_kinds (timeControl timeClass : option str) :
  let r := Games.parseTimeControl timeControl timeClass in
  (r = Games.mkTimeControl None None None
   \/ (exists s, r = Games.mkTimeControl (Some 0%Z) (Some 0%Z) (Some s))
   \/ (exists b i, r = Games.mkTimeControl (Some b) (Some i) None))
  /\ (Games.orElse "" timeControl = [] -> r = Games.mkTimeControl None None None)
  /\ (timeClass = Some ("daily" : str) -> Games.correspondenceTime r = None ->
      r = Games.mkTimeControl None None None).
Proof.
  intros r. subst r. unfold Games.parseTimeControl.
  destruct timeControl as [[|c s]|]; cbn [Games.orElse].
  1,3: (split; [now left|]; split; [intros _; reflexivity|intros _ _; reflexivity]).
  split; [|split; [discriminate|]].
  - destruct (Games.isStr timeClass "daily" || Js.includes "/" (Js.trim (c :: s))).
    + destruct (_ && _); right; left; eexists; reflexivity.
    + destruct (_ && _); [right; right; eexists _, _; reflexivity|].
      destruct (JsNum.parseInt _); [right; right; eexists _, _; reflexivity|now left].
  - intros ->. change (Games.isStr (Some ("daily" : str)) "daily") with true. cbn [orb].
    destruct (_ && _); discriminate.
Qed.

Lemma parseTimeControl_kinds_witness :
  Games.parseTimeControl (Some []) None = Games.mkTimeControl None None None.
Proof.
  destruct (parseTimeControl_kinds (Some []) None) as (_ & H & _). apply H. reflexivity.
Defined.

(** ** Durations *)

Module DurationFacts.
Import Re Games JsNum Notions NumFacts GamesFacts.



End DurationFacts.



(** ** Formats and terminations *)

Module FormatNameFacts.
Import Re Games JsNum Notions NumFacts GamesFacts ReFacts.

Lemma orElse_nonempty d x : d <> [] -> orElse d x <> [].
Proof. intros N. destruct x as [[|c s]|]; simpl; auto; discriminate. Qed.

Lemma lower_nonempty s : s <> [] -> Js.toLowerCase s <> [].
Proof. destruct s; [congruence|discriminate]. Qed.

Lemma oneOfStrings_in l x : oneOfStrings l (Some x) = true -> In x l.
Proof.
  unfold oneOfStrings. intros H. apply existsb_exists in H as (y & I & E).
  unfold isStr in E. apply bool_decide_eq_true_1 in E. now inversion E; subst.
Qed.

Lemma in_oneOfStrings l x : In x l -> oneOfStrings l (Some x) = true.
Proof.
  intros I. unfold oneOfStrings. apply existsb_exists. exists x. split; [exact I|].
  unfold isStr. now apply bool_decide_eq_true_2.
Qed.

Lemma skipRun_all p s : forallb p s = true -> skipRun p s = (s, []).
Proof.
  intros H. rewrite <- (app_nil_r s) at 1. now apply FormatFacts.skipRun_app.
Qed.

(** [/(\d+)\+(\d+)/] on two numbers joined by a plus sign. *)
Lemma tcRe_reads a b :
  forallb Js.isDigit a = true -> a <> [] -> forallb Js.isDigit b = true -> b <> [] ->
  exists m, exec tcRe (a ++ "+" ++ b) = Some m /\ group 1 m = Some a /\ group 2 m = Some b.
Proof.
  intros Da Na Db Nb.
  assert (La : 1 <= length a) by (destruct a; [congruence|simpl; lia]).
  assert (Lb : 1 <= length b) by (destruct b; [congruence|simpl; lia]).
  unfold exec. eexists. split.
  - apply ParseFacts.search_here. unfold execAt, tcRe, Cat, Plus. cbn [fold_right run].
    change (a ++ "+" ++ b) with (a ++ "+"%char :: b).
    apply ParseFacts.rep_greedy; [exact Da|reflexivity|exact La|].
    rewrite Ascii.eqb_refl.
    rewrite FormatFacts.rep_takes_run; [reflexivity|intros; eauto|].
    rewrite (skipRun_all _ _ Db). exact Lb.
  - unfold group. cbn [m_caps cap Nat.eqb].
    rewrite (skipRun_all _ _ Db). cbn [fst snd].
    rewrite !ReFacts.firstn_exact_at by lia. split; [reflexivity|].
    f_equal. replace b with (b ++ []) at 2 by apply app_nil_r.
    apply ReFacts.firstn_exact_at. lia.
Qed.

End FormatNameFacts.

(** X12.  The format [getGameFormat] returns is never empty and is in lower
    case already, whatever the game holds. *)
Theorem getGameFormat_normalised (g : Games.game) :
  Games.getGameFormat g <> [] /\ Js.toLowerCase (Games.getGameFormat g) = Games.getGameFormat g.
Proof.
  unfold Games.getGameFormat.
  set (rules := Js.toLowerCase (Games.orElse "chess" (Games.rules g))).
  set (timeClass := Js.toLowerCase (Games.orElse "" (Games.time_class g))).
  assert (Nr : rules <> []).
  { apply FormatNameFacts.lower_nonempty, FormatNameFacts.orElse_nonempty. discriminate. }
  assert (Ir : Js.toLowerCase rules = rules) by apply SlugFacts.toLowerCase_idem.
  assert (It : Js.toLowerCase timeClass = timeClass) by apply SlugFacts.toLowerCase_idem.
  destruct (ChessFetcher.strEq rules "chess960").
  { destruct (ChessFetcher.strEq timeClass "daily"); split; (discriminate || reflexivity). }
  destruct (ChessFetcher.strEq rules "chess"); cbn [negb]; [|auto].
  destruct (Games.oneOfStrings _ (Some timeClass)) eqn:K.
  { split; [|exact It]. apply FormatNameFacts.oneOfStrings_in in K.
    intros E. rewrite E in K. simpl in K. intuition discriminate. }
  destruct (Re.exec Games.tcRe _) as [m|].
  - destruct (Games.less _ 180); [split; (discriminate || reflexivity)|].
    destruct (Games.less _ 600); split; (discriminate || reflexivity).
  - destruct timeClass as [|c t]; simpl; [split; (discriminate || reflexivity)|].
    split; [discriminate|exact It].
Qed.

(** X13.  A game of standard chess whose time class is none of bullet,
    blitz, rapid and daily, with the time control [b+i]: the format is
    estimated from [b + 40 * i] seconds, bullet below 180, blitz below 600,
    rapid from there on. *)
Theorem getGameFormat_estimate (g : Games.game) (b i : Z) :
  Notions.standardRules g -> ~ Notions.classKnown g ->
  (0 <= b)%Z -> (0 <= i)%Z ->
  Games.time_control g = Some (JsNum.ofZ b ++ "+" ++ JsNum.ofZ i) ->
  Games.getGameFormat g
  = if (b + 40 * i <? 180)%Z then "bullet"
    else if (b + 40 * i <? 600)%Z then "blitz" else "rapid".
Proof.
  intros R K Pb Pi T. unfold Games.getGameFormat.
  unfold Notions.standardRules in R. rewrite R.
  change (ChessFetcher.strEq "chess" "chess960") with false.
  change (ChessFetcher.strEq "chess" "chess") with true. cbn [negb].
  destruct (Games.oneOfStrings _ _) eqn:O.
  { exfalso. apply K. now apply FormatNameFacts.oneOfStrings_in in O. }
  rewrite T.
  destruct (NumFacts.ofZ_chars b Pb) as [Db Nb].
  destruct (NumFacts.ofZ_chars i Pi) as [Di Ni].
  destruct (FormatNameFacts.tcRe_reads _ _ Db Nb Di Ni) as (m & E & G1 & G2).
  assert (O1 : Games.orElse "" (Some (JsNum.ofZ b ++ "+" ++ JsNum.ofZ i))
               = JsNum.ofZ b ++ "+" ++ JsNum.ofZ i).
  { destruct (GamesFacts.written_cons b Pb) as (c & t & ->). reflexivity. }
  rewrite O1, E, G1, G2. unfold Games.parseGroup.
  rewrite !GamesFacts.parseInt_written by assumption. unfold Games.less.
  destruct (b + 40 * i <? 180)%Z; [reflexivity|].
  destruct (b + 40 * i <? 600)%Z; reflexivity.
Qed.

Lemma getGameFormat_estimate_witness :
  Games.getGameFormat (Games.mkGame None None (Some (JsNum.ofZ 120 ++ "+" ++ JsNum.ofZ 1)) None None)
  = "bullet".
Proof.
  apply (getGameFormat_estimate
           (Games.mkGame None None (Some (JsNum.ofZ 120 ++ "+" ++ JsNum.ofZ 1)) None None) 120 1).
  - reflexivity.
  - vm_compute. intuition discriminate.
  - lia.
  - lia.
  - reflexivity.
Defined.

(** X14.  The termination of a game one player has won is the result of the
    player who lost, whoever asks: the winner gets the loser's result, not
    [win], and so does the loser. *)
Theorem getGameTermination_of_a_won_game (g : Games.game) (w b : Games.player)
        (r me : str) :
  Games.white g = Some w -> Games.black g = Some b ->
  r <> [] -> r <> "win" ->
  (Games.result w = Some ("win" : str) /\ Games.result b = Some r)
  \/ (Games.result w = Some r /\ Games.result b = Some ("win" : str)) ->
  Games.getGameTermination g me = r.
Proof.
  intros W B N1 N2 H. unfold Games.getGameTermination. rewrite W, B.
  assert (Nr : Games.isStr (Some r) "win" = false).
  { unfold Games.isStr. apply bool_decide_eq_false_2. congruence. }
  assert (Or : forall d, Games.orElse d (Some r) = r) by (intros d; destruct r; [congruence|reflexivity]).
  destruct H as [[Hw Hb]|[Hw Hb]]; rewrite Hw, Hb; destruct (Games.isWhite w me);
    rewrite ?Nr; change (Games.isStr (Some ("win" : str)) "win") with true; cbn [negb];
    apply Or.
Qed.

Lemma getGameTermination_of_a_won_game_witness :
  Games.getGameTermination
    (Games.mkGame None None None (Some (Games.mkPlayer "Ann" (Some ("win" : str))))
                  (Some (Games.mkPlayer "Bob" (Some ("resigned" : str))))) "ann"
  = "resigned".
Proof.
  apply (getGameTermination_of_a_won_game _ (Games.mkPlayer "Ann" (Some ("win" : str)))
           (Games.mkPlayer "Bob" (Some ("resigned" : str)))).
  - reflexivity.
  - reflexivity.
  - discriminate.
  - discriminate.
  - left. split; reflexivity.
Defined.

(** ** The ratings ledger and the search query *)

Module LedgerFacts.
Import Games Notions.

Lemma writeLedger_same l f v : f <> ("__proto__" : str) -> writeLedger l f v !! f = Some v.
Proof.
  intros N. unfold writeLedger, ChessFetcher.strEq.
  rewrite bool_decide_eq_false_2 by exact N. apply lookup_insert_eq.
Qed.

Lemma writeLedger_other l f f' v : f' <> f -> writeLedger l f' v !! f = l !! f.
Proof.
  intros N. unfold writeLedger. destruct (ChessFetcher.strEq f' "__proto__"); [reflexivity|].
  now apply lookup_insert_ne.
Qed.

(** What the ledger holds for a format after a run of games. *)
Lemma ledger_after f gs :
  f <> ("__proto__" : str) ->
  forall t,
    ledger (afterGames gs t) !! f
    = match lastRating f gs with
      | Some (RNum r) => Some (Some r)
      | Some _ => Some None
      | None => ledger t !! f
      end.
Proof.
  intros N. unfold lastRating, afterGames.
  induction gs as [|[f' r'] gs IH] using rev_ind; intros t; [reflexivity|].
  rewrite fold_left_app, List.filter_app. cbn [fold_left List.filter fst snd].
  unfold recorded at 2. cbn [fst snd]. unfold ChessFetcher.strEq.
  destruct (bool_decide (f' = f)) eqn:E.
  - apply bool_decide_eq_true_1 in E. subst f'. cbn [andb].
    destruct r' as [| |c]; cbn [calculateRating snd ledger].
    + rewrite app_nil_r. apply IH.
    + rewrite last_snoc. cbn [option_map snd]. now apply writeLedger_same.
    + rewrite last_snoc. cbn [option_map snd]. now apply writeLedger_same.
  - apply bool_decide_eq_false_1 in E. cbn [andb]. rewrite app_nil_r.
    destruct r' as [| |c]; cbn [calculateRating snd ledger];
      rewrite ?writeLedger_other by exact E; apply IH.
Qed.

Lemma loaded_after gs : forall t, loaded (afterGames gs t) = loaded t.
Proof.
  unfold afterGames. induction gs as [|[f r] gs IH]; intros t; [reflexivity|].
  cbn [fold_left]. rewrite IH. reflexivity.
Qed.

End LedgerFacts.

(** X15.  The rating a game starts from is the rating of the last earlier
    game of the same format that had one; games of other formats in between
    make no difference.  The change is the difference of the two ratings.
    A format without such a game starts from what the tracker held before,
    and an earlier rating of 0 counts as none. *)
Theorem calculateRating_follows_the_format (f : str) (c : Z)
        (gs : list (str * Games.rating)) (t : Games.tracker) :
  f <> ("__proto__" : str) ->
  fst (Games.calculateRating f (Games.RNum c) (Notions.afterGames gs t))
  = match Notions.lastRating f gs with
    | Some (Games.RNum r) =>
        if (r =? 0)%Z then (Games.BNull, Games.DNull)
        else (Games.BNum r, Games.DNum (c - r))
    | Some _ => (Games.BNull, Games.DNull)
    | None => fst (Games.calculateRating f (Games.RNum c) t)
    end.
Proof.
  intros N. unfold Games.calculateRating. cbn [fst]. unfold Games.readLedger.
  rewrite (LedgerFacts.ledger_after f gs N t).
  destruct (Notions.lastRating f gs) as [[| |r]|]; try reflexivity.
  destruct (r =? 0)%Z; reflexivity.
Qed.

Lemma calculateRating_follows_the_format_witness :
  fst (Games.calculateRating "blitz" (Games.RNum 1510)
         (Notions.afterGames [("blitz" : str, Games.RNum 1500); ("rapid" : str, Games.RNum 1700)]
                              Games.newTracker))
  = (Games.BNum 1500, Games.DNum 10).
Proof.
  apply (calculateRating_follows_the_format "blitz" 1510
           [("blitz" : str, Games.RNum 1500); ("rapid" : str, Games.RNum 1700)] Games.newTracker).
  discriminate.
Defined.

Module QueryFacts.
Import Analyzer Notions.

Lemma placeholders_app a b : placeholders (a ++ b) = placeholders a + placeholders b.
Proof. unfold placeholders. now rewrite List.filter_app, length_app. Qed.

Lemma clause_counts cond p acc :
  placeholders cond = 1 ->
  placeholders (fst acc) = length (snd acc) ->
  placeholders (fst (clause cond p acc)) = length (snd (clause cond p acc)).
Proof.
  intros C H. unfold clause. destruct p; [|exact H]. cbn [fst snd].
  rewrite placeholders_app, length_app, C, H. reflexivity.
Qed.

Lemma clause_text cond p acc :
  fst (clause cond p acc) = fst acc ++ match p with Some _ => cond | None => [] end.
Proof. unfold clause. destruct p; cbn [fst]; [reflexivity|now rewrite app_nil_r]. Qed.

Lemma given_set {A} (f : str -> A) x :
  match option_map f (given x) with Some _ => true | None => false end
  = ChessFetcher.nonEmpty (ChessFetcher.orEmpty x).
Proof. destruct x as [[|c s]|]; reflexivity. Qed.

Lemma givenNumber_set {A} (f : Z -> A) x :
  match option_map f (givenNumber x) with Some _ => true | None => false end
  = match x with Some (Some n) => negb (n =? 0)%Z | _ => false end.
Proof. destruct x as [[n|]|]; try reflexivity. simpl. now destruct (n =? 0)%Z. Qed.

Lemma if_set {A} (o : option A) (b : bool) (x y : str) :
  match o with Some _ => true | None => false end = b ->
  match o with Some _ => x | None => y end = if b then x else y.
Proof. intros <-. now destruct o. Qed.

(** The text of the query, clause by clause. *)
Lemma query_text c :
  fst (searchQuery c)
  = match asked c with
    | [a1; a2; a3; a4; a5] =>
        (((((selectFrom ++ (if a1 then " AND opening_name LIKE ?" else []))
              ++ (if a2 then " AND opponent LIKE ?" else []))
             ++ (if a3 then " AND outcome = ?" else []))
            ++ (if a4 then " AND format = ?" else []))
           ++ (if a5 then " AND my_rating >= ?" else []))
          ++ " ORDER BY end_timestamp DESC LIMIT 50"
    | _ => []
    end.
Proof.
  unfold searchQuery, asked. cbn [fst]. rewrite !clause_text. cbn [fst].
  rewrite (if_set _ _ _ _ (given_set _ (opening c))).
  rewrite (if_set _ _ _ _ (given_set _ (opponent c))).
  rewrite (if_set _ _ _ _ (given_set _ (outcome c))).
  rewrite (if_set _ _ _ _ (given_set _ (format c))).
  rewrite (if_set _ _ _ _ (givenNumber_set _ (minRating c))).
  reflexivity.
Qed.

End QueryFacts.

(** X22.  The query [searchGames] hands to the database has as many [?] as
    parameters, and its text depends only on which criteria are set, never
    on what they hold: the values travel as parameters. *)
Theorem searchGames_binds_its_values (c : Analyzer.criteria) :
  Notions.placeholders (fst (Analyzer.searchQuery c)) = length (snd (Analyzer.searchQuery c))
  /\ forall c', Notions.asked c = Notions.asked c' ->
                fst (Analyzer.searchQuery c) = fst (Analyzer.searchQuery c').
Proof.
  split.
  - unfold Analyzer.searchQuery. cbn [fst snd].
    rewrite QueryFacts.placeholders_app, Nat.add_0_r.
    repeat (apply QueryFacts.clause_counts; [reflexivity|]). reflexivity.
  - intros c' H. rewrite !QueryFacts.query_text. now rewrite H.
Qed.

(** ** Clock annotations *)

Module AnnotationFacts.
Import Re ChessFetcher Spec JsNum Notions NumFacts ReFacts.





End AnnotationFacts.



Module TokenFacts.
Import Re GameAnalyzer Spec ReFacts.

(** The moves one match of the move expression contributes. *)
Lemma movesOf_tokens i w rest x :
  matches movePattern i w rest [] (m_caps x) ->
  Forall (fun t => t <> [] /\ forallb sanChar t = true) (movesOf x).
Proof.
  unfold movePattern, Cat, Plus, Star. cbn [fold_right]. intros M.
  open_match. split_match; open_match;
    unfold movesOf, pushGroup, group;
    match goal with H : _ = m_caps x |- _ => rewrite <- H end; cbn [cap Nat.eqb];
    repeat match goal with
           | |- context [match ?t with [] => _ | _ :: _ => _ end] => destruct t eqn:?
           end;
    cbn [app]; repeat constructor; try discriminate; assumption.
Qed.

End TokenFacts.

(** X20.  Every move token [parsePGN] returns is a non-empty run of the
    characters [a-h], [1-8], [NBRQKO], [x], [=], [+], [#] and [-].  It need
    not be a move: in move text that numbers Black's moves ([1... e5], as
    after a clock comment), the digit of that number is taken as Black's
    move and Black's move is left out. *)
Theorem parsePGN_tokens (pgn : str) (fuel : nat) (r : GameAnalyzer.parsed) :
  (GameAnalyzer.parsePGN fuel pgn = Some r ->
   Forall (fun t => t <> [] /\ forallb GameAnalyzer.sanChar t = true) (GameAnalyzer.moves r))
  /\ (let game : str :=
        "[Event " ++ [GameAnalyzer.quote] ++ "Live Chess" ++ [GameAnalyzer.quote] ++ "]"
        ++ [ChessFetcher.nl; ChessFetcher.nl]
        ++ "1. e4 {[%clk 0:09:59.9]} 1... e5 {[%clk 0:09:58]} "
        ++ "2. Nf3 {[%clk 0:09:50]} 2... Nc6 {[%clk 0:09:40]} 1-0" in
      option_map GameAnalyzer.moves (GameAnalyzer.parsePGN 100 game)
      = Some ["e4" : str; "1" : str; "Nf3" : str; "2" : str]).
Proof.
  split; [|vm_compute; reflexivity].
  intros H. destruct pgn as [|c pgn].
  { injection H as <-. constructor. }
  unfold GameAnalyzer.parsePGN in H.
  destruct (Re.execLoop fuel GameAnalyzer.headerRegex 0 (c :: pgn)) as [tags|]; [|discriminate H].
  match type of H with
  | match Re.execLoop fuel GameAnalyzer.movePattern 0 ?t with _ => _ end = _ =>
      destruct (Re.execLoop fuel GameAnalyzer.movePattern 0 t) as [found|] eqn:L;
        [|discriminate H]
  end.
  injection H as <-. cbn [GameAnalyzer.moves].
  apply ClockFacts.execLoop_sound in L.
  induction L as [|x found (pre & w & _ & M & _) _ IH]; cbn [List.map concat]; [constructor|].
  apply Forall_app. split; [|exact IH].
  eapply TokenFacts.movesOf_tokens; exact M.
Qed.

Lemma parsePGN_tokens_witness :
  Forall (fun t : str => t <> [] /\ forallb GameAnalyzer.sanChar t = true)
         ["e4" : str; "e5" : str].
Proof.
  pose proof (parsePGN_tokens
           ("[Event " ++ [GameAnalyzer.quote] ++ "x" ++ [GameAnalyzer.quote] ++ "]"
            ++ [ChessFetcher.nl; ChessFetcher.nl] ++ "1. e4 e5")
           10 (GameAnalyzer.mkParsed {[ ("Event" : str) := ("x" : str) ]} ["e4" : str; "e5" : str]))
    as [H _].
  apply H. vm_compute. reflexivity.
Defined.

(** ** Tag pairs *)

Module TagFacts.
Import Re GameAnalyzer Games Spec Notions ReFacts.

Lemma tagRe_shape name j w rest cs cs' :
  matches (tagRe name) j w rest cs cs' ->
  exists value, tagAt name value (w ++ rest) /\ cs' = (1, value) :: cs.
Proof.
  unfold tagRe, Cat, Plus. cbn [fold_right]. intros M. open_match.
  match goal with
  | Hs : forallb Js.isSpace ?ws = true, Ls : 1 <= length ?ws,
    Hv : forallb notQuote ?v = true, Lv : 1 <= length ?v |- _ =>
      exists v; split; [exists ws, rest|reflexivity];
      repeat split; try assumption;
      [ now rewrite <- !app_assoc
      | intros ->; simpl in Ls; lia
      | intros ->; simpl in Lv; lia ]
  end.
Qed.

(** The expression reads a tag pair that stands at the index. *)
Lemma tagRe_here name value s i :
  tagAt name value s ->
  exists x, execAt (tagRe name) i s = Some x /\ group 1 x = Some value.
Proof.
  intros (ws & post & -> & Nw & Hw & Nv & Hv).
  assert (Lw : 1 <= length ws) by (destruct ws; [congruence|simpl; lia]).
  assert (Lv : 1 <= length value) by (destruct value; [congruence|simpl; lia]).
  unfold execAt, tagRe, Cat, Plus. cbn [fold_right run].
  rewrite stripPrefix_here.
  eexists. split.
  - change (ws ++ [quote] ++ value ++ [quote] ++ "]" ++ post)
      with (ws ++ quote :: (value ++ quote :: "]"%char :: post)).
    apply ParseFacts.rep_greedy; [exact Hw|reflexivity|exact Lw|].
    rewrite Ascii.eqb_refl.
    erewrite (ParseFacts.rep_greedy notQuote _ value); [reflexivity|exact Hv|reflexivity|exact Lv|].
    rewrite !Ascii.eqb_refl. reflexivity.
  - unfold group. cbn [m_caps cap Nat.eqb].
    rewrite !ReFacts.firstn_exact_at by lia. reflexivity.
Qed.

Lemma search_first r pre :
  forall s i,
    (forall a b, pre = a ++ b -> b <> [] -> execAt r (i + length a) (b ++ s) = None) ->
    search r i (pre ++ s) = search r (i + length pre) s.
Proof.
  induction pre as [|c pre IH]; intros s i H.
  - simpl. now rewrite Nat.add_0_r.
  - cbn [app search].
    pose proof (H [] (c :: pre) eq_refl ltac:(discriminate)) as H0.
    simpl in H0. rewrite Nat.add_0_r in H0. rewrite H0.
    rewrite IH.
    + f_equal. simpl. lia.
    + intros a b E N. specialize (H (c :: a) b). simpl in H.
      replace (S i + length a) with (i + S (length a)) by lia.
      apply H; [now f_equal|exact N].
Qed.

Lemma tagValue_first name value pgn :
  firstTag name value pgn -> tagValue name pgn = value.
Proof.
  intros (pre & s & -> & T & Min). unfold tagValue, exec.
  rewrite search_first.
  - destruct (tagRe_here name value s (0 + length pre) T) as (x & E & G).
    rewrite (ParseFacts.search_here _ _ _ _ E), G. reflexivity.
  - intros a b E N.
    destruct (execAt (tagRe name) (0 + length a) (b ++ s)) as [x|] eqn:X; [|reflexivity].
    exfalso. apply execAt_sound in X as (w & Ew & M & _).
    apply tagRe_shape in M as (v' & T' & _).
    rewrite <- Ew in T'.
    specialize (Min a (b ++ s) v'). rewrite E, <- app_assoc in Min.
    specialize (Min eq_refl T'). rewrite length_app in Min.
    destruct b; [congruence|simpl in Min; lia].
Qed.

Lemma tagValue_none name pgn : noTag name pgn -> tagValue name pgn = [].
Proof.
  intros N. unfold tagValue, exec.
  rewrite SplitFacts.search_none; [reflexivity|].
  intros pre w rest j cs E M. apply tagRe_shape in M as (v & T & _).
  apply (N pre (w ++ rest) v E T).
Qed.

Lemma tagAt_nonempty name value s : tagAt name value s -> s <> [].
Proof. intros (ws & post & -> & _). discriminate. Qed.

End TagFacts.

(** X17.  [extractECOCodeFromPGN] returns the value of the first [ECO] tag
    pair of the text, and [extractECOFromPGN] that of the first [ECOUrl] tag
    pair; without such a pair, as for an empty text, the result is the empty
    string. *)
Theorem extractECO_reads_the_first_tag (pgn value : str) :
  (Notions.firstTag "ECO" value pgn -> Games.extractECOCodeFromPGN pgn = value)
  /\ (Notions.noTag "ECO" pgn -> Games.extractECOCodeFromPGN pgn = [])
  /\ (Notions.firstTag "ECOUrl" value pgn -> Games.extractECOFromPGN pgn = value)
  /\ (Notions.noTag "ECOUrl" pgn -> Games.extractECOFromPGN pgn = []).
Proof.
  unfold Games.extractECOCodeFromPGN, Games.extractECOFromPGN.
  repeat split; intros H.
  - destruct pgn; [|now apply TagFacts.tagValue_first].
    destruct H as (pre & s & E & T & _). apply TagFacts.tagAt_nonempty in T.
    destruct pre, s; try discriminate; congruence.
  - destruct pgn; [reflexivity|now apply TagFacts.tagValue_none].
  - destruct pgn; [|now apply TagFacts.tagValue_first].
    destruct H as (pre & s & E & T & _). apply TagFacts.tagAt_nonempty in T.
    destruct pre, s; try discriminate; congruence.
  - destruct pgn; [reflexivity|now apply TagFacts.tagValue_none].
Qed.

Lemma extractECO_reads_the_first_tag_witness :
  Games.extractECOFromPGN
    ("[ECOUrl " ++ [GameAnalyzer.quote] ++ "https://www.chess.com/openings/Italian-Game"
     ++ [GameAnalyzer.quote] ++ "]" ++ [ChessFetcher.nl] ++ "1. e4")
  = "https://www.chess.com/openings/Italian-Game".
Proof.
  apply (extractECO_reads_the_first_tag _ "https://www.chess.com/openings/Italian-Game").
  exists [], ("[ECOUrl " ++ [GameAnalyzer.quote] ++ "https://www.chess.com/openings/Italian-Game"
              ++ [GameAnalyzer.quote] ++ "]" ++ [ChessFetcher.nl] ++ "1. e4").
  split; [reflexivity|]. split.
  - exists " ", ([ChessFetcher.nl] ++ "1. e4"). repeat split; try discriminate; reflexivity.
  - intros. simpl. lia.
Defined.

(** ** Statistics, stored ratings and texts without moves *)

Module MoreFacts.
Import Re ChessFetcher Spec Games Notions ReFacts SplitFacts.

(** *** A slug without digits, dots and slashes *)

Lemma plain_in b c : forallb plainChar b = true -> In c b -> plainChar c = true.
Proof. intros P I. rewrite forallb_forall in P. auto. Qed.

Lemma split_plain_slug b :
  forallb plainChar b = true -> b <> [] ->
  splitEcoUrl ("https://www.chess.com/openings/" ++ b) = mkSplit (Js.toLowerCase b) "".
Proof.
  intros P N. unfold splitEcoUrl.
  rewrite marker_included. cbn [negb].
  rewrite fullSlug_of by now apply plain_no_slash.
  destruct b as [|c0 t0] eqn:E0; [congruence|]. rewrite <- E0 in *. clear N.
  assert (W : matchAll withRe b = []).
  { apply matchAll_none, search_none. intros pre w rest j cs E M.
    apply withRe_shape in M as (d & ds & tl & -> & Hd & _).
    assert (I : In d b).
    { rewrite E. apply in_or_app. right. apply in_or_app. left.
      apply in_or_app. right. now left. }
    apply (plain_in b d P) in I. apply plain_not_digit in I. congruence. }
  assert (M : exec movePattern b = None).
  { unfold exec. apply search_none. intros pre w rest j cs E M.
    apply movePattern_shape in M as [(d & tl & -> & Hd)|(tl & ->)].
    - assert (I : In d b).
      { rewrite E. apply in_or_app. right. right. now left. }
      apply (plain_in b d P) in I. apply plain_not_digit in I. congruence.
    - assert (I : In "."%char b).
      { rewrite E. apply in_or_app. right. now left. }
      apply (plain_in b _ P) in I. discriminate I. }
  rewrite W. cbn [splice List.map restore]. now rewrite M.
Qed.

(** *** Statistics *)

Lemma one_kind m :
  count (movedAs GameAnalyzer.Pawn) [m] + count (movedAs GameAnalyzer.Knight) [m]
  + count (movedAs GameAnalyzer.Bishop) [m] + count (movedAs GameAnalyzer.Rook) [m]
  + count (movedAs GameAnalyzer.Queen) [m] + count (movedAs GameAnalyzer.King) [m]
  + count unclassified [m] = 1.
Proof.
  unfold count, movedAs, unclassified. cbn [List.filter].
  destruct (GameAnalyzer.pieceOf m) as [[]|]; reflexivity.
Qed.

Lemma kinds_partition ms :
  count (movedAs GameAnalyzer.Pawn) ms + count (movedAs GameAnalyzer.Knight) ms
  + count (movedAs GameAnalyzer.Bishop) ms + count (movedAs GameAnalyzer.Rook) ms
  + count (movedAs GameAnalyzer.Queen) ms + count (movedAs GameAnalyzer.King) ms
  + count unclassified ms = length ms.
Proof.
  induction ms as [|m ms IH]; [reflexivity|].
  rewrite !(StatsFacts.count_cons _ m ms). pose proof (one_kind m). simpl length. lia.
Qed.

Lemma count_le f ms : count f ms <= length ms.
Proof. unfold count. apply List.filter_length_le. Qed.

(** *** The ledger read from the table *)

Lemma noteRow_lookup f l r :
  f <> ("__proto__" : str) ->
  noteRow l r !! f = if rated f r then Some (Some (my_rating r)) else l !! f.
Proof.
  intros N. unfold noteRow, rated.
  destruct (row_format r) as [[|c s]|] eqn:F.
  - destruct f as [|c s].
    + cbn [nonEmpty]. now rewrite andb_false_r.
    + rewrite bool_decide_eq_false_2 by discriminate. reflexivity.
  - destruct (bool_decide (Some (c :: s) = Some f)) eqn:E.
    + apply bool_decide_eq_true_1 in E. inversion E; subst. cbn [nonEmpty andb].
      destruct (my_rating r =? 0)%Z; cbn [negb]; [reflexivity|].
      now apply LedgerFacts.writeLedger_same.
    + apply bool_decide_eq_false_1 in E. cbn [andb].
      destruct (my_rating r =? 0)%Z; [reflexivity|].
      apply LedgerFacts.writeLedger_other. congruence.
  - rewrite bool_decide_eq_false_2 by discriminate. reflexivity.
Qed.

Lemma noteRows_lookup f rows :
  f <> ("__proto__" : str) ->
  forall l,
    fold_left noteRow rows l !! f
    = match lastRated f rows with
      | Some r => Some (Some (my_rating r))
      | None => l !! f
      end.
Proof.
  intros N. unfold lastRated.
  induction rows as [|r rows IH] using rev_ind; intros l; [reflexivity|].
  rewrite fold_left_app, List.filter_app. cbn [fold_left List.filter].
  rewrite (noteRow_lookup f _ r N).
  destruct (rated f r); [now rewrite last_snoc|]. rewrite app_nil_r. apply IH.
Qed.

Lemma lastRated_nonzero f rows r : lastRated f rows = Some r -> my_rating r <> 0%Z.
Proof.
  unfold lastRated. intros H.
  assert (I : In r (List.filter (rated f) rows)).
  { revert H. generalize (List.filter (rated f) rows).
    intros l. induction l as [|x l IH] using rev_ind; [discriminate|].
    rewrite last_snoc. intros H. inversion H; subst. apply in_or_app. right. now left. }
  apply filter_In in I as [_ E]. unfold rated in E.
  apply andb_true_iff in E as [_ E]. apply negb_true_iff in E. now apply Z.eqb_neq in E.
Qed.

(** *** A text without a blank line *)

Lemma findSub_missing p s : ~ contains p s -> Js.findSub p [] s = None.
Proof.
  intros N. destruct (Js.findSub p [] s) as [[a b]|] eqn:E; [|reflexivity].
  apply JsFacts.findSub_some in E as (a' & _ & F & _). exfalso. apply N. now exists a', b.
Qed.

Lemma no_blank_line_no_section pgn :
  ~ contains [nl; nl] pgn -> moveSection pgn = [].
Proof.
  intros N. unfold moveSection, Js.split.
  rewrite splitGo_unfold by discriminate. now rewrite (findSub_missing _ _ N).
Qed.

End MoreFacts.

(** X21.  The statistics split the moves three ways: the pawn moves, the
    piece moves, and the moves that begin with none of the letters [a-h],
    [N], [B], [R], [Q], [K] (a castling, say), which are counted in the total
    only.  No counter exceeds the total. *)
Theorem analyzeMoves_counts_add_up (ms : list str) :
  let s := GameAnalyzer.analyzeMoves ms in
  GameAnalyzer.pawnMoves s + GameAnalyzer.pieceMoves s + Spec.count Notions.unclassified ms
  = GameAnalyzer.totalMoves s
  /\ GameAnalyzer.captures s <= GameAnalyzer.totalMoves s
  /\ GameAnalyzer.checks s <= GameAnalyzer.totalMoves s
  /\ GameAnalyzer.checkmates s <= GameAnalyzer.totalMoves s
  /\ GameAnalyzer.castles s <= GameAnalyzer.totalMoves s
  /\ GameAnalyzer.promotions s <= GameAnalyzer.totalMoves s.
Proof.
  intros s. subst s. unfold GameAnalyzer.analyzeMoves.
  set (s0 := GameAnalyzer.mkStats (length ms) 0 0 0 0 0 0 0 0 0 0 0 0 [] []).
  destruct (StatsFacts.countFrom_counts ms 0 s0) as (H1&H2&H3&H4&H5&H6&H7&H8&H9&H10&H11).
  destruct (StatsFacts.countFrom_sides ms 0 s0) as (_ & _ & HT).
  cbv zeta in *.
  unfold GameAnalyzer.sumPieces.
  cbn [GameAnalyzer.pawnMoves GameAnalyzer.pieceMoves GameAnalyzer.totalMoves
       GameAnalyzer.captures GameAnalyzer.checks GameAnalyzer.checkmates
       GameAnalyzer.castles GameAnalyzer.promotions].
  rewrite H1, H2, H3, H4, H5, H6, H7, H8, H9, H10, H11, HT. subst s0.
  cbn [GameAnalyzer.pawnMoves GameAnalyzer.totalMoves GameAnalyzer.captures
       GameAnalyzer.checks GameAnalyzer.checkmates GameAnalyzer.castles
       GameAnalyzer.promotions GameAnalyzer.knightMoves GameAnalyzer.bishopMoves
       GameAnalyzer.rookMoves GameAnalyzer.queenMoves GameAnalyzer.kingMoves].
  pose proof (MoreFacts.kinds_partition ms).
  pose proof (MoreFacts.count_le (Js.includes "x") ms).
  pose proof (MoreFacts.count_le (Js.includes "+") ms).
  pose proof (MoreFacts.count_le (Js.includes "#") ms).
  pose proof (MoreFacts.count_le (Js.includes "O-O") ms).
  pose proof (MoreFacts.count_le (Js.includes "=") ms).
  repeat split; lia.
Qed.

(** X16.  A tracker that loads the table starts every format from the last
    row of that format whose rating is not 0: the first game of the format
    afterwards is rated against it.  A tracker that has loaded once does not
    load again. *)
Theorem loadFromDatabase_last_rating (rows : list Games.ratingRow) (f : str) (c : Z) :
  f <> ("__proto__" : str) ->
  fst (Games.calculateRating f (Games.RNum c) (Games.loadFromDatabase rows Games.newTracker))
  = match Notions.lastRated f rows with
    | Some r => (Games.BNum (Games.my_rating r), Games.DNum (c - Games.my_rating r))
    | None => fst (Games.calculateRating f (Games.RNum c) Games.newTracker)
    end
  /\ forall rows' t, Games.loaded t = true -> Games.loadFromDatabase rows' t = t.
Proof.
  intros N. split.
  - unfold Games.calculateRating, Games.loadFromDatabase. cbn [fst Games.loaded Games.newTracker
      Games.ledger]. unfold Games.readLedger.
    rewrite (MoreFacts.noteRows_lookup f rows N ∅).
    destruct (Notions.lastRated f rows) as [r|] eqn:L; [|reflexivity].
    apply MoreFacts.lastRated_nonzero in L. apply Z.eqb_neq in L. now rewrite L.
  - intros rows' t L. unfold Games.loadFromDatabase. now rewrite L.
Qed.

Lemma loadFromDatabase_last_rating_witness :
  fst (Games.calculateRating "blitz" (Games.RNum 1510)
         (Games.loadFromDatabase [Games.mkRatingRow (Some ("blitz" : str)) 1490;
                                  Games.mkRatingRow (Some ("blitz" : str)) 1500]
                                 Games.newTracker))
  = (Games.BNum 1500, Games.DNum 10).
Proof.
  apply (loadFromDatabase_last_rating [Games.mkRatingRow (Some ("blitz" : str)) 1490;
                                       Games.mkRatingRow (Some ("blitz" : str)) 1500]
                                      "blitz" 1510).
  discriminate.
Defined.

(** X19.  A text without a blank line has no move section: the result of
    [parseMovesAndClocks] holds an empty list of moves, and no plies and no
    moves; for the empty text it holds no list at all. *)
Theorem parseMovesAndClocks_without_moves (pgn : str) (fuel : nat) :
  ~ Spec.contains [ChessFetcher.nl; ChessFetcher.nl] pgn -> 0 < fuel ->
  ChessFetcher.parseMovesAndClocks fuel pgn
  = Some (match pgn with
          | [] => ChessFetcher.mkMoves None 0 0
          | _ :: _ => ChessFetcher.mkMoves (Some []) 0 0
          end).
Proof.
  intros N F. destruct pgn as [|c pgn]; [reflexivity|].
  unfold ChessFetcher.parseMovesAndClocks.
  rewrite (MoreFacts.no_blank_line_no_section _ N).
  destruct fuel as [|fuel]; [lia|]. reflexivity.
Qed.

Lemma parseMovesAndClocks_without_moves_witness :
  ChessFetcher.parseMovesAndClocks 1 "1. e4 e5" = Some (ChessFetcher.mkMoves (Some []) 0 0).
Proof.
  apply (parseMovesAndClocks_without_moves "1. e4 e5" 1).
  - rewrite <- JsFacts.includes_spec. vm_compute. discriminate.
  - lia.
Defined.

(** X8.  A URL of the opening pages whose slug has no digit, no dot and no
    slash, looked up in a freshly loaded table: when the table has a row
    whose slug is the slug of the URL, whatever the case of the letters and
    the white space around it, the data of the last such row are returned,
    with the lower-cased slug and no extra moves. *)
Theorem opening_found_whatever_the_case (now : Z) (rows : list ChessFetcher.row)
        (b : str) (r : ChessFetcher.row) :
  forallb Spec.plainChar b = true -> b <> [] ->
  Notions.lastRow (Js.toLowerCase b) rows = Some r ->
  (Games.getOpeningDataForGame now (ChessFetcher.Rows rows) ChessFetcher.initialCache
     ("https://www.chess.com/openings/" ++ b)).1.1
  = Games.mkOpeningData
      (ChessFetcher.orEmpty (ChessFetcher.full_name r)) (Js.toLowerCase b)
      (ChessFetcher.orEmpty (ChessFetcher.row_family r))
      (ChessFetcher.orEmpty (ChessFetcher.base_name r))
      (ChessFetcher.orEmpty (ChessFetcher.variation_1 r))
      (ChessFetcher.orEmpty (ChessFetcher.variation_2 r))
      (ChessFetcher.orEmpty (ChessFetcher.variation_3 r))
      (ChessFetcher.orEmpty (ChessFetcher.variation_4 r))
      (ChessFetcher.orEmpty (ChessFetcher.variation_5 r))
      (ChessFetcher.orEmpty (ChessFetcher.variation_6 r)) "".
Proof.
  intros P N L. unfold Games.getOpeningDataForGame.
  change ("https://www.chess.com/openings/" ++ b)
    with ("h"%char :: ("ttps://www.chess.com/openings/" ++ b)).
  cbv iota.
  change ("h"%char :: ("ttps://www.chess.com/openings/" ++ b))
    with ("https://www.chess.com/openings/" ++ b).
  rewrite (MoreFacts.split_plain_slug b P N). cbn [ChessFetcher.baseSlug ChessFetcher.extraMoves].
  destruct (Js.toLowerCase b) as [|c k] eqn:K.
  { destruct b; [congruence|discriminate K]. }
  change (ChessFetcher.loadOpeningsDb now (ChessFetcher.Rows rows) ChessFetcher.initialCache)
    with (fold_left ChessFetcher.addRow rows ∅,
          ChessFetcher.mkCache (Some (fold_left ChessFetcher.addRow rows ∅)) (Some now),
          [ChessFetcher.ExistsSync; ChessFetcher.OpenDb; ChessFetcher.SelectAll;
           ChessFetcher.CloseDb]).
  cbv iota beta.
  unfold ChessFetcher.lookupOpening.
  rewrite (CatalogFacts.addRows_lookup rows ∅ (c :: k)) by discriminate.
  rewrite L. cbn [fst].
  apply CatalogFacts.lastRow_some in L as [_ L].
  unfold Notions.entryOf. cbn [ChessFetcher.fullName ChessFetcher.slug ChessFetcher.family
    ChessFetcher.baseName ChessFetcher.var1 ChessFetcher.var2 ChessFetcher.var3
    ChessFetcher.var4 ChessFetcher.var5 ChessFetcher.var6].
  rewrite L. reflexivity.
Qed.

Lemma opening_found_whatever_the_case_witness :
  let row := ChessFetcher.mkRow (Some ("  Italian-Game " : str)) (Some ("Italian Game" : str))
                                None None None None None None None None in
  Games.openingName
    (Games.getOpeningDataForGame 1000 (ChessFetcher.Rows [row]) ChessFetcher.initialCache
       ("https://www.chess.com/openings/" ++ "Italian-Game")).1.1
  = "Italian Game".
Proof.
  intros row.
  rewrite (opening_found_whatever_the_case 1000 [row] "Italian-Game" row).
  - reflexivity.
  - reflexivity.
  - discriminate.
  - vm_compute. reflexivity.
Defined.

(** ** Who the player is *)

Module PlayerFacts.
Import Games.

Lemma isWhite_lower w a b :
  Js.toLowerCase a = Js.toLowerCase b -> isWhite w a = isWhite w b.
Proof. unfold isWhite. now intros ->. Qed.

Lemma isWhite_other w me :
  Js.toLowerCase me <> Js.toLowerCase (username w) -> isWhite w me = false.
Proof.
  intros N. unfold isWhite, ChessFetcher.strEq. apply bool_decide_eq_false_2. congruence.
Qed.

End PlayerFacts.

(** X23.  The player is told from the user name without regard to letter
    case, and only White's name is looked at: two names that agree in lower
    case get the same outcome and the same termination, and a name that is
    not White's is taken for Black, whether it is Black's name or not. *)
Theorem player_is_told_by_whites_name (g : Games.game) (w b : Games.player) (me : str) :
  Games.white g = Some w -> Games.black g = Some b ->
  (forall me', Js.toLowerCase me = Js.toLowerCase me' ->
               Games.getGameOutcome g me = Games.getGameOutcome g me'
               /\ Games.getGameTermination g me = Games.getGameTermination g me')
  /\ (Js.toLowerCase me <> Js.toLowerCase (Games.username w) ->
      Js.toLowerCase (Games.username b) <> Js.toLowerCase (Games.username w) ->
      Games.getGameOutcome g me = Games.getGameOutcome g (Games.username b)
      /\ Games.getGameTermination g me = Games.getGameTermination g (Games.username b)).
Proof.
  intros W B. unfold Games.getGameOutcome, Games.getGameTermination. rewrite W, B. split.
  - intros me' E. now rewrite (PlayerFacts.isWhite_lower w me me' E).
  - intros N1 N2.
    now rewrite (PlayerFacts.isWhite_other w me N1), (PlayerFacts.isWhite_other w _ N2).
Qed.

Lemma player_is_told_by_whites_name_witness :
  let g := Games.mkGame None None None
             (Some (Games.mkPlayer "Ann" (Some ("win" : str))))
             (Some (Games.mkPlayer "Bob" (Some ("resigned" : str)))) in
  Games.getGameOutcome g "carl" = Games.getGameOutcome g "Bob"
  /\ Games.getGameTermination g "carl" = Games.getGameTermination g "Bob".
Proof.
  intros g.
  destruct (player_is_told_by_whites_name g (Games.mkPlayer "Ann" (Some ("win" : str)))
              (Games.mkPlayer "Bob" (Some ("resigned" : str))) "carl" eq_refl eq_refl)
    as [_ H].
  apply H; vm_compute; discriminate.
Defined.

(** ** A game written out and read back (game-analyzer.js, [parsePGN]) *)

Module TextFacts.
Import Re GameAnalyzer Spec Notions ReFacts.

(** *** Cutting a text that was joined *)

Lemma split_join c parts :
  parts <> [] -> Forall (fun p => ~ In c p) parts ->
  Js.split [c] (Js.join [c] parts) = parts.
Proof.
  intros N F. unfold Js.split.
  induction F as [|p parts Hp F IH]; [congruence|].
  destruct parts as [|q parts].
  - simpl. now apply (NumFacts.splitGo_last c p Hp []).
  - change (Js.join [c] (p :: q :: parts)) with (p ++ c :: Js.join [c] (q :: parts)).
    rewrite (NumFacts.splitGo_cut c p Hp [] _). simpl rev. cbn [app].
    f_equal. apply IH. discriminate.
Qed.


(** *** The characters and the words of the move text *)

Lemma wordChar_plain c : wordChar c = true -> Js.isSpace c = false.
Proof.
  destruct c as [[] [] [] [] [] [] [] []]; vm_compute; intros H;
    try discriminate H; reflexivity.
Qed.

Lemma word_chars t : word t -> t <> [] /\ forallb wordChar t = true.
Proof.
  intros [(n & [N H] & ->)|[N H]].
  - split; [destruct n; discriminate|].
    rewrite forallb_app. apply andb_true_iff. split; [|reflexivity].
    apply forallb_forall. intros c I. rewrite forallb_forall in H.
    unfold wordChar. now rewrite (H c I).
  - split; [exact N|]. apply forallb_forall. intros c I.
    rewrite forallb_forall in H. unfold wordChar. rewrite (H c I). apply orb_true_r.
Qed.

Lemma wordsOf_words m : wellNumbered m -> Forall word (wordsOf m).
Proof.
  intros (Hn & Hw & Hb). unfold wordsOf.
  constructor; [left; eauto|]. constructor; [now right|].
  destruct (blackMove m); [|constructor]. constructor; [now right|constructor].
Qed.

Lemma moveList_words ms : moveList ms -> Forall word (concat (List.map wordsOf ms)).
Proof.
  induction ms as [|m ms IH]; [constructor|].
  intros (Hm & _ & Hms). cbn [List.map concat].
  apply Forall_app. split; [now apply wordsOf_words|now apply IH].
Qed.

(** The text with a space before every word. *)
Lemma spaced_words ws :
  ws <> [] -> " " ++ Js.join " " ws = concat (List.map (cons " "%char) ws).
Proof.
  induction ws as [|t ws IH]; [congruence|]. intros _.
  destruct ws as [|u ws]; [simpl; now rewrite app_nil_r|].
  change (Js.join " " (t :: u :: ws)) with (t ++ " " ++ Js.join " " (u :: ws)).
  change (concat (List.map (cons " "%char) (t :: u :: ws)))
    with ((" "%char :: t) ++ concat (List.map (cons " "%char) (u :: ws))).
  rewrite <- IH by discriminate. reflexivity.
Qed.

Lemma text_chars ws c :
  Forall word ws -> In c (Js.join " " ws) -> c = " "%char \/ wordChar c = true.
Proof.
  intros F. induction F as [|t ws Ht F IH]; [intros []|].
  destruct (word_chars t Ht) as [_ Hc]. rewrite forallb_forall in Hc.
  destruct ws as [|u ws]; [simpl; auto|].
  change (Js.join " " (t :: u :: ws)) with (t ++ " " ++ Js.join " " (u :: ws)).
  intros I. apply in_app_or in I as [I|I]; [auto|].
  destruct I as [<-|I]; [now left|]. now apply IH.
Qed.

(** A piece of the text that holds no space lies in one word. *)
Lemma piece_in_word ws :
  forall pre w rest,
    Js.join " " ws = pre ++ w ++ rest -> w <> [] -> ~ In " "%char w ->
    exists t a b, In t ws /\ t = a ++ w ++ b.
Proof.
  induction ws as [|t ws IH]; intros pre w rest E Nw Sw.
  - simpl in E. destruct pre, w; try discriminate; congruence.
  - destruct ws as [|u ws].
    + simpl in E. exists t, pre, rest. split; [now left|exact E].
    + change (Js.join " " (t :: u :: ws)) with (t ++ " " ++ Js.join " " (u :: ws)) in E.
      apply app_eq_app in E as [l [[E1 E2]|[E1 E2]]].
      * apply app_eq_app in E2 as [l' [[E3 E4]|[E3 E4]]].
        -- destruct l' as [|x l'].
           ++ rewrite app_nil_r in E3. subst. exists (pre ++ l), pre, [].
              split; [now left|now rewrite app_nil_r].
           ++ simpl in E4. injection E4 as <- _. exfalso. apply Sw. subst w.
              apply in_or_app. right. now left.
        -- subst. exists (pre ++ w ++ l'), pre, l'. split; [now left|reflexivity].
      * destruct l as [|x l].
        { simpl in E2. destruct w as [|y w]; [congruence|].
          simpl in E2. injection E2 as <- _. exfalso. apply Sw. now left. }
        simpl in E2. injection E2 as _ E2.
        destruct (IH l w rest E2 Nw Sw) as (t' & a & b & I & Et).
        exists t', a, b. split; [now right|exact Et].
Qed.


(** *** Cleaning text that is clean *)

Lemma replaceAll_nothing r repl x : search r 0 x = None -> replaceAll r repl x = x.
Proof.
  intros H. unfold replaceAll, replaceAllWith.
  now rewrite (SplitFacts.matchAll_none r x H).
Qed.

(** An expression finds nothing in a text that holds none of the characters
    it can begin with. *)
Lemma nothing_to_begin_with r x :
  nullable r = false -> (forall c, In c x -> first r c = false) -> search r 0 x = None.
Proof.
  intros N F. apply SplitFacts.search_none. intros pre w rest j cs E M.
  pose proof (matches_nonempty _ _ _ _ _ _ M N) as Nw.
  destruct w as [|c w]; [congruence|].
  pose proof (ClockFacts.matches_first _ _ _ _ _ _ M c w eq_refl) as Fc.
  rewrite F in Fc; [discriminate|].
  rewrite E. apply in_or_app. right. now left.
Qed.

Lemma marks_are_no_words c :
  c = " "%char \/ wordChar c = true ->
  first commentRe c = false /\ first variationRe c = false
  /\ first nagRe c = false /\ first annotRe c = false.
Proof.
  intros [->|H]; [repeat split; reflexivity|].
  destruct c as [[] [] [] [] [] [] [] []]; try discriminate H; repeat split; reflexivity.
Qed.

Lemma resultRe_shape i w rest cs cs' :
  matches resultRe i w rest cs cs' ->
  w = "1-0" \/ w = "0-1" \/ w = "1/2-1/2" \/ w = ["*"%char].
Proof.
  unfold resultRe. intros M.
  repeat (split_match; open_match); auto.
Qed.

Lemma no_result_in_word t a w b :
  word t -> t = a ++ w ++ b ->
  w = "1-0" \/ w = "0-1" \/ w = "1/2-1/2" \/ w = ["*"%char] -> False.
Proof.
  intros Ht -> Hw.
  assert (In1 : forall c, In c w -> In c (a ++ w ++ b)).
  { intros c I. apply in_or_app. right. apply in_or_app. now left. }
  destruct Ht as [(n & [_ D] & E)|[_ S]].
  - assert (I : In "-"%char (n ++ ".") \/ In "*"%char (n ++ ".")).
    { rewrite <- E. destruct Hw as [-> | [-> | [-> | ->]]];
        first [left; apply In1; simpl; tauto|right; apply In1; simpl; tauto]. }
    rewrite forallb_forall in D.
    destruct I as [I|I]; apply in_app_or in I as [I|I];
      try (specialize (D _ I); discriminate D); simpl in I; intuition discriminate.
  - rewrite forallb_forall in S.
    assert (I : In "0"%char (a ++ w ++ b) \/ In "/"%char (a ++ w ++ b)
                \/ In "*"%char (a ++ w ++ b)).
    { destruct Hw as [-> | [-> | [-> | ->]]];
        first [left; apply In1; simpl; tauto
              |right; left; apply In1; simpl; tauto
              |right; right; apply In1; simpl; tauto]. }
    destruct I as [I|[I|I]]; specialize (S _ I); discriminate S.
Qed.

Lemma no_result_in_text ws :
  Forall word ws -> search resultRe 0 (" " ++ Js.join " " ws) = None.
Proof.
  intros F. apply SplitFacts.search_none. intros pre w rest j cs E M.
  apply resultRe_shape in M.
  assert (Nw : w <> []) by (destruct M as [-> | [-> | [-> | ->]]]; discriminate).
  assert (Sw : ~ In " "%char w).
  { destruct M as [-> | [-> | [-> | ->]]]; simpl; intuition discriminate. }
  destruct pre as [|x pre].
  - destruct w as [|y w]; [congruence|]. simpl in E. injection E as <- _.
    apply Sw. now left.
  - simpl in E. injection E as _ E.
    destruct (piece_in_word ws pre w rest E Nw Sw) as (t & a & b & I & Et).
    rewrite List.Forall_forall in F. eapply no_result_in_word; eauto.
Qed.


(** *** One space between the words *)

Lemma word_head t : word t -> exists c u, t = c :: u /\ Js.isSpace c = false.
Proof.
  intros H. destruct (word_chars t H) as [N C].
  destruct t as [|c u]; [congruence|]. exists c, u. split; [reflexivity|].
  simpl in C. apply andb_true_iff in C as [C _]. now apply wordChar_plain.
Qed.

Lemma word_no_space t : word t -> forallb (fun c => negb (Js.isSpace c)) t = true.
Proof.
  intros H. destruct (word_chars t H) as [_ C]. apply forallb_forall. intros c I.
  rewrite forallb_forall in C. now rewrite (wordChar_plain c (C c I)).
Qed.

Lemma spaces_not_here c u j : Js.isSpace c = false -> execAt spacesRe j (c :: u) = None.
Proof. intros H. unfold execAt, spacesRe, Plus. cbn [run rep]. now rewrite H. Qed.

(** The search for white space passes over a word. *)
Lemma spaces_after_word t tail i :
  forallb (fun c => negb (Js.isSpace c)) t = true ->
  search spacesRe i (t ++ tail) = search spacesRe (i + length t) tail.
Proof.
  intros H. apply SplitFacts.search_skip. intros pre c u j E.
  apply spaces_not_here. rewrite forallb_forall in H.
  specialize (H c). rewrite E in H. apply negb_true_iff, H.
  apply in_or_app. right. now left.
Qed.

(** The one space before a word is a match of its own. *)
Lemma one_space_here c u j :
  Js.isSpace c = false ->
  execAt spacesRe j (" "%char :: c :: u) = Some (mkMatch j (S j) " " [] (c :: u)).
Proof.
  intros H. unfold execAt, spacesRe, Plus. cbn [run].
  rewrite (ParseFacts.rep_greedy Js.isSpace _ " " 1 j c u
             (mkMatch j (S j) " " [] (c :: u))); auto.
  simpl. replace (j + 1 - j) with 1 by lia. replace (j + 1) with (S j) by lia. reflexivity.
Qed.

(** Replacing a space by a space leaves words that are one space apart as
    they are. *)
Lemma single_spaces_kept ws :
  Forall word ws ->
  forall t n i k,
    forallb (fun c => negb (Js.isSpace c)) t = true ->
    length (t ++ concat (List.map (cons " "%char) ws)) < n ->
    splice (fun _ _ => " " : str) k i (t ++ concat (List.map (cons " "%char) ws))
           (matchesFrom n spacesRe i (t ++ concat (List.map (cons " "%char) ws)))
    = t ++ concat (List.map (cons " "%char) ws).
Proof.
  intros F. induction F as [|u ws Hu F IH]; intros t n i k Ht L.
  - cbn [List.map concat] in *. rewrite app_nil_r in *.
    destruct n as [|n]; [lia|]. cbn [matchesFrom].
    pose proof (spaces_after_word t [] i Ht) as E. rewrite app_nil_r in E.
    rewrite E. reflexivity.
  - cbn [List.map concat] in *.
    destruct n as [|n]; [lia|]. cbn [matchesFrom].
    destruct (word_head u Hu) as (c & u' & -> & Hc).
    rewrite spaces_after_word by exact Ht.
    cbn [app]. cbn [search]. rewrite (one_space_here c _ _ Hc).
    cbn [m_end m_index m_rest]. replace (Nat.eqb (S (i + length t)) (i + length t)) with false
      by (symmetry; apply Nat.eqb_neq; lia).
    cbn [splice m_index m_end].
    replace (i + length t - i) with (length t + 0) by lia.
    rewrite firstn_app_2, firstn_O, app_nil_r.
    replace (S (i + length t) - i) with (length t + 1) by lia.
    rewrite skipn_app, skipn_all2 by lia.
    replace (length t + 1 - length t) with 1 by lia. cbn [skipn app].
    specialize (IH (c :: u') n (S (i + length t)) (S k) (word_no_space _ Hu)).
    cbn [app] in IH. rewrite IH; [reflexivity|].
    rewrite length_app in L. simpl in L. simpl. lia.
Qed.

Lemma spaces_pass ws :
  Forall word ws -> ws <> [] ->
  replaceAll spacesRe " " (" " ++ Js.join " " ws) = " " ++ Js.join " " ws.
Proof.
  intros F N. rewrite (spaced_words ws N). unfold replaceAll, replaceAllWith, matchAll.
  apply (single_spaces_kept ws F [] _ 0 0); [reflexivity|]. simpl. lia.
Qed.

(** *** Nothing to trim but the space in front *)

Lemma text_head ws :
  Forall word ws -> ws <> [] ->
  exists c u, Js.join " " ws = c :: u /\ Js.isSpace c = false.
Proof.
  intros F N. destruct F as [|t ws Ht F]; [congruence|].
  destruct (word_head t Ht) as (c & u & -> & Hc).
  destruct ws as [|t' ws]; [exists c, u; auto|].
  change (Js.join " " ((c :: u) :: t' :: ws)) with ((c :: u) ++ " " ++ Js.join " " (t' :: ws)).
  eexists c, _. split; [reflexivity|exact Hc].
Qed.

Lemma text_last ws :
  Forall word ws -> ws <> [] ->
  exists c u, rev (Js.join " " ws) = c :: u /\ Js.isSpace c = false.
Proof.
  intros F. induction F as [|t ws Ht F IH]; [congruence|]. intros _.
  destruct ws as [|t' ws].
  - simpl. destruct (word_chars t Ht) as [Nt C].
    assert (Cr : forallb wordChar (rev t) = true).
    { apply forallb_forall. intros x I. rewrite <- in_rev in I.
      rewrite forallb_forall in C. auto. }
    destruct (rev t) as [|c u] eqn:R.
    + apply (f_equal (@rev _)) in R. rewrite rev_involutive in R. simpl in R. congruence.
    + exists c, u. split; [reflexivity|]. simpl in Cr.
      apply andb_true_iff in Cr as [Cc _]. now apply wordChar_plain.
  - change (Js.join " " (t :: t' :: ws)) with (t ++ " " ++ Js.join " " (t' :: ws)).
    rewrite !rev_app_distr. destruct (IH ltac:(discriminate)) as (c & u & -> & Hc).
    eexists c, _. split; [reflexivity|exact Hc].
Qed.

Lemma trim_text ws :
  Forall word ws -> ws <> [] -> Js.trim (" " ++ Js.join " " ws) = Js.join " " ws.
Proof.
  intros F N.
  change (Js.trim (" " ++ Js.join " " ws)) with (Js.trim (Js.join " " ws)).
  destruct (text_head ws F N) as (c & u & E & Hc).
  destruct (text_last ws F N) as (c' & u' & E' & Hc').
  apply NumFacts.trim_digits_like; [now rewrite E|now rewrite E'].
Qed.

(** The cleaning leaves words that are one space apart as they are, and
    takes the space in front away. *)
Lemma cleanMoves_clean ws :
  Forall word ws -> ws <> [] -> cleanMoves (" " ++ Js.join " " ws) = Js.join " " ws.
Proof.
  intros F N. unfold cleanMoves.
  assert (C : forall c, In c (" " ++ Js.join " " ws) -> c = " "%char \/ wordChar c = true).
  { intros c [<-|I]; [now left|]. now apply (text_chars ws c F). }
  rewrite (replaceAll_nothing commentRe).
  2:{ apply nothing_to_begin_with; [reflexivity|]. intros c I. now apply marks_are_no_words, C. }
  rewrite (replaceAll_nothing variationRe).
  2:{ apply nothing_to_begin_with; [reflexivity|]. intros c I. now apply marks_are_no_words, C. }
  rewrite (replaceAll_nothing nagRe).
  2:{ apply nothing_to_begin_with; [reflexivity|]. intros c I. now apply marks_are_no_words, C. }
  rewrite (replaceAll_nothing annotRe).
  2:{ apply nothing_to_begin_with; [reflexivity|]. intros c I. now apply marks_are_no_words, C. }
  rewrite (replaceAll_nothing resultRe) by now apply no_result_in_text.
  rewrite (spaces_pass ws F N). now apply trim_text.
Qed.


(** *** Reading the numbered moves *)

Lemma sanChar_plain c : sanChar c = true -> Js.isSpace c = false /\ Js.isDigit c || true = true.
Proof. intros H. split; [|apply orb_true_r]. apply wordChar_plain. unfold wordChar. rewrite H. apply orb_true_r. Qed.

Lemma space_no_san : sanChar " " = false.
Proof. reflexivity. Qed.

Lemma after_token p t tl :
  forallb p t = true -> p " "%char = false -> gap tl -> skipRun p (t ++ tl) = (t, tl).
Proof.
  intros H S G. apply FormatFacts.skipRun_app; [exact H|].
  destruct G as [->|(u & ->)]; [exact I|exact S].
Qed.

(** After a move, the rest of the expression accepts whatever comes. *)
Lemma rest_accepts (k : nat -> str -> caps -> option rmatch) :
  (forall j s cs, is_Some (k j s cs)) ->
  forall j s cs,
    is_Some (run (Seq (Star Js.isSpace) (Seq (Opt (Grp 2 (Plus sanChar))) Eps)) k j s cs).
Proof.
  intros K j s cs.
  apply (MatcherFacts.run_complete _ j [] s cs cs); [|apply K].
  change ([] : str) with ([] ++ [] ++ [] : str).
  apply M_Seq with (cs1 := cs); [apply M_Rep; [reflexivity|simpl; lia|exact I]|].
  apply M_Seq with (cs1 := cs); [apply M_OptNone|apply M_Eps].
Qed.

(** A greedy repetition takes the whole run when what follows is outside the
    class, or nothing, and the rest of the pattern accepts. *)
Lemma rep_run {A} (p : ascii -> bool) (k : nat -> str -> option A) w :
  forall lo i rest x,
    forallb p w = true ->
    match rest with [] => True | c :: _ => p c = false end ->
    lo <= length w ->
    k (i + length w) rest = Some x ->
    rep p lo None k i (w ++ rest) = Some x.
Proof.
  induction w as [|a w IH]; intros lo i rest x Hw Hr Hlo Hk.
  - simpl in *. assert (lo = 0) by lia. subst lo. rewrite Nat.add_0_r in Hk.
    destruct rest as [|c rest]; simpl; [exact Hk|]. now rewrite Hr.
  - simpl in Hw. apply andb_true_iff in Hw as [Ha Hw].
    cbn [app rep]. rewrite Ha. cbn [more andb decr].
    rewrite (IH (pred lo) (S i) rest x); auto.
    + simpl in Hlo. lia.
    + simpl in Hk. now replace (S i + length w) with (i + S (length w)) by lia.
Qed.

Lemma token_starts_plain w r :
  sanToken w -> match w ++ r with [] => True | c :: _ => Js.isSpace c = false end.
Proof.
  intros [N S]. destruct w as [|c w]; [congruence|]. simpl in *.
  apply andb_true_iff in S as [S _]. apply wordChar_plain. unfold wordChar.
  rewrite S. apply orb_true_r.
Qed.

Lemma gap_no_san tl : gap tl -> match tl with [] => True | c :: _ => sanChar c = false end.
Proof. intros [->|(u & ->)]; [exact I|reflexivity]. Qed.

Lemma token_length w : sanToken w -> 1 <= length w.
Proof. intros [N _]. destruct w; [congruence|simpl; lia]. Qed.

Lemma move_here j n w b tl :
  number n -> sanToken w -> sanToken b -> gap tl ->
  exists x, execAt movePattern j (n ++ ". " ++ w ++ " " ++ b ++ tl) = Some x
            /\ m_rest x = tl /\ m_end x = j + length (n ++ ". " ++ w ++ " " ++ b)
            /\ movesOf x = [w; b].
Proof.
  intros [Nn Dn] Hw Hb G.
  assert (Ln : 1 <= length n) by (destruct n; [congruence|simpl; lia]).
  pose proof (token_length w Hw) as Lw. pose proof (token_length b Hb) as Lb.
  unfold execAt, movePattern, Cat, Plus, Star. cbn [fold_right run].
  eexists. split; [|split; [|split]].
  - change (n ++ ". " ++ w ++ " " ++ b ++ tl) with (n ++ "."%char :: (" " ++ w ++ " " ++ b ++ tl)).
    apply ParseFacts.rep_greedy; [exact Dn|reflexivity|exact Ln|].
    rewrite Ascii.eqb_refl.
    apply (rep_run Js.isSpace _ " "); [reflexivity|now apply token_starts_plain|simpl; lia|].
    apply rep_run; [apply Hw|reflexivity|exact Lw|].
    apply (rep_run Js.isSpace _ " "); [reflexivity|now apply token_starts_plain|simpl; lia|].
    erewrite (rep_run sanChar _ b); [reflexivity|apply Hb|now apply gap_no_san|exact Lb|].
    reflexivity.
  - reflexivity.
  - cbn [m_end]. rewrite !length_app. simpl. lia.
  - unfold movesOf, pushGroup, group. cbn [m_caps cap Nat.eqb].
    rewrite !ReFacts.firstn_exact_at by lia.
    destruct Hw as [Nw _], Hb as [Nb _].
    destruct w; [congruence|]. destruct b; [congruence|]. reflexivity.
Qed.

(** The last move, when Black has not moved. *)
Lemma half_move_here j n w :
  number n -> sanToken w ->
  exists x, execAt movePattern j (n ++ ". " ++ w) = Some x
            /\ m_rest x = [] /\ movesOf x = [w].
Proof.
  intros [Nn Dn] Hw.
  assert (Ln : 1 <= length n) by (destruct n; [congruence|simpl; lia]).
  pose proof (token_length w Hw) as Lw.
  unfold execAt, movePattern, Cat, Plus, Star. cbn [fold_right run].
  eexists. split; [|split].
  - change (n ++ ". " ++ w) with (n ++ "."%char :: (" " ++ w)).
    apply ParseFacts.rep_greedy; [exact Dn|reflexivity|exact Ln|].
    rewrite Ascii.eqb_refl.
    rewrite <- (app_nil_r w) at 1.
    apply (rep_run Js.isSpace _ " "); [reflexivity|now apply token_starts_plain|simpl; lia|].
    apply rep_run; [apply Hw|exact I|exact Lw|].
    cbn [rep Nat.eqb]. reflexivity.
  - reflexivity.
  - unfold movesOf, pushGroup, group. cbn [m_caps cap Nat.eqb].
    rewrite !ReFacts.firstn_exact_at by lia.
    destruct Hw as [Nw _]. destruct w; [congruence|]. reflexivity.
Qed.

Lemma move_not_at_space j u : execAt movePattern j (" "%char :: u) = None.
Proof. reflexivity. Qed.


Lemma words_nonempty m rest : concat (List.map wordsOf (m :: rest)) <> [].
Proof. discriminate. Qed.

Lemma join_cons t ws : ws <> [] -> Js.join " " (t :: ws) = t ++ " " ++ Js.join " " ws.
Proof. destruct ws; [congruence|reflexivity]. Qed.

Lemma moveText_full m rest b :
  blackMove m = Some b ->
  moveText (m :: rest)
  = moveNo m ++ ". " ++ whiteMove m ++ " " ++ b
      ++ match rest with [] => [] | _ :: _ => " " ++ moveText rest end.
Proof.
  intros B. unfold moveText. cbn [List.map concat]. unfold wordsOf at 1. rewrite B.
  cbn [app]. rewrite join_cons by discriminate. rewrite join_cons by discriminate.
  destruct rest as [|m' rest].
  - simpl. now rewrite <- !app_assoc, !app_nil_r.
  - rewrite join_cons by apply words_nonempty. now rewrite <- !app_assoc.
Qed.

Lemma moveText_half m :
  blackMove m = None -> moveText [m] = moveNo m ++ ". " ++ whiteMove m.
Proof.
  intros B. unfold moveText. cbn [List.map concat]. unfold wordsOf. rewrite B.
  simpl. now rewrite <- !app_assoc.
Qed.

Lemma nothing_left fuel i : execLoop (S fuel) movePattern i [] = Some [].
Proof. reflexivity. Qed.

(** The loop over the numbered moves finds the moves in their order. *)
Lemma moves_loop ms :
  moveList ms -> ms <> [] ->
  forall lead i fuel,
    lead = [] \/ lead = " " -> length ms < fuel ->
    exists found,
      execLoop fuel movePattern i (lead ++ moveText ms) = Some found
      /\ concat (List.map movesOf found) = movesIn ms.
Proof.
  induction ms as [|m rest IH]; [congruence|].
  intros (Hm & Hlast & Hrest) _ lead i fuel Hlead L.
  destruct Hm as (Hn & Hw & Hb).
  destruct fuel as [|fuel]; [simpl in L; lia|]. cbn [execLoop].
  assert (S0 : exists j, search movePattern i (lead ++ moveText (m :: rest))
                         = search movePattern j (moveText (m :: rest))).
  { destruct Hlead as [->| ->]; [exists i; reflexivity|].
    exists (S i). change (" " ++ moveText (m :: rest)) with (" "%char :: moveText (m :: rest)).
    cbn [search]. rewrite move_not_at_space. reflexivity. }
  destruct S0 as [j ->].
  destruct (blackMove m) as [b|] eqn:B.
  - rewrite (moveText_full m rest b B).
    assert (G : gap match rest with [] => [] | _ :: _ => " " ++ moveText rest end).
    { destruct rest; [now left|right; eexists; reflexivity]. }
    destruct (move_here j (moveNo m) (whiteMove m) b _ Hn Hw Hb G) as (x & E & Er & Ee & Ev).
    rewrite (ParseFacts.search_here _ _ _ _ E), Er.
    destruct rest as [|m' rest].
    + destruct fuel as [|fuel]; [simpl in L; lia|]. rewrite nothing_left.
      eexists. split; [reflexivity|]. cbn [List.map concat movesIn].
      rewrite Ev, B. reflexivity.
    + destruct (IH Hrest ltac:(discriminate) " " (m_end x) fuel (or_intror eq_refl))
        as (found & F & V); [simpl in *; lia|].
      rewrite F. eexists. split; [reflexivity|].
      cbn [List.map concat]. rewrite V, Ev. unfold movesIn. cbn [List.map concat].
      rewrite B. reflexivity.
  - destruct rest as [|m' rest]; [|congruence].
    rewrite (moveText_half m B).
    destruct (half_move_here j (moveNo m) (whiteMove m) Hn Hw) as (x & E & Er & Ev).
    rewrite (ParseFacts.search_here _ _ _ _ E), Er.
    destruct fuel as [|fuel]; [simpl in L; lia|]. rewrite nothing_left.
    eexists. split; [reflexivity|]. cbn [List.map concat movesIn].
    rewrite Ev, B. reflexivity.
Qed.


(** *** The header lines and the lines of the text *)

Lemma tagFree_plain s : ~ In "["%char s -> tagFree s = true.
Proof.
  induction s as [|c t IH]; [reflexivity|]. intros N.
  destruct t as [|d t']; [reflexivity|].
  change (tagFree (c :: d :: t'))
    with (negb (Ascii.eqb c "[" && Js.isWord d) && tagFree (d :: t')).
  rewrite IH by (intros I; apply N; now right).
  destruct (Ascii.eqb_spec c "["); [exfalso; apply N; now left|]. reflexivity.
Qed.

Lemma join_more sep t ws : ws <> [] -> Js.join sep (t :: ws) = t ++ sep ++ Js.join sep ws.
Proof. destruct ws; [congruence|reflexivity]. Qed.

Lemma lines_as_items ts L :
  L <> [] ->
  ChessFetcher.nl :: Js.join [ChessFetcher.nl] (List.map tagLine ts ++ L)
  = pgnText (List.map (pair [ChessFetcher.nl]) ts)
            (ChessFetcher.nl :: Js.join [ChessFetcher.nl] L).
Proof.
  intros N. induction ts as [|t ts IH]; [reflexivity|].
  cbn [List.map app pgnText]. rewrite join_more by (destruct ts; [exact N|discriminate]).
  cbn [app]. f_equal. rewrite <- IH. reflexivity.
Qed.

Lemma gameText_items t ts ms :
  gameText (t :: ts) ms
  = pgnText (([], t) :: List.map (pair [ChessFetcher.nl]) ts)
            (ChessFetcher.nl :: ChessFetcher.nl :: moveText ms).
Proof.
  unfold gameText. cbn [List.map app pgnText].
  rewrite join_more by (destruct ts; discriminate).
  cbn [app]. f_equal. now rewrite lines_as_items.
Qed.

Lemma moveText_chars ms c :
  moveList ms -> In c (moveText ms) -> c = " "%char \/ wordChar c = true.
Proof. intros M. apply text_chars. now apply moveList_words. Qed.

Lemma text_no_mark ms c :
  moveList ms -> c <> " "%char -> wordChar c = false -> ~ In c (moveText ms).
Proof.
  intros M N W I. destruct (moveText_chars ms c M I) as [E|E]; congruence.
Qed.

Lemma gameText_wellFormed t ts ms :
  Forall headerTag (t :: ts) -> moveList ms ->
  wellFormed (([], t) :: List.map (pair [ChessFetcher.nl]) ts)
             (ChessFetcher.nl :: ChessFetcher.nl :: moveText ms).
Proof.
  intros F M. split.
  - inversion F as [|? ? (Hn & Hv & _) F']; subst.
    constructor; [repeat split; assumption|]. clear F.
    induction F' as [|u us (Hn' & Hv' & _) _ IH]; [constructor|].
    cbn [List.map]. constructor; [repeat split; assumption|exact IH].
  - apply tagFree_plain. intros [I|[I|I]]; [discriminate I|discriminate I|].
    now apply (text_no_mark ms "["%char M).
Qed.

Lemma gameText_tags t ts :
  tagsOf (([], t) :: List.map (pair [ChessFetcher.nl]) ts) = t :: ts.
Proof.
  unfold tagsOf. cbn [List.map snd]. f_equal.
  induction ts as [|u us IH]; [reflexivity|]. cbn [List.map snd]. now rewrite IH.
Qed.

Lemma fold_headers ms tags :
  (forall h, fold_left addHeader ms h
             = fold_left (fun h t => <[fst t := snd t]> h) tags h) ->
  fold_left addHeader ms ∅ = lastWins tags.
Proof. intros F. apply F. Qed.

Lemma lastWins_some tags : tags <> [] -> Nat.eqb (size (lastWins tags)) 0 = false.
Proof.
  intros N. destruct (exists_last N) as (pre & [n v] & ->).
  apply Nat.eqb_neq. intros E. apply map_size_empty_inv in E.
  pose proof (ParseFacts.lastWins_lookup pre n v [] (fun I => I)) as L.
  rewrite E in L. rewrite lookup_empty in L. discriminate L.
Qed.

Lemma word_not_nl c : Js.isWord c = true -> c <> ChessFetcher.nl.
Proof. intros H ->. discriminate H. Qed.

Lemma tagLine_one_line t : headerTag t -> ~ In ChessFetcher.nl (tagLine t).
Proof.
  intros (Hn & _ & Hv) I. unfold tagLine in I.
  apply in_app_or in I as [I|I]; [destruct I as [I|[]]; discriminate I|].
  apply in_app_or in I as [I|I].
  { unfold symbol in Hn. destruct (fst t) as [|c n]; [discriminate|].
    apply andb_true_iff in Hn as [_ Hn]. rewrite forallb_forall in Hn.
    now apply (word_not_nl _ (Hn _ I)). }
  apply in_app_or in I as [I|I]; [destruct I as [I|[]]; discriminate I|].
  apply in_app_or in I as [I|I]; [destruct I as [I|[]]; discriminate I|].
  apply in_app_or in I as [I|I]; [now apply Hv|].
  apply in_app_or in I as [I|I]; [destruct I as [I|[]]; discriminate I|].
  destruct I as [I|[]]; discriminate I.
Qed.

Lemma gameText_lines tags ms :
  Forall headerTag tags -> moveList ms ->
  Js.split [ChessFetcher.nl] (gameText tags ms) = List.map tagLine tags ++ [[]; moveText ms].
Proof.
  intros F M. unfold gameText. apply split_join.
  - destruct tags; discriminate.
  - apply Forall_app. split.
    + induction F as [|t ts Ht _ IH]; [constructor|].
      cbn [List.map]. constructor; [now apply tagLine_one_line|exact IH].
    + constructor; [intros []|]. constructor; [|constructor].
      now apply (text_no_mark ms ChessFetcher.nl M).
Qed.

(** *** The lines the moves are taken from *)

Lemma trimStart_keeps c s : In c s -> Js.isSpace c = false -> In c (Js.trimStart s).
Proof.
  induction s as [|a s IH]; [intros []|]. intros [->|I] H; cbn [Js.trimStart].
  - rewrite H. now left.
  - destruct (Js.isSpace a); [now apply IH|now right].
Qed.

Lemma trim_keeps c s : In c s -> Js.isSpace c = false -> Js.trim s <> [].
Proof.
  intros I H E.
  assert (I' : In c (Js.trim s)).
  { unfold Js.trim. apply -> in_rev. apply trimStart_keeps; [|exact H].
    apply -> in_rev. now apply trimStart_keeps. }
  rewrite E in I'. exact I'.
Qed.

Lemma tagLine_not_blank t : Js.trim (tagLine t) <> [].
Proof. apply (trim_keeps "["%char); [now left|reflexivity]. Qed.

Lemma collect_skips h hs rest :
  Forall (fun l => Js.trim l <> []) hs ->
  forall text, collectMoves h false text (hs ++ rest) = collectMoves h false text rest.
Proof.
  induction 1 as [|l hs Hl _ IH]; intros text; [reflexivity|].
  cbn [app collectMoves]. destruct (Js.trim l); [congruence|]. apply IH.
Qed.

Lemma moveText_not_blank m rest :
  moveList (m :: rest) -> Js.trim (moveText (m :: rest)) = moveText (m :: rest)
                          /\ moveText (m :: rest) <> [].
Proof.
  intros M. pose proof (moveList_words _ M) as F.
  pose proof (words_nonempty m rest) as N. split.
  - apply (trim_text _ F N).
  - destruct (text_head _ F N) as (c & u & E & _). unfold moveText. rewrite E. discriminate.
Qed.

Lemma collected tags ms :
  moveList ms ->
  collectMoves true false [] (List.map tagLine tags ++ [[]; moveText ms])
  = match ms with [] => [] | _ :: _ => " " ++ moveText ms end.
Proof.
  intros M. rewrite collect_skips.
  2:{ induction tags; constructor; [apply tagLine_not_blank|assumption]. }
  cbn [collectMoves Js.trim Js.trimStart rev].
  change (Js.trim []) with (@nil ascii).
  destruct ms as [|m rest]; [reflexivity|].
  destruct (moveText_not_blank m rest M) as [E N]. rewrite E.
  destruct (moveText (m :: rest)); [congruence|]. reflexivity.
Qed.

End TextFacts.

(** X24.  A game written out as header lines, an empty line and numbered
    moves a space apart is read back: the headers hold every name with the
    value of its last line, the moves are White's and Black's in the order
    they were played. *)
Theorem parsePGN_reads_back tags ms :
  tags <> [] -> Forall Notions.headerTag tags -> Notions.moveList ms ->
  exists n, forall fuel, n <= fuel ->
    GameAnalyzer.parsePGN fuel (Notions.gameText tags ms)
    = Some (GameAnalyzer.mkParsed (Spec.lastWins tags) (Notions.movesIn ms)).
Proof.
  intros N F M. exists (S (length tags + length ms)). intros fuel L.
  destruct tags as [|t ts]; [congruence|].
  pose proof (TextFacts.gameText_wellFormed t ts ms F M) as W.
  destruct (ParseFacts.header_loop _ _ W 0 fuel) as (found & E & Hf).
  { cbn [length]. rewrite length_map. cbn [length] in L. lia. }
  rewrite <- TextFacts.gameText_items in E.
  rewrite TextFacts.gameText_tags in Hf.
  pose proof (TextFacts.fold_headers _ _ Hf) as H.
  assert (T : Spec.movesTextOf (Notions.gameText (t :: ts) ms) found
              = Notions.moveText ms).
  { unfold Spec.movesTextOf. rewrite H, TextFacts.lastWins_some by discriminate.
    rewrite TextFacts.gameText_lines by assumption.
    cbn [negb]. rewrite TextFacts.collected by assumption.
    destruct ms as [|m rest]; [reflexivity|].
    apply TextFacts.cleanMoves_clean;
      [now apply TextFacts.moveList_words|apply TextFacts.words_nonempty]. }
  assert (R : exists got,
             Re.execLoop fuel GameAnalyzer.movePattern 0 (Notions.moveText ms) = Some got
             /\ concat (List.map GameAnalyzer.movesOf got) = Notions.movesIn ms).
  { destruct ms as [|m rest].
    - destruct fuel as [|fuel]; [lia|]. exists []. split; reflexivity.
    - apply (TextFacts.moves_loop (m :: rest) M ltac:(discriminate) [] 0 fuel);
        [now left|cbn [length] in *; lia]. }
  destruct R as (got & G & V). rewrite <- T in G.
  rewrite (ParseFacts.parsePGN_steps fuel _ found got); [now rewrite H, V| |exact E|exact G].
  rewrite TextFacts.gameText_items. discriminate.
Qed.

Lemma parsePGN_reads_back_witness :
  exists n, forall fuel, n <= fuel ->
    GameAnalyzer.parsePGN fuel
      (Notions.gameText [("Event" : str, "Live Chess" : str); ("Result" : str, "1-0" : str)]
                         [Notions.mkFullMove "1" "e4" (Some ("e5" : str));
                          Notions.mkFullMove "2" "Nf3" None])
    = Some (GameAnalyzer.mkParsed
              (Spec.lastWins [("Event" : str, "Live Chess" : str); ("Result" : str, "1-0" : str)])
              (Notions.movesIn [Notions.mkFullMove "1" "e4" (Some ("e5" : str));
                                 Notions.mkFullMove "2" "Nf3" None])).
Proof.
  apply parsePGN_reads_back.
  - discriminate.
  - repeat constructor; vm_compute; intuition discriminate.
  - vm_compute. repeat split; discriminate.
Defined.

(** ** Streaks (game-analyzer.js, [findStreaks]) *)

Module StreakFacts.
Import Streaks Notions.

Lemma streakIn_more kind done g block : streakIn kind done block -> streakIn kind (done ++ [g]) block.
Proof.
  intros [(b & a & ->) F]. split; [|exact F].
  exists b, (a ++ [g]). now rewrite <- !app_assoc.
Qed.

Lemma streakIn_end kind done before block :
  done = before ++ block -> Forall (fun g => outcome g = Some kind) block ->
  streakIn kind done block.
Proof. intros -> F. split; [|exact F]. exists before, []. now rewrite app_nil_r. Qed.

Lemma last_or_nil {A} (l : list A) : l = [] \/ exists l' x, l = l' ++ [x].
Proof. induction l as [|x l _] using rev_ind; [now left|right; eauto]. Qed.

(** A block of the list with one more row lies in the list, or ends with
    the row. *)
Lemma block_cases {A} (done : list A) g before block after :
  done ++ [g] = before ++ block ++ after ->
  (exists after', done = before ++ block ++ after')
  \/ (after = [] /\ exists block', block = block' ++ [g] /\ done = before ++ block')
  \/ (block = [] /\ after = []).
Proof.
  intros E. destruct (last_or_nil after) as [->|(a' & x & ->)].
  - rewrite app_nil_r in E. destruct (last_or_nil block) as [->|(b' & y & ->)].
    + right. right. now split.
    + right. left. split; [reflexivity|].
      rewrite app_assoc in E. apply app_inj_tail in E as [E <-].
      exists b'. now split.
  - left. exists a'. rewrite !app_assoc in E. apply app_inj_tail in E as [E _].
    now rewrite <- app_assoc in E.
Qed.

Lemma running_on kind done longest c g :
  running kind done longest c -> outcome g = Some kind ->
  running kind (done ++ [g]) longest (S c).
Proof.
  intros (HL & HB & HS) G. split; [now apply streakIn_more|]. split.
  - intros block [(b & a & E) F].
    destruct (block_cases _ _ _ _ _ E) as [(a' & E')|[(-> & b' & -> & E')|[-> _]]].
    + assert (I : streakIn kind done block) by (split; [eauto|exact F]).
      specialize (HB _ I). lia.
    + apply Forall_app in F as [F _]. specialize (HS _ _ E' F).
      rewrite length_app. simpl. lia.
    + simpl. lia.
  - intros b block E F.
    destruct (block_cases done g b block [] ltac:(now rewrite app_nil_r))
      as [(a' & E')|[(_ & b' & -> & E')|[-> _]]].
    + destruct (last_or_nil block) as [->|(b' & x & ->)]; [simpl; lia|].
      rewrite app_assoc in E. apply app_inj_tail in E as [E <-].
      apply Forall_app in F as [F _]. specialize (HS _ _ E F).
      rewrite length_app. simpl. lia.
    + apply Forall_app in F as [F _]. specialize (HS _ _ E' F).
      rewrite length_app. simpl. lia.
    + simpl. lia.
Qed.

Lemma not_at_end kind (g : gameRow) block' :
  outcome g <> Some kind -> ~ Forall (fun g => outcome g = Some kind) (block' ++ [g]).
Proof.
  intros N F. apply Forall_app in F as [_ F]. inversion F; subst. contradiction.
Qed.

Lemma running_off kind done longest c g longest' :
  running kind done longest c -> outcome g <> Some kind ->
  streakIn kind done longest' -> Nat.max (length longest) c <= length longest' ->
  running kind (done ++ [g]) longest' 0.
Proof.
  intros (HL & HB & HS) G I' M. split; [now apply streakIn_more|]. split.
  - intros block [(b & a & E) F].
    destruct (block_cases _ _ _ _ _ E) as [(a' & E')|[(-> & b' & -> & E')|[-> _]]].
    + assert (I : streakIn kind done block) by (split; [eauto|exact F]).
      specialize (HB _ I). lia.
    + now destruct (not_at_end kind g b' G).
    + simpl. lia.
  - intros b block E F.
    destruct (last_or_nil block) as [->|(b' & x & ->)]; [simpl; lia|].
    rewrite app_assoc in E. apply app_inj_tail in E as [E <-].
    now destruct (not_at_end kind g b' G).
Qed.

Lemma streakEnd_on kind done cur g :
  streakEnd kind done cur -> outcome g = Some kind -> streakEnd kind (done ++ [g]) (cur ++ [g]).
Proof.
  intros [(b & ->) F] G. split; [exists b; now rewrite app_assoc|].
  apply Forall_app. split; [exact F|]. constructor; [exact G|constructor].
Qed.

Lemma streakEnd_new kind done g : outcome g = Some kind -> streakEnd kind (done ++ [g]) [g].
Proof. intros G. split; [now exists done|]. constructor; [exact G|constructor]. Qed.

Lemma streakEnd_in kind done cur : streakEnd kind done cur -> streakIn kind done cur.
Proof. intros [(b & E) F]. now apply (streakIn_end kind done b). Qed.

Lemma running_longest kind done longest c : running kind done longest c -> streakIn kind done longest.
Proof. now intros (H & _). Qed.

Lemma isStr_outcome (g : gameRow) kind :
  (Games.isStr (outcome g) kind = true /\ outcome g = Some kind)
  \/ (Games.isStr (outcome g) kind = false /\ outcome g <> Some kind).
Proof.
  unfold Games.isStr. destruct (bool_decide_reflect (outcome g = Some kind)); [left|right]; auto.
Qed.

Lemma longer_cases a b :
  (longer a b = true /\ length b < length a) \/ (longer a b = false /\ length a <= length b).
Proof.
  unfold longer. destruct (Nat.ltb_spec (length b) (length a)); [left|right]; auto.
Qed.

Lemma won_not_lost (g : gameRow) : outcome g = Some ("win" : str) -> outcome g <> Some ("loss" : str).
Proof. intros -> X. discriminate X. Qed.

Lemma lost_not_won (g : gameRow) : outcome g = Some ("loss" : str) -> outcome g <> Some ("win" : str).
Proof. intros -> X. discriminate X. Qed.

Ltac streak_goal :=
  match goal with
  | |- running _ (_ ++ [_]) _ (length (_ ++ [_])) =>
      rewrite length_app; cbn [length]; rewrite Nat.add_1_r; apply running_on; assumption
  | |- running _ (_ ++ [_]) _ (length [_]) => apply (running_on _ _ _ 0); assumption
  | |- running _ (_ ++ [_]) _ 0 =>
      eapply running_off;
      [eassumption
      |first [assumption|apply won_not_lost; assumption|apply lost_not_won; assumption]
      |(eapply running_longest; eassumption) || (apply streakEnd_in; assumption)
      |lia]
  | |- streakEnd _ _ [_] => apply streakEnd_new; assumption
  | |- streakEnd _ _ (_ ++ [_]) => apply streakEnd_on; assumption
  | |- True => exact I
  end.

Lemma tracked_start : tracked [] (mkStreaks [] [] [] NoStreak).
Proof.
  assert (R : forall kind, running kind [] [] 0).
  { intros kind. split; [split; [now exists [], []|constructor]|]. split.
    - intros block [(b & a & E) _]. symmetry in E.
      apply app_eq_nil in E as [_ E]. apply app_eq_nil in E as [-> _]. simpl. lia.
    - intros b block E _. symmetry in E. apply app_eq_nil in E as [_ ->]. simpl. lia. }
  split; [apply R|split; [apply R|exact I]].
Qed.

Lemma tracked_step done s g : tracked done s -> tracked (done ++ [g]) (streakStep s g).
Proof.
  destruct s as [cur LW LL ty]. unfold tracked, streakStep.
  cbn [currentStreak longestWinStreak longestLossStreak currentType].
  intros (RW & RL & E).
  destruct (isStr_outcome g "win") as [[-> Gw]|[-> Gw]];
    [|destruct (isStr_outcome g "loss") as [[-> Gl]|[-> Gl]]];
    destruct ty; cbn [isWin isLoss andb] in RW, RL, E |- *;
    try (destruct (longer_cases cur LW) as [[-> Cw]|[-> Cw]]);
    try (destruct (longer_cases cur LL) as [[-> Cl]|[-> Cl]]);
    cbn [currentStreak longestWinStreak longestLossStreak currentType isWin isLoss];
    (split; [|split]); streak_goal.
Qed.

Lemma tracked_loop rows :
  forall done s, tracked done s -> tracked (done ++ rows) (fold_left streakStep rows s).
Proof.
  induction rows as [|g rows IH]; intros done s T; [now rewrite app_nil_r|].
  cbn [fold_left]. replace (done ++ g :: rows) with ((done ++ [g]) ++ rows)
    by now rewrite <- app_assoc.
  apply IH. now apply tracked_step.
Qed.

Lemma closed rows s :
  tracked rows s ->
  forall kind longest, 
    (kind = "win" /\ longest = longestWinStreak (closeStreak s)
     \/ kind = "loss" /\ longest = longestLossStreak (closeStreak s)) ->
    streakIn kind rows longest
    /\ forall block, streakIn kind rows block -> length block <= length longest.
Proof.
  destruct s as [cur LW LL ty]. unfold tracked, closeStreak.
  cbn [currentStreak longestWinStreak longestLossStreak currentType].
  intros (RW & RL & E) kind longest K.
  destruct RW as (IW & BW & _), RL as (IL & BL & _).
  destruct ty; cbn [isWin isLoss andb] in BW, BL, E, K |- *;
    try (destruct (longer_cases cur LW) as [[Ew Cw]|[Ew Cw]]; rewrite Ew in K);
    try (destruct (longer_cases cur LL) as [[El Cl]|[El Cl]]; rewrite El in K);
    cbn [currentStreak longestWinStreak longestLossStreak currentType] in K;
    destruct K as [[-> ->]|[-> ->]];
    (split; [assumption || (apply streakEnd_in; assumption)
            |intros block I;
             try (specialize (BW _ I)); try (specialize (BL _ I)); lia]).
Qed.

End StreakFacts.

(** X25.  The streaks [findStreaks] returns are the longest: each is a run
    of consecutive rows that all have the outcome (win, loss), and no run of
    consecutive rows with that outcome is longer. *)
Theorem findStreaks_longest (rows : list Streaks.gameRow) :
  (Notions.streakIn "win" rows (fst (Streaks.findStreaks rows))
   /\ forall block, Notions.streakIn "win" rows block ->
                    length block <= length (fst (Streaks.findStreaks rows)))
  /\ (Notions.streakIn "loss" rows (snd (Streaks.findStreaks rows))
      /\ forall block, Notions.streakIn "loss" rows block ->
                       length block <= length (snd (Streaks.findStreaks rows))).
Proof.
  pose proof (StreakFacts.tracked_loop rows [] _ StreakFacts.tracked_start) as T.
  cbn [app] in T. unfold Streaks.findStreaks. cbn [fst snd]. split.
  - apply (StreakFacts.closed rows _ T "win"). now left.
  - apply (StreakFacts.closed rows _ T "loss"). now right.
Qed.
